(** * sca25519.py: fault-trace analysis for X25519

    A shallow embedding of [src/sca25519.py] and the properties of its
    key generator, trace parser and detectors.

    Conventions of the embedding:
    - Python [int] is [Z]; [bytes] is [list byte]; [str] is [string].
    - An exception is a value of [exn]; a function that can raise returns
      an [outcome].  A generator that yields some items and then raises is
      a pair of the yielded items and the exception that ended it.
    - [dict] objects whose iteration order is never observed are [gmap]s,
      [set[int]] is a [gset N]; the dict [seen_effective_keys], whose
      insertion order is observed by the stable sort, is an association
      list.
    - The file system is a map from directories to their entries; the
      cache file faulted_results.json is the mapping it holds, when it
      exists, and known_outputs.txt is the list of its lines.  What a
      function prints is a rendering of the value it returns here and is
      not modelled further. *)

From Stdlib Require Import ZArith Lia List Bool Sorted.
From Stdlib.Strings Require Import Ascii String Byte.
From stdpp Require Import gmap strings list fin_maps.
Import ListNotations.

Local Open Scope Z_scope.

(** ** Exceptions and results *)

Inductive exn : Set :=
| FileNotFoundError
| OSError
| OverflowError
| ValueError
| IndexError
| AssertionError.

Inductive outcome (A : Type) : Type :=
| Ok (a : A)
| Raise (e : exn).
Arguments Ok {A} a.
Arguments Raise {A} e.

(** ** Python [bytes] and [int] conversions *)

Abbreviation bytes := (list byte).

Inductive byteorder : Set := Big | Little.

Definition Z_of_byte (b : byte) : Z := Z.of_N (Byte.to_N b).

(** The byte of the low 8 bits of [z]. *)
Definition byte_of_Z (z : Z) : byte :=
  match Byte.of_N (Z.to_N (Z.land z 255)) with
  | Some b => b
  | None => x00
  end.

(** [int.from_bytes(b, byteorder='little')] *)
Fixpoint from_bytes_little (b : bytes) : Z :=
  match b with
  | [] => 0
  | x :: b' => Z_of_byte x + 256 * from_bytes_little b'
  end.

(** [int.from_bytes(b, byteorder=order)] *)
Definition from_bytes (order : byteorder) (b : bytes) : Z :=
  match order with
  | Little => from_bytes_little b
  | Big => from_bytes_little (rev b)
  end.

Fixpoint to_bytes_little (len : nat) (n : Z) : bytes :=
  match len with
  | O => []
  | S len' => byte_of_Z n :: to_bytes_little len' (Z.shiftr n 8)
  end.

(** [n.to_bytes(len, order)]: [OverflowError] when [n] is negative or does
    not fit in [len] bytes. *)
Definition to_bytes (len : nat) (order : byteorder) (n : Z) : outcome bytes :=
  if (0 <=? n) && (Z.shiftr n (8 * Z.of_nat len) =? 0) then
    Ok (match order with
        | Little => to_bytes_little len n
        | Big => rev (to_bytes_little len n)
        end)
  else Raise OverflowError.

(** ** [clamp] (lines 143-148) *)

Definition clamp_int (key_int : Z) : Z :=
  let key_int := Z.land key_int (Z.lnot (Z.shiftl 1 255)) in
  let key_int := Z.lor key_int (Z.shiftl 1 254) in
  let key_int := Z.land key_int (Z.lnot 7) in
  key_int.

Definition clamp (key : bytes) : outcome bytes :=
  to_bytes 32 Little (clamp_int (from_bytes Little key)).

(** [bytes.hex()] *)
Definition hexdigit (n : N) : ascii :=
  nth (N.to_nat n) (list_ascii_of_string "0123456789abcdef") "0"%char.

Definition hex_byte (b : byte) : list ascii :=
  [hexdigit (Byte.to_N b / 16); hexdigit (Byte.to_N b mod 16)].

Definition hex (b : bytes) : string :=
  string_of_list_ascii (flat_map hex_byte b).

(** [bytes.fromhex(s)]: two hexadecimal digits per byte in either case,
    ASCII whitespace ignored between bytes, [ValueError] otherwise. *)
Definition hexval (c : ascii) : option N :=
  let n := N_of_ascii c in
  if ((48 <=? n) && (n <=? 57))%N then Some (n - 48)%N
  else if ((97 <=? n) && (n <=? 102))%N then Some (n - 87)%N
  else if ((65 <=? n) && (n <=? 70))%N then Some (n - 55)%N
  else None.

Definition is_space (c : ascii) : bool :=
  let n := N_of_ascii c in
  ((n =? 32) || ((9 <=? n) && (n <=? 13)))%N.

Fixpoint fromhex_list (s : list ascii) : outcome bytes :=
  match s with
  | [] => Ok []
  | c :: s' =>
      if is_space c then fromhex_list s'
      else
        match hexval c, s' with
        | Some top, c2 :: s'' =>
            match hexval c2 with
            | Some bot =>
                match fromhex_list s'' with
                | Ok bs => Ok (byte_of_Z (Z.of_N (top * 16 + bot)) :: bs)
                | Raise e => Raise e
                end
            | None => Raise ValueError
            end
        | _, _ => Raise ValueError
        end
  end.

Definition fromhex (s : string) : outcome bytes :=
  fromhex_list (list_ascii_of_string s).

(** [range(lo, hi)] *)
Definition range (lo hi : Z) : list Z := seqZ lo (hi - lo).

(** ** [SimulationResult] (lines 14-27) *)

Record SimulationResult : Set := mkSimulationResult {
  address : string;
  hit : N;
  instruction : N;
  result : string;
  output : string
}.

(** ** Regular expressions

    The fragment of Python's [re] that [parse_output] uses, matched by
    backtracking with the priorities of [re]: a pattern is a sequence of
    literal characters, greedy and lazy repetitions (one or more) of a
    character class, group delimiters and the end-of-line anchor of
    [re.MULTILINE].  File contents are ASCII text. *)

Inductive atom : Type :=
| Lit (c : ascii)
| LazyPlus (p : ascii -> bool)
| GreedyPlus (p : ascii -> bool)
| GroupOpen
| GroupClose
| Eol.

Record mstate : Set := mkMstate {
  closed : list (list ascii);      (* finished groups, most recent first *)
  opened : option (list ascii)     (* the open group, most recent first *)
}.

Definition consume (c : ascii) (st : mstate) : mstate :=
  mkMstate (closed st) (option_map (cons c) (opened st)).

Definition newline : ascii := "010"%char.

Fixpoint run (pat : list atom) :
    list ascii -> mstate -> option (mstate * list ascii) :=
  match pat with
  | [] => fun s st => Some (st, s)
  | Lit c :: pat' => fun s st =>
      match s with
      | x :: s' => if Ascii.eqb x c then run pat' s' (consume x st) else None
      | [] => None
      end
  | LazyPlus p :: pat' =>
      fix more (s : list ascii) (st : mstate) :=
        match s with
        | x :: s' =>
            if p x then
              match run pat' s' (consume x st) with
              | Some r => Some r
              | None => more s' (consume x st)
              end
            else None
        | [] => None
        end
  | GreedyPlus p :: pat' =>
      fix more (s : list ascii) (st : mstate) :=
        match s with
        | x :: s' =>
            if p x then
              match more s' (consume x st) with
              | Some r => Some r
              | None => run pat' s' (consume x st)
              end
            else None
        | [] => None
        end
  | GroupOpen :: pat' => fun s st =>
      run pat' s (mkMstate (closed st) (Some []))
  | GroupClose :: pat' => fun s st =>
      run pat' s (mkMstate (rev (default [] (opened st)) :: closed st) None)
  | Eol :: pat' => fun s st =>
      match s with
      | [] => run pat' s st
      | x :: _ => if Ascii.eqb x newline then run pat' s st else None
      end
  end.

(** One match attempt at the start of [s]: the groups, in order, and the
    text after the match. *)
Definition match_at (pat : list atom) (s : list ascii) :
    option (list string * list ascii) :=
  match run pat s (mkMstate [] None) with
  | Some (st, rest) => Some (map string_of_list_ascii (rev (closed st)), rest)
  | None => None
  end.

(** [re.findall]: leftmost matches, not overlapping.  [skip] counts the
    characters of the last match still to pass. *)
Fixpoint findall_from (pat : list atom) (s : list ascii) (skip : nat) :
    list (list string) :=
  match s with
  | [] =>
      match skip, match_at pat [] with
      | O, Some (groups, _) => [groups]
      | _, _ => []
      end
  | _ :: s' =>
      match skip with
      | S k => findall_from pat s' k
      | O =>
          match match_at pat s with
          | Some (groups, rest) =>
              groups :: findall_from pat s' (length s - length rest - 1)
          | None => findall_from pat s' 0
          end
      end
  end.

Definition findall (pat : list atom) (s : string) : list (list string) :=
  findall_from pat (list_ascii_of_string s) 0.

Definition lits (s : string) : list atom := map Lit (list_ascii_of_string s).

Definition any_char (c : ascii) : bool := true.

Definition is_digit (c : ascii) : bool :=
  let n := N_of_ascii c in ((48 <=? n) && (n <=? 57))%N.

Definition is_lower_hex (c : ascii) : bool :=
  let n := N_of_ascii c in
  (((97 <=? n) && (n <=? 102)) || ((48 <=? n) && (n <=? 57)))%N.

(** The pattern of lines 37-38, under [re.MULTILINE | re.DOTALL]. *)
Definition trace_pattern : list atom :=
  lits "#####" ++ [LazyPlus any_char] ++ lits "Address: " ++
  [GroupOpen] ++ lits "0x" ++ [LazyPlus is_lower_hex; GroupClose] ++
  lits ". Hit: " ++ [GroupOpen; GreedyPlus is_digit; GroupClose] ++
  [LazyPlus any_char] ++ lits "Instruction: " ++
  [GroupOpen; GreedyPlus is_digit; GroupClose] ++
  [LazyPlus any_char] ++ lits "Run result: " ++
  [GroupOpen; LazyPlus any_char; GroupClose; Eol] ++
  [LazyPlus any_char] ++ lits "Output" ++ [LazyPlus any_char] ++ lits ": " ++
  [GroupOpen; LazyPlus is_lower_hex; GroupClose; Eol].

(** [int(s)] on a string of decimal digits. *)
Definition int_of_digits (s : string) : N :=
  fold_left (fun acc c => (10 * acc + (N_of_ascii c - 48))%N)
            (list_ascii_of_string s) 0%N.

(** ** The file system seen by [parse_output]

    A directory is the list of its entries in the order of [os.listdir];
    an entry that cannot be opened or decoded raises when it is read. *)

Inductive node : Set :=
| File (content : string)
| Unreadable (e : exn).

Abbreviation filesystem := (gmap string (list (string * node))).

(** [s.endswith(suffix)] *)
Definition endswith (s suffix : string) : bool :=
  let n := String.length s in
  let m := String.length suffix in
  (m <=? n)%nat && String.eqb (substring (n - m) m s) suffix.

(** ** [parse_output] (lines 30-47)

    The body of the generator runs when the sequence is first consumed;
    the listing, the reads and the scan all happen before the first
    [yield], so the outcome is either an exception or the whole
    sequence. *)

Fixpoint read_txt_files (entries : list (string * node)) (output : string) :
    outcome string :=
  match entries with
  | [] => Ok output
  | (filename, f) :: entries' =>
      if endswith filename ".txt" then
        match f with
        | File content => read_txt_files entries' (output ++ content)
        | Unreadable e => Raise e
        end
      else read_txt_files entries' output
  end.

Definition parse_case (case : list string) : SimulationResult :=
  match case with
  | [address; hit; instruction; result; output] =>
      mkSimulationResult address (int_of_digits hit)
                         (int_of_digits instruction) result output
  | _ => mkSimulationResult "" 0 0 "" ""
  end.

Definition parse_text (output : string) : list SimulationResult :=
  map parse_case (findall trace_pattern output).

Definition parse_output (fs : filesystem) (output_dir : string) :
    outcome (list SimulationResult) :=
  match fs !! output_dir with
  | None => Raise FileNotFoundError
  | Some entries =>
      match read_txt_files entries "" with
      | Raise e => Raise e
      | Ok output => Ok (parse_text output)
      end
  end.

(** ** [swap_endian] (lines 59-63) *)

Definition swap_endian (key : bytes) : outcome bytes :=
  to_bytes 32 Little (from_bytes Big key).

(** ** [generate_faulted_keys] (lines 66-122)

    The generator yields a sequence of keys and then either returns or
    raises: [(keys, None)] or [(keys, Some e)]. *)

(** Converts the candidates in order, up to the first that raises. *)
Fixpoint emit (cands : list (Z * byteorder)) : list bytes * option exn :=
  match cands with
  | [] => ([], None)
  | (x, endian) :: cands' =>
      match to_bytes 32 endian x with
      | Ok b => let '(ys, e) := emit cands' in (b :: ys, e)
      | Raise e => ([], Some e)
      end
  end.

(** Converts all the candidates, or raises. *)
Definition to_bytes_all (cands : list (Z * byteorder)) : outcome (list bytes) :=
  match emit cands with
  | (ys, None) => Ok ys
  | (_, Some e) => Raise e
  end.

(** Lines 69-71: one contiguous block of 8, 32, 64 or 128 bits. *)
Definition block_masks : list (Z * byteorder) :=
  flat_map
    (fun block =>
       let unshifted_mask := 2 ^ block - 1 in
       map (fun i => (Z.shiftl unshifted_mask (i * block), Big))
           (range 0 (256 / block)))
    [8; 32; 64; 128].

Definition start_of_mask (bits_from_start : Z) : Z :=
  Z.lxor (Z.shiftl 1 256 - 1) (Z.shiftl 1 (256 - bits_from_start) - 1).

Definition end_of_mask (bits_from_end : Z) : Z :=
  Z.shiftl 1 bits_from_end - 1.

(** Lines 75-83: bits from the start and bits from the end. *)
Definition start_end_masks : list (Z * byteorder) :=
  flat_map
    (fun bits_from_start =>
       flat_map
         (fun bits_from_end =>
            if bits_from_start + bits_from_end =? 0 then []
            else
              let m := Z.lor (start_of_mask bits_from_start)
                             (end_of_mask bits_from_end) in
              [(m, Big); (m, Little)])
         (range 0 (256 - bits_from_start)))
    (range 0 256).

Definition fault_masks : outcome (list bytes) :=
  to_bytes_all (block_masks ++ start_end_masks).

(** Line 86: [bytes(a & b for a, b in zip(original_key, mask))] *)
Definition and_bytes (original_key mask : bytes) : bytes :=
  zip_with (fun a b => byte_of_Z (Z.land (Z_of_byte a) (Z_of_byte b)))
           original_key mask.

(** Lines 91-106: the key shifted left or right, filled with 0 or 1. *)
Definition shifted_keys (original_key : bytes) : list (Z * byteorder) :=
  flat_map
    (fun bits_shifted =>
       flat_map
         (fun endian =>
            let shifted_left_fill_0 :=
              Z.land (Z.shiftl (from_bytes endian original_key) bits_shifted)
                     (Z.shiftl 1 256 - 1) in
            let shifted_right_fill_0 :=
              Z.shiftr (from_bytes endian original_key) bits_shifted in
            let shifted_left_fill_1 :=
              Z.lor shifted_left_fill_0 (Z.shiftl 1 bits_shifted - 1) in
            let shifted_right_fill_1 :=
              Z.lor shifted_right_fill_0
                    (Z.shiftl (Z.shiftl 1 bits_shifted - 1)
                              (256 - bits_shifted)) in
            [(shifted_left_fill_0, endian); (shifted_right_fill_0, endian);
             (shifted_left_fill_1, endian); (shifted_right_fill_1, endian)])
         [Big; Little])
    (range 1 256).

(** Lines 108-110 *)
Definition small_keys : list (Z * byteorder) :=
  flat_map (fun i => [(i, Big); (i, Little)]) (range 0 (Z.shiftl 1 8)).

(** [itertools.combinations(l, k)], in lexicographic order of positions. *)
Fixpoint combinations {A : Type} (l : list A) (k : nat) : list (list A) :=
  match k with
  | O => [[]]
  | S k' =>
      match l with
      | [] => []
      | x :: l' => map (cons x) (combinations l' k') ++ combinations l' k
      end
  end.

(** Lines 113-122: only the highest and the lowest byte are not empty. *)
Definition corner_keys : list (Z * byteorder) :=
  flat_map
    (fun upper_num_bits =>
       flat_map
         (fun upper_bits =>
            flat_map
              (fun lower_num_bits =>
                 map
                   (fun lower_bits =>
                      let faulted_key := 0 in
                      let faulted_key :=
                        fold_left (fun acc bit => Z.lor acc (Z.shiftl 1 bit))
                                  upper_bits faulted_key in
                      let faulted_key :=
                        fold_left
                          (fun acc bit => Z.lor acc (Z.shiftl 1 (bit + 248)))
                          lower_bits faulted_key in
                      (faulted_key, Big))
                   (combinations (range 0 8) (Z.to_nat lower_num_bits)))
              (range 0 8))
         (combinations (range 0 8) (Z.to_nat upper_num_bits)))
    (range 0 8).

(** The items of [xs], then the generator [g]. *)
Definition yield_first {A : Type} (xs : list A) (g : list A * option exn) :
    list A * option exn :=
  (xs ++ fst g, snd g).

Definition generate_faulted_keys (original_key : bytes) :
    list bytes * option exn :=
  match fault_masks return list bytes * option exn with
  | Raise e => ([], Some e)
  | Ok masks =>
      yield_first
        (map (and_bytes original_key) masks)
        (emit (shifted_keys original_key ++ small_keys ++ corner_keys))
  end.

(** ** [generate_faulted_results] (lines 125-140)

    [stored] is the content of faulted_results.json, when the file exists.
    The external primitive [get_public_key_bytes_from_private_bytes] is a
    parameter; the code calls it on 32-byte keys only, where it is total.
    A run records what was yielded, the keys the primitive was invoked on,
    every write of the file, and the exception that ended the pass, if
    any. *)

Record generation : Type := mkGeneration {
  yielded : list (bytes * bytes);
  invoked : list bytes;
  written : list (gmap string string);
  raised : option exn
}.

(** The state of the loop of lines 131-138 when it ends. *)
Record loop_end : Type := mkLoopEnd {
  loop_yielded : list (bytes * bytes);
  loop_invoked : list bytes;
  loop_dict : gmap string string;
  loop_raised : option exn
}.

Section Generator.

Variable get_public_key_bytes_from_private_bytes : bytes -> bytes.

Fixpoint faulted_results_loop (keys : list bytes)
    (key_result_dict : gmap string string) : loop_end :=
  match keys with
  | [] => mkLoopEnd [] [] key_result_dict None
  | faulted_key :: keys' =>
      match clamp faulted_key with
      | Raise e => mkLoopEnd [] [] key_result_dict (Some e)
      | Ok clamped_key =>
          match key_result_dict !! hex clamped_key with
          | Some cached =>
              match fromhex cached with
              | Raise e => mkLoopEnd [] [] key_result_dict (Some e)
              | Ok resulting_public_key =>
                  let r := faulted_results_loop keys' key_result_dict in
                  mkLoopEnd
                    ((clamped_key, resulting_public_key) :: loop_yielded r)
                    (loop_invoked r) (loop_dict r) (loop_raised r)
              end
          | None =>
              let resulting_public_key :=
                get_public_key_bytes_from_private_bytes clamped_key in
              let r :=
                faulted_results_loop keys'
                  (<[hex clamped_key := hex resulting_public_key]>
                     key_result_dict) in
              mkLoopEnd
                ((clamped_key, resulting_public_key) :: loop_yielded r)
                (clamped_key :: loop_invoked r) (loop_dict r) (loop_raised r)
          end
      end
  end.

(** The file is written (line 139) when the loop and the key generator
    both ended without an exception. *)
Definition end_of_pass (raised_by_keys : option exn) (r : loop_end) :
    generation :=
  match loop_raised r with
  | Some e => mkGeneration (loop_yielded r) (loop_invoked r) [] (Some e)
  | None =>
      match raised_by_keys with
      | Some e => mkGeneration (loop_yielded r) (loop_invoked r) [] (Some e)
      | None => mkGeneration (loop_yielded r) (loop_invoked r) [loop_dict r] None
      end
  end.

Definition generate_faulted_results (stored : option (gmap string string))
    (original_key : bytes) : generation :=
  let key_result_dict := default ∅ stored in
  let keys := generate_faulted_keys original_key in
  end_of_pass (snd keys) (faulted_results_loop (fst keys) key_result_dict).

End Generator.

(** ** [check_key_shortening] (lines 151-181) *)

(** [dict[str, set[int]]]: address to the hits seen there. *)
Abbreviation address_hits := (gmap string (gset N)).

(** Lines 154-158, one observation. *)
Definition index_observation (results_sim : gmap string address_hits)
    (result_sim : SimulationResult) : gmap string address_hits :=
  let results_sim :=
    match results_sim !! output result_sim with
    | None => <[output result_sim := ∅]> results_sim
    | Some _ => results_sim
    end in
  let results_sim :=
    alter (fun addresses : address_hits =>
             match addresses !! address result_sim with
             | None => <[address result_sim := ∅]> addresses
             | Some _ => addresses
             end)
          (output result_sim) results_sim in
  alter (alter (fun hits : gset N => hits ∪ {[hit result_sim]})
               (address result_sim))
        (output result_sim) results_sim.

Definition index_observations (observations : list SimulationResult) :
    gmap string address_hits :=
  fold_left index_observation observations ∅.

Definition untouched_key : bytes :=
  [x80; x65; x74; xba; x61; x62; xcd; x58; x49; x30; x59; x47;
   x36; x16; x35; xb6; xe7; x7d; x7c; x7a; x83; xde; x38; xc0;
   x80; x74; xb8; xc9; x8f; xd4; x0a; x43].

#[global] Instance byte_eq_dec : EqDecision byte := Byte.byte_eq_dec.

(** [faulted_key in seen_effective_keys] *)
Definition key_in (faulted_key : bytes)
    (seen : list (bytes * address_hits)) : bool :=
  existsb (fun item => bool_decide (fst item = faulted_key)) seen.

(** Lines 165-168, one pair of the generator. *)
Definition see_effective_key (results_sim : gmap string address_hits)
    (seen_effective_keys : list (bytes * address_hits))
    (pair : bytes * bytes) : list (bytes * address_hits) :=
  let '(faulted_key, result) := pair in
  match results_sim !! hex result with
  | Some addresses =>
      if key_in faulted_key seen_effective_keys then seen_effective_keys
      else seen_effective_keys ++ [(faulted_key, addresses)]
  | None => seen_effective_keys
  end.

(** [bin(x).count('1')] *)
Fixpoint count_ones_pos (p : positive) : Z :=
  match p with
  | xH => 1
  | xO p' => count_ones_pos p'
  | xI p' => 1 + count_ones_pos p'
  end.

Definition count_ones (x : Z) : Z :=
  match x with
  | Z0 => 0
  | Zpos p | Zneg p => count_ones_pos p
  end.

(** The sort key of lines 174-175. *)
Definition bits_removed (item : bytes * address_hits) : Z :=
  count_ones (Z.lxor (from_bytes Big (fst item))
                     (from_bytes Big untouched_key)).

(** [sorted(items, key=key, reverse=True)]: stable, greatest key first. *)
Fixpoint insert_descending {A : Type} (key : A -> Z) (x : A) (l : list A) :
    list A :=
  match l with
  | [] => [x]
  | y :: l' =>
      if key y <? key x then x :: y :: l'
      else y :: insert_descending key x l'
  end.

Definition sorted_descending {A : Type} (key : A -> Z) (l : list A) : list A :=
  fold_left (fun acc x => insert_descending key x acc) l [].

(** What a run of [check_key_shortening] leaves: the entries printed, in
    the order printed, and the writes of faulted_results.json. *)
Record shortening_report : Type := mkShorteningReport {
  reported : list (bytes * address_hits);
  cache_written : list (gmap string string)
}.

Section Detectors.

Variable get_public_key_bytes_from_private_bytes : bytes -> bytes.

(** Lines 160-181, given the index and the run of the generator: an
    exception of the generator ends the function before anything is
    printed. *)
Definition report_effective_keys (results_sim : gmap string address_hits)
    (g : generation) : outcome shortening_report :=
  match raised g with
  | Some e => Raise e
  | None =>
      let seen_effective_keys :=
        fold_left (see_effective_key results_sim) (yielded g) [] in
      Ok (mkShorteningReport
            (sorted_descending bits_removed seen_effective_keys)
            (written g))
  end.

Definition check_key_shortening (fs : filesystem)
    (stored : option (gmap string string)) (output_dir : string) :
    outcome shortening_report :=
  match parse_output fs output_dir with
  | Raise e => Raise e
  | Ok observations =>
      report_effective_keys
        (index_observations observations)
        (generate_faulted_results get_public_key_bytes_from_private_bytes
                                  stored untouched_key)
  end.

(** ** [check_safe_error] (lines 214-251) *)

(** Line 220: the size of the two arrays. *)
Definition capacity : nat := Z.to_nat 1000000.

(** Lines 222-225: [ordered[r.instruction] = r] for each observation;
    the instruction index is not negative, so the index is out of range
    exactly when it reaches the length of the array. *)
Fixpoint place (results_sim : list SimulationResult)
    (ordered : list (option SimulationResult)) :
    outcome (list (option SimulationResult)) :=
  match results_sim with
  | [] => Ok ordered
  | r :: results_sim' =>
      if (N.to_nat (instruction r) <? length ordered)%nat then
        place results_sim' (<[N.to_nat (instruction r) := Some r]> ordered)
      else Raise IndexError
  end.

(** Lines 245-247 *)
Definition flag (potentially_prone_addresses : address_hits)
    (r : SimulationResult) : address_hits :=
  let potentially_prone_addresses :=
    match potentially_prone_addresses !! address r with
    | None => <[address r := ∅]> potentially_prone_addresses
    | Some _ => potentially_prone_addresses
    end in
  alter (fun hits : gset N => hits ∪ {[hit r]}) (address r)
        potentially_prone_addresses.

(** Lines 236-247 *)
Fixpoint compare_runs (correct_result_1 correct_result_2 : bytes)
    (pairs : list (option SimulationResult * option SimulationResult))
    (potentially_prone_addresses : address_hits) : outcome address_hits :=
  match pairs with
  | [] => Ok potentially_prone_addresses
  | (Some result_sim_1, Some result_sim_2) :: pairs' =>
      if negb (String.eqb (address result_sim_1) (address result_sim_2))
      then Raise AssertionError
      else if negb (N.eqb (hit result_sim_1) (hit result_sim_2))
      then Raise AssertionError
      else if negb (N.eqb (instruction result_sim_1)
                          (instruction result_sim_2))
      then Raise AssertionError
      else
        compare_runs correct_result_1 correct_result_2 pairs'
          (if xorb (String.eqb (output result_sim_1) (hex correct_result_1))
                   (String.eqb (output result_sim_2) (hex correct_result_2))
           then flag potentially_prone_addresses result_sim_1
           else potentially_prone_addresses)
  | _ :: pairs' =>
      compare_runs correct_result_1 correct_result_2 pairs'
                   potentially_prone_addresses
  end.

(** Lines 217-247 on the two parsed traces; the result is the dict that
    lines 249-251 print. *)
Definition safe_error_of_traces
    (results_sim_1 results_sim_2 : list SimulationResult) :
    outcome address_hits :=
  match place results_sim_1 (replicate capacity None) with
  | Raise e => Raise e
  | Ok results_sim_1_ordered =>
      match place results_sim_2 (replicate capacity None) with
      | Raise e => Raise e
      | Ok results_sim_2_ordered =>
          let correct_result_1 :=
            get_public_key_bytes_from_private_bytes (replicate 32 x93) in
          let correct_result_2 :=
            get_public_key_bytes_from_private_bytes (replicate 32 x6c) in
          compare_runs correct_result_1 correct_result_2
                       (zip results_sim_1_ordered results_sim_2_ordered) ∅
      end
  end.

Definition check_safe_error (fs : filesystem)
    (output_dir_1 output_dir_2 : string) : outcome address_hits :=
  match parse_output fs output_dir_1 with
  | Raise e => Raise e
  | Ok results_sim_1 =>
      match parse_output fs output_dir_2 with
      | Raise e => Raise e
      | Ok results_sim_2 => safe_error_of_traces results_sim_1 results_sim_2
      end
  end.

End Detectors.

(** ** Notions used to state the properties *)

(** The entries of a directory whose names end with ".txt". *)
Definition txt_entries (entries : list (string * node)) :
    list (string * node) :=
  List.filter (fun entry => endswith (fst entry) ".txt") entries.

(** [address] is flagged with hit count [h] in the dict of the safe-error
    detector. *)
Definition flagged (potentially_prone_addresses : address_hits)
    (a : string) (h : N) : Prop :=
  exists hits, potentially_prone_addresses !! a = Some hits /\ h ∈ hits.

(** The entry at index [i] of the array that lines 220-225 build from a
    trace, when they build it. *)
Definition observation_at (results_sim : list SimulationResult) (i : nat) :
    option SimulationResult :=
  match place results_sim (replicate capacity None) with
  | Ok ordered => mjoin (ordered !! i)
  | Raise _ => None
  end.

(** The two observations are at the same index of the two arrays: the
    pairs that the loop of lines 236-247 compares. *)
Definition aligned (results_sim_1 results_sim_2 : list SimulationResult)
    (r1 r2 : SimulationResult) : Prop :=
  exists i : nat,
    observation_at results_sim_1 i = Some r1 /\
    observation_at results_sim_2 i = Some r2.

(** One of the three asserted fields differs. *)
Definition differ (r1 r2 : SimulationResult) : Prop :=
  address r1 <> address r2 \/ hit r1 <> hit r2 \/
  instruction r1 <> instruction r2.

(** Exactly one of the two runs gave its correct public key (line 244). *)
Definition one_correct (correct_result_1 correct_result_2 : bytes)
    (r1 r2 : SimulationResult) : bool :=
  xorb (String.eqb (output r1) (hex correct_result_1))
       (String.eqb (output r2) (hex correct_result_2)).

(** ** Sample inputs *)

(** One block of a trace file, as the simulator prints it. *)
Definition trace_block (address hit instruction result output : string) :
    string :=
  ("##### Fault. Address: " ++ address ++ ". Hit: " ++ hit ++
   ". Instruction: " ++ instruction ++ "
Run result: " ++ result ++ "
Output (hex): " ++ output ++ "
")%string.

(** A stand-in for the external primitive: the public key of a key is
    the key itself. *)
Definition stub_public_key (private_bytes : bytes) : bytes := private_bytes.

(** The correct outputs of the two runs under [stub_public_key]. *)
Definition correct_93 : string := hex (replicate 32 x93).
Definition correct_6c : string := hex (replicate 32 x6c).

(** Two campaigns of two faults each; the two faults hit the same address
    with the same hit count at instructions 0 and 1.  Run 1 is correct
    at instruction 0 only, run 2 is never correct. *)
Definition two_runs : filesystem :=
  {[ "outputs-93" :=
       [("trace.txt",
         File (trace_block "0x8000a4" "1" "0" "exit" correct_93 ++
               trace_block "0x8000a4" "1" "1" "exit" "00")%string)];
     "outputs-6c" :=
       [("trace.txt",
         File (trace_block "0x8000a4" "1" "0" "exit" "00" ++
               trace_block "0x8000a4" "1" "1" "exit" "00")%string)] ]}.

(** Two campaigns of one fault each, at the same instruction, with
    different outputs and, in [misaligned_runs], different hit counts. *)
Definition aligned_runs : filesystem :=
  {[ "outputs-93" :=
       [("trace.txt", File (trace_block "0x8000a4" "1" "5" "exit" "00"))];
     "outputs-6c" :=
       [("trace.txt", File (trace_block "0x8000a4" "1" "5" "exit" "ff"))] ]}.

Definition misaligned_runs : filesystem :=
  {[ "outputs-93" :=
       [("trace.txt", File (trace_block "0x8000a4" "1" "5" "exit" "00"))];
     "outputs-6c" :=
       [("trace.txt", File (trace_block "0x8000a4" "2" "5" "exit" "ff"))] ]}.

(** A campaign with a fault at instruction 1000000. *)
Definition long_run : filesystem :=
  {[ "outputs-93" :=
       [("trace.txt",
         File (trace_block "0x8000a4" "1" "1000000" "exit" "00"))];
     "outputs-6c" :=
       [("trace.txt", File (trace_block "0x8000a4" "1" "5" "exit" "ff"))] ]}.

Definition observation (address : string) (hit instruction : N)
    (output : string) : SimulationResult :=
  mkSimulationResult address hit instruction "exit" output.

(** [x] fits in 32 bytes. *)
Definition fits32 (x : Z) : Prop := 0 <= x < 2 ^ 256.

(** The 32 bytes of a candidate that fits. *)
Definition encode32 (cand : Z * byteorder) : bytes :=
  match snd cand with
  | Little => to_bytes_little 32 (fst cand)
  | Big => rev (to_bytes_little 32 (fst cand))
  end.

(** The mask that keeps the [bits_from_start] highest and the
    [bits_from_end] lowest of 256 bits, as the specification words it. *)
Definition retained_mask (bits_from_start bits_from_end : Z) : Z :=
  Z.lor (Z.shiftl (Z.ones bits_from_start) (256 - bits_from_start))
        (Z.ones bits_from_end).

(** Every value of the cache is the hexadecimal text of some bytes. *)
Definition valid_cache (key_result_dict : gmap string string) : Prop :=
  forall h v, key_result_dict !! h = Some v -> exists b, fromhex v = Ok b.

(** The addresses [a] are those of the output of the first of the pairs
    that has the faulted key [k] and an observed output. *)
Definition first_observed (results_sim : gmap string address_hits)
    (pairs : list (bytes * bytes)) (k : bytes) (a : address_hits) : Prop :=
  exists pre post pk,
    pairs = pre ++ (k, pk) :: post /\
    results_sim !! hex pk = Some a /\
    forall pk', In (k, pk') pre -> results_sim !! hex pk' = None.

(** A trace with one observation, of output [aa]; two keys that the
    generator yields for [untouched_key] (the key under the masks of its
    lowest and of its second lowest byte, clamped); a cache file that
    gives both the public key [aa]. *)
Definition one_observation : filesystem :=
  {[ "outputs" :=
       [("trace.txt", File (trace_block "0x8000a4" "1" "7" "exit" "aa"))] ]}.

Definition first_effective_key : bytes := replicate 31 x00 ++ [x43].

Definition second_effective_key : bytes := replicate 30 x00 ++ [x0a; x40].

Definition colliding_cache : gmap string string :=
  {[ hex first_effective_key := "aa"%string;
     hex second_effective_key := "aa"%string ]}.

(** How [check_key_shortening] ends after the run [g] of the generator,
    when [report] is what it prints. *)
Definition shortening_outcome (g : generation)
    (report : list (bytes * address_hits)) : outcome shortening_report :=
  match raised g with
  | Some e => Raise e
  | None => Ok (mkShorteningReport report (written g))
  end.

(** ** [check_known_outputs] (lines 184-206)

    [known_outputs_txt] is what [f.read().splitlines()] gives for
    known_outputs.txt, when the file exists; the file is opened before
    the traces are parsed.  The result is the dict [seen_known_outputs]
    that lines 203-206 print. *)

(** Lines 193-201, one observation. *)
Definition see_known_output (known_outputs : gset string)
    (seen_known_outputs : gmap string address_hits)
    (result_sim : SimulationResult) : gmap string address_hits :=
  if bool_decide (output result_sim ∈ known_outputs) then
    match seen_known_outputs !! output result_sim with
    | None =>
        <[output result_sim :=
            {[address result_sim := {[hit result_sim]}]}]>
          seen_known_outputs
    | Some addresses =>
        match addresses !! address result_sim with
        | Some _ =>
            alter (alter (fun hits : gset N => hits ∪ {[hit result_sim]})
                         (address result_sim))
                  (output result_sim) seen_known_outputs
        | None =>
            alter (fun addresses : address_hits =>
                     <[address result_sim := {[hit result_sim]}]> addresses)
                  (output result_sim) seen_known_outputs
        end
    end
  else seen_known_outputs.

Definition check_known_outputs (fs : filesystem)
    (known_outputs_txt : option (list string)) (output_dir : string) :
    outcome (gmap string address_hits) :=
  match known_outputs_txt with
  | None => Raise FileNotFoundError
  | Some lines =>
      let known_outputs : gset string := list_to_set lines in
      match parse_output fs output_dir with
      | Raise e => Raise e
      | Ok observations =>
          Ok (fold_left (see_known_output known_outputs) observations ∅)
      end
  end.

(** ** [check_predictable_outputs] (lines 209-211) *)

Definition check_predictable_outputs
    (get_public_key_bytes_from_private_bytes : bytes -> bytes)
    (fs : filesystem) (stored : option (gmap string string))
    (known_outputs_txt : option (list string)) (output_dir : string) :
    outcome (shortening_report * gmap string address_hits) :=
  match check_key_shortening get_public_key_bytes_from_private_bytes
                             fs stored output_dir with
  | Raise e => Raise e
  | Ok report =>
      match check_known_outputs fs known_outputs_txt output_dir with
      | Raise e => Raise e
      | Ok seen_known_outputs => Ok (report, seen_known_outputs)
      end
  end.

(** ** Further notions *)

(** The hit count [h] is recorded for the output [o] at the address [a]
    in a dict of outputs, addresses and hits. *)
Definition hit_recorded (results_sim : gmap string address_hits)
    (o a : string) (h : N) : Prop :=
  exists addresses, results_sim !! o = Some addresses /\ flagged addresses a h.

(** The contents of the readable files among [entries], in order. *)
Fixpoint file_contents (entries : list (string * node)) : string :=
  match entries with
  | [] => ""
  | (_, File content) :: entries' => content ++ file_contents entries'
  | (_, Unreadable _) :: entries' => file_contents entries'
  end.

(** The entry can be read. *)
Definition readable (entry : string * node) : bool :=
  match snd entry with
  | File _ => true
  | Unreadable _ => false
  end.

(** A field of a trace block: a string that is not empty and whose
    characters all satisfy [p]. *)
Definition field_of (p : ascii -> bool) (s : string) : bool :=
  negb (String.eqb s "") && forallb p (list_ascii_of_string s).

Definition not_newline (c : ascii) : bool := negb (Ascii.eqb c newline).

(** The value of the bits of a combination (lines 118-119). *)
Definition bits_value (bits : list Z) : Z :=
  fold_left (fun acc bit => Z.lor acc (Z.shiftl 1 bit)) bits 0.

(** The combinations of lines 113-116: those of fewer than 8 of the 8
    bits of a byte. *)
Definition proper_subsets : list (list Z) :=
  flat_map (fun num_bits => combinations (range 0 8) (Z.to_nat num_bits))
           (range 0 8).

(** A cache file whose entry for a key that the generator yields for
    [untouched_key] is not hexadecimal text. *)
Definition corrupt_cache : gmap string string :=
  {[ hex first_effective_key := "zz"%string ]}.

(** * Properties *)

(** ** The conversions between [int] and [bytes] *)

Lemma Z_of_byte_range b : 0 <= Z_of_byte b < 256.
Proof.
  unfold Z_of_byte. pose proof (Byte.to_N_bounded b). lia.
Qed.

Lemma land_255 z : Z.land z 255 = z mod 256.
Proof. change 255 with (Z.ones 8). rewrite Z.land_ones by lia. reflexivity. Qed.

Lemma shiftr_8 z : Z.shiftr z 8 = z / 256.
Proof. rewrite Z.shiftr_div_pow2 by lia. reflexivity. Qed.

Lemma Z_of_byte_of_Z z : Z_of_byte (byte_of_Z z) = z mod 256.
Proof.
  unfold Z_of_byte, byte_of_Z. rewrite land_255.
  assert (Hr : 0 <= z mod 256 < 256) by (apply Z.mod_pos_bound; lia).
  destruct (Byte.of_N (Z.to_N (z mod 256))) as [b|] eqn:E.
  - apply Byte.to_of_N in E. rewrite E. lia.
  - apply Byte.of_N_None_iff in E. lia.
Qed.

Lemma byte_of_Z_of_byte b : byte_of_Z (Z_of_byte b) = b.
Proof.
  unfold byte_of_Z. pose proof (Z_of_byte_range b) as Hr.
  rewrite land_255, Z.mod_small by lia. unfold Z_of_byte.
  rewrite N2Z.id, Byte.of_to_N. reflexivity.
Qed.

Lemma byte_of_Z_mod z : byte_of_Z (z mod 256) = byte_of_Z z.
Proof.
  unfold byte_of_Z. rewrite !land_255, Z.mod_mod by lia. reflexivity.
Qed.

Lemma pow2_8_succ (len : nat) :
  2 ^ (8 * Z.of_nat (S len)) = 256 * 2 ^ (8 * Z.of_nat len).
Proof.
  replace (8 * Z.of_nat (S len)) with (8 + 8 * Z.of_nat len) by lia.
  rewrite Z.pow_add_r by lia. reflexivity.
Qed.

Lemma from_bytes_little_range b :
  0 <= from_bytes_little b < 2 ^ (8 * Z.of_nat (length b)).
Proof.
  induction b as [|x b IH].
  - simpl. lia.
  - cbn [from_bytes_little length]. rewrite pow2_8_succ.
    pose proof (Z_of_byte_range x). lia.
Qed.

Lemma length_to_bytes_little len n : length (to_bytes_little len n) = len.
Proof. revert n. induction len; intros; simpl; auto. Qed.

Lemma from_to_bytes_little len n :
  0 <= n < 2 ^ (8 * Z.of_nat len) ->
  from_bytes_little (to_bytes_little len n) = n.
Proof.
  revert n. induction len as [|len IH]; intros n Hn.
  - simpl in *. lia.
  - cbn [to_bytes_little from_bytes_little].
    rewrite pow2_8_succ in Hn.
    rewrite Z_of_byte_of_Z, shiftr_8, IH.
    + pose proof (Z.div_mod n 256). lia.
    + split; [apply Z.div_pos; lia|].
      apply Z.div_lt_upper_bound; lia.
Qed.

Lemma to_from_bytes_little b :
  to_bytes_little (length b) (from_bytes_little b) = b.
Proof.
  induction b as [|x b IH]; [reflexivity|].
  cbn [length to_bytes_little from_bytes_little].
  pose proof (Z_of_byte_range x) as Hx.
  replace (Z_of_byte x + 256 * from_bytes_little b)
    with (Z_of_byte x + from_bytes_little b * 256) by lia.
  f_equal.
  - rewrite <- byte_of_Z_mod, Z.mod_add, Z.mod_small by lia.
    apply byte_of_Z_of_byte.
  - rewrite shiftr_8, Z.div_add, Z.div_small by lia. exact IH.
Qed.

(** The test of [to_bytes] is the range test. *)
Lemma fits_spec (len : nat) n :
  (0 <=? n) && (Z.shiftr n (8 * Z.of_nat len) =? 0) = true <->
  0 <= n < 2 ^ (8 * Z.of_nat len).
Proof.
  rewrite andb_true_iff, Z.leb_le, Z.eqb_eq.
  assert (0 < 2 ^ (8 * Z.of_nat len)) by (apply Z.pow_pos_nonneg; lia).
  split.
  - intros [H0 Hs]. split; [exact H0|].
    rewrite Z.shiftr_div_pow2 in Hs by lia.
    apply Z.div_small_iff in Hs; lia.
  - intros [H0 H1]. split; [exact H0|].
    rewrite Z.shiftr_div_pow2 by lia. apply Z.div_small. lia.
Qed.

Lemma to_bytes_Ok len order n b :
  to_bytes len order n = Ok b ->
  0 <= n < 2 ^ (8 * Z.of_nat len) /\
  b = match order with
      | Little => to_bytes_little len n
      | Big => rev (to_bytes_little len n)
      end.
Proof.
  unfold to_bytes.
  destruct ((0 <=? n) && (Z.shiftr n (8 * Z.of_nat len) =? 0)) eqn:E;
    intros Hb; inversion Hb; subst.
  split; [apply fits_spec; exact E | reflexivity].
Qed.

Lemma to_bytes_in_range len order n :
  0 <= n < 2 ^ (8 * Z.of_nat len) ->
  to_bytes len order n =
    Ok (match order with
        | Little => to_bytes_little len n
        | Big => rev (to_bytes_little len n)
        end).
Proof.
  intros Hn. apply fits_spec in Hn. unfold to_bytes. rewrite Hn. reflexivity.
Qed.

Lemma to_bytes_Raise len order n e :
  to_bytes len order n = Raise e ->
  e = OverflowError /\ ~ (0 <= n < 2 ^ (8 * Z.of_nat len)).
Proof.
  unfold to_bytes.
  destruct ((0 <=? n) && (Z.shiftr n (8 * Z.of_nat len) =? 0)) eqn:E;
    intros Hb; inversion Hb; subst.
  split; [reflexivity|]. intros Hn. apply fits_spec in Hn. congruence.
Qed.

(** ** [clamp] *)

Lemma testbit_1 k : Z.testbit 1 k = (k =? 0).
Proof.
  destruct (Z.eqb_spec k 0) as [->|Hk]; [reflexivity|].
  destruct (Z.lt_ge_cases k 0).
  - apply Z.testbit_neg_r; lia.
  - apply Z.bits_above_log2; simpl; lia.
Qed.

(** The clamped integer: bit 255 clear, bit 254 set, bits 0-2 clear, all
    other bits as in the argument. *)
Lemma clamp_int_testbit n i :
  0 <= i ->
  Z.testbit (clamp_int n) i =
    if (i =? 255) || (i <? 3) then false
    else if i =? 254 then true
    else Z.testbit n i.
Proof.
  intros Hi. unfold clamp_int.
  rewrite Z.land_spec, Z.lor_spec, Z.land_spec.
  rewrite !Z.lnot_spec by lia.
  rewrite !Z.shiftl_spec by lia.
  change 7 with (Z.ones 3).
  rewrite Z.testbit_ones by lia.
  rewrite !testbit_1.
  destruct (Z.eqb_spec i 255); destruct (Z.ltb_spec i 3);
    destruct (Z.eqb_spec i 254);
    destruct (Z.eqb_spec (i - 255) 0); destruct (Z.eqb_spec (i - 254) 0);
    destruct (Z.leb_spec 0 i);
    try lia; simpl;
    rewrite ?andb_true_r, ?andb_false_r, ?orb_false_r, ?orb_true_r;
    reflexivity.
Qed.

Lemma testbit_above n k i :
  0 <= n < 2 ^ k -> k <= i -> Z.testbit n i = false.
Proof.
  intros [Hn0 Hn] Hi.
  destruct (Z.eq_dec n 0) as [->|Hne]; [apply Z.bits_0|].
  assert (0 <= k).
  { destruct (Z.lt_ge_cases k 0) as [Hk|]; [|lia].
    rewrite Z.pow_neg_r in Hn by lia. lia. }
  apply Z.bits_above_log2; [lia|].
  apply Z.lt_le_trans with k; [|lia].
  apply Z.log2_lt_pow2; lia.
Qed.

Lemma clamp_int_idem n : clamp_int (clamp_int n) = clamp_int n.
Proof.
  apply Z.bits_inj'. intros i Hi.
  rewrite !clamp_int_testbit by lia.
  destruct ((i =? 255) || (i <? 3)); [reflexivity|].
  destruct (i =? 254); reflexivity.
Qed.

Lemma clamp_int_range n :
  0 <= n < 2 ^ 256 -> 2 ^ 254 <= clamp_int n < 2 ^ 255.
Proof.
  intros Hn.
  assert (Hmod : clamp_int n = clamp_int n mod 2 ^ 255).
  { apply Z.bits_inj'. intros i Hi.
    destruct (Z.lt_ge_cases i 255) as [Hlt|Hge].
    - rewrite Z.mod_pow2_bits_low by lia. reflexivity.
    - rewrite Z.mod_pow2_bits_high by lia.
      rewrite clamp_int_testbit by lia.
      destruct (Z.eqb_spec i 255); [reflexivity|].
      destruct (Z.ltb_spec i 3); [lia|].
      destruct (Z.eqb_spec i 254); [lia|]. simpl.
      apply testbit_above with 256; lia. }
  assert (Hlo : 0 <= clamp_int n < 2 ^ 255).
  { rewrite Hmod. apply Z.mod_pos_bound. lia. }
  split; [|lia].
  destruct (Z.lt_ge_cases (clamp_int n) (2 ^ 254)) as [Hlt|]; [|lia].
  exfalso.
  assert (Hb : Z.testbit (clamp_int n) 254 = false)
    by (apply testbit_above with 254; lia).
  rewrite clamp_int_testbit in Hb by lia. discriminate Hb.
Qed.

(** [clamp] succeeds on every key of at most 32 bytes. *)
Lemma clamp_short key :
  (length key <= 32)%nat ->
  clamp key = Ok (to_bytes_little 32 (clamp_int (from_bytes_little key))).
Proof.
  intros Hlen. unfold clamp. cbn [from_bytes].
  rewrite to_bytes_in_range; [reflexivity|].
  pose proof (from_bytes_little_range key) as Hr.
  assert (2 ^ (8 * Z.of_nat (length key)) <= 2 ^ 256)
    by (apply Z.pow_le_mono_r; lia).
  change (8 * Z.of_nat 32) with 256.
  pose proof (clamp_int_range (from_bytes_little key)). lia.
Qed.

(** Whatever [clamp] returns is a fixed point of [clamp], with bit 254
    set. *)
Lemma clamp_fixed key k :
  clamp key = Ok k ->
  clamp k = Ok k /\ length k = 32%nat /\
  Z.testbit (from_bytes Little k) 254 = true /\ from_bytes Little k <> 0.
Proof.
  unfold clamp. cbn [from_bytes]. intros E.
  apply to_bytes_Ok in E. destruct E as [Hr ->].
  rewrite from_to_bytes_little by exact Hr.
  rewrite clamp_int_idem.
  rewrite to_bytes_in_range by exact Hr.
  split; [reflexivity|]. split; [apply length_to_bytes_little|].
  assert (Hb : Z.testbit (clamp_int (from_bytes_little key)) 254 = true)
    by (rewrite clamp_int_testbit by lia; reflexivity).
  split; [exact Hb|].
  intros H0. rewrite H0, Z.bits_0 in Hb. discriminate Hb.
Qed.

(** ** [parse_output] *)

Lemma read_txt_files_txt_entries entries output :
  read_txt_files (txt_entries entries) output = read_txt_files entries output.
Proof.
  revert output. induction entries as [|[filename f] entries IH]; intros output.
  - reflexivity.
  - cbn [txt_entries List.filter fst read_txt_files].
    destruct (endswith filename ".txt") eqn:E.
    + cbn [read_txt_files]. rewrite E.
      destruct f; [apply IH | reflexivity].
    + apply IH.
Qed.

Lemma parse_text_empty : parse_text "" = [].
Proof. reflexivity. Qed.

Lemma read_no_txt_files entries output :
  txt_entries entries = [] -> read_txt_files entries output = Ok output.
Proof.
  intros H. rewrite <- read_txt_files_txt_entries, H. reflexivity.
Qed.

(** ** The safe-error detector *)

Lemma place_length results_sim ordered ordered' :
  place results_sim ordered = Ok ordered' -> length ordered' = length ordered.
Proof.
  revert ordered. induction results_sim as [|r rs IH]; intros ordered H.
  - injection H as <-. reflexivity.
  - cbn [place] in H.
    destruct (N.to_nat (instruction r) <? length ordered)%nat; [|discriminate].
    apply IH in H. rewrite H. apply length_insert.
Qed.

Lemma place_Raise results_sim ordered e :
  place results_sim ordered = Raise e ->
  e = IndexError /\
  exists r, r ∈ results_sim /\
            (length ordered <= N.to_nat (instruction r))%nat.
Proof.
  revert ordered. induction results_sim as [|r rs IH]; intros ordered H.
  - discriminate.
  - cbn [place] in H.
    destruct (Nat.ltb_spec (N.to_nat (instruction r)) (length ordered)).
    + apply IH in H. destruct H as [-> [r' [Hin Hle]]].
      split; [reflexivity|]. exists r'. split; [by right|].
      by rewrite length_insert in Hle.
    + injection H as <-. split; [reflexivity|]. exists r. split; [by left|lia].
Qed.

Lemma place_out_of_range results_sim ordered r :
  r ∈ results_sim ->
  (length ordered <= N.to_nat (instruction r))%nat ->
  place results_sim ordered = Raise IndexError.
Proof.
  revert ordered. induction results_sim as [|r' rs IH]; intros ordered Hin Hle.
  - by apply elem_of_nil in Hin.
  - cbn [place].
    destruct (Nat.ltb_spec (N.to_nat (instruction r')) (length ordered));
      [|reflexivity].
    apply elem_of_cons in Hin. destruct Hin as [->|Hin]; [lia|].
    apply IH; [exact Hin|]. by rewrite length_insert.
Qed.

(** What an array holds was put there by an observation of the trace
    with that instruction index. *)
Lemma place_lookup results_sim ordered ordered' i r :
  place results_sim ordered = Ok ordered' ->
  ordered' !! i = Some (Some r) ->
  ordered !! i = Some (Some r) \/
  (r ∈ results_sim /\ N.to_nat (instruction r) = i).
Proof.
  revert ordered. induction results_sim as [|r' rs IH]; intros ordered H Hi.
  - injection H as <-. by left.
  - cbn [place] in H.
    destruct (Nat.ltb_spec (N.to_nat (instruction r')) (length ordered));
      [|discriminate].
    destruct (IH _ H Hi) as [Hl|[Hin Heq]].
    + destruct (decide (N.to_nat (instruction r') = i)) as [<-|Hne].
      * rewrite list_lookup_insert_eq in Hl by done.
        injection Hl as ->. right. split; [by left|reflexivity].
      * rewrite list_lookup_insert_ne in Hl by done. by left.
    + right. split; [by right|exact Heq].
Qed.

Lemma flagged_flag prone r a h :
  flagged (flag prone r) a h <->
  flagged prone a h \/ (a = address r /\ h = hit r).
Proof.
  unfold flagged, flag.
  destruct (decide (a = address r)) as [->|Hne].
  - rewrite lookup_alter_eq.
    destruct (prone !! address r) as [hits|] eqn:E.
    + rewrite E. cbn. split.
      * intros [hits' [[= <-] Hin]]. apply elem_of_union in Hin.
        destruct Hin as [Hin|Hin]; [left; eauto|].
        apply elem_of_singleton in Hin. by right.
      * intros [[hits' [[= <-] Hin]]|[_ ->]];
          (eexists; split; [reflexivity|]); set_solver.
    + rewrite lookup_insert_eq. cbn. split.
      * intros [hits' [[= <-] Hin]]. right. split; [done|].
        apply elem_of_union in Hin. destruct Hin as [Hin|Hin].
        -- by apply not_elem_of_empty in Hin.
        -- by apply elem_of_singleton in Hin.
      * intros [[hits' [[=] _]]|[_ ->]].
        eexists; split; [reflexivity|]. set_solver.
  - rewrite lookup_alter_ne by done.
    assert (Hsame : (match prone !! address r with
                     | Some _ => prone
                     | None => <[address r:=∅]> prone
                     end) !! a = prone !! a).
    { destruct (prone !! address r); [done|]. by rewrite lookup_insert_ne. }
    rewrite Hsame. split; [by left|]. intros [H|[-> _]]; done.
Qed.

Lemma string_eqb_false_iff (s1 s2 : string) :
  negb (String.eqb s1 s2) = true <-> s1 <> s2.
Proof.
  destruct (String.eqb_spec s1 s2); cbn; split; intros; congruence.
Qed.

Lemma N_eqb_false_iff (n m : N) : negb (N.eqb n m) = true <-> n <> m.
Proof.
  destruct (N.eqb_spec n m); cbn; split; intros; congruence.
Qed.

(** The three assertions of lines 240-242 fail together exactly when the
    observations differ. *)
Lemma differ_dec r1 r2 :
  differ r1 r2 <->
  negb (String.eqb (address r1) (address r2)) = true \/
  negb (N.eqb (hit r1) (hit r2)) = true \/
  negb (N.eqb (instruction r1) (instruction r2)) = true.
Proof.
  unfold differ. rewrite string_eqb_false_iff, !N_eqb_false_iff. reflexivity.
Qed.

Lemma compare_runs_Raise c1 c2 pairs prone e :
  compare_runs c1 c2 pairs prone = Raise e ->
  e = AssertionError /\
  exists r1 r2, (Some r1, Some r2) ∈ pairs /\ differ r1 r2.
Proof.
  revert prone.
  induction pairs as [|[[r1|] [r2|]] pairs IH]; intros prone H;
    cbn [compare_runs] in H; try discriminate.
  2-4: (apply IH in H; destruct H as [-> [r1' [r2' [Hin Hd]]]];
        split; [reflexivity|]; exists r1', r2'; split; [by right|done]).
  destruct (negb (String.eqb (address r1) (address r2))) eqn:Ea;
    [|destruct (negb (N.eqb (hit r1) (hit r2))) eqn:Eh;
      [|destruct (negb (N.eqb (instruction r1) (instruction r2))) eqn:Ei]].
  1-3: (injection H as <-; split; [reflexivity|]; exists r1, r2;
        split; [by left|]; apply differ_dec; auto).
  apply IH in H. destruct H as [-> [r1' [r2' [Hin Hd]]]].
  split; [reflexivity|]. exists r1', r2'. split; [by right|done].
Qed.

Lemma compare_runs_differ c1 c2 pairs prone r1 r2 :
  (Some r1, Some r2) ∈ pairs -> differ r1 r2 ->
  compare_runs c1 c2 pairs prone = Raise AssertionError.
Proof.
  revert prone.
  induction pairs as [|[[r1'|] [r2'|]] pairs IH]; intros prone Hin Hd.
  - by apply elem_of_nil in Hin.
  - cbn [compare_runs].
    destruct (negb (String.eqb (address r1') (address r2'))) eqn:Ea;
      [reflexivity|].
    destruct (negb (N.eqb (hit r1') (hit r2'))) eqn:Eh; [reflexivity|].
    destruct (negb (N.eqb (instruction r1') (instruction r2'))) eqn:Ei;
      [reflexivity|].
    apply elem_of_cons in Hin. destruct Hin as [[= -> ->]|Hin].
    + apply differ_dec in Hd. rewrite Ea, Eh, Ei in Hd.
      destruct Hd as [|[|]]; discriminate.
    + by apply IH.
  - cbn [compare_runs]. apply elem_of_cons in Hin.
    destruct Hin as [[=]|Hin]. by apply IH.
  - cbn [compare_runs]. apply elem_of_cons in Hin.
    destruct Hin as [[=]|Hin]. by apply IH.
  - cbn [compare_runs]. apply elem_of_cons in Hin.
    destruct Hin as [[=]|Hin]. by apply IH.
Qed.

Lemma compare_runs_Ok c1 c2 pairs prone prone' :
  compare_runs c1 c2 pairs prone = Ok prone' ->
  forall a h,
    flagged prone' a h <->
    flagged prone a h \/
    exists r1 r2, (Some r1, Some r2) ∈ pairs /\
                  address r1 = a /\ hit r1 = h /\
                  one_correct c1 c2 r1 r2 = true.
Proof.
  revert prone.
  induction pairs as [|[[r1|] [r2|]] pairs IH]; intros prone H a h;
    cbn [compare_runs] in H.
  - injection H as <-. split; [by left|].
    intros [Hf|[r1 [r2 [Hin _]]]]; [done|]. by apply elem_of_nil in Hin.
  - destruct (negb (String.eqb (address r1) (address r2))); [discriminate|].
    destruct (negb (N.eqb (hit r1) (hit r2))); [discriminate|].
    destruct (negb (N.eqb (instruction r1) (instruction r2)));
      [discriminate|].
    rewrite (IH _ H a h). fold (one_correct c1 c2 r1 r2).
    destruct (one_correct c1 c2 r1 r2) eqn:E.
    + rewrite flagged_flag. split.
      * intros [[Hf|[-> ->]]|[r1' [r2' [Hin Hrest]]]].
        -- by left.
        -- right. exists r1, r2. split; [by left|done].
        -- right. exists r1', r2'. split; [by right|done].
      * intros [Hf|[r1' [r2' [Hin [Ha [Hh Hx]]]]]]; [by left; left|].
        apply elem_of_cons in Hin. destruct Hin as [[= -> ->]|Hin].
        -- left. right. done.
        -- right. exists r1', r2'. done.
    + split.
      * intros [Hf|[r1' [r2' [Hin Hrest]]]]; [by left|].
        right. exists r1', r2'. split; [by right|done].
      * intros [Hf|[r1' [r2' [Hin [Ha [Hh Hx]]]]]]; [by left|].
        apply elem_of_cons in Hin. destruct Hin as [[= -> ->]|Hin].
        -- congruence.
        -- right. exists r1', r2'. done.
  - rewrite (IH _ H a h). split.
    + intros [Hf|[r1' [r2' [Hin Hrest]]]]; [by left|].
      right. exists r1', r2'. split; [by right|done].
    + intros [Hf|[r1' [r2' [Hin Hrest]]]]; [by left|].
      apply elem_of_cons in Hin. destruct Hin as [[=]|Hin].
      right. exists r1', r2'. done.
  - rewrite (IH _ H a h). split.
    + intros [Hf|[r1' [r2' [Hin Hrest]]]]; [by left|].
      right. exists r1', r2'. split; [by right|done].
    + intros [Hf|[r1' [r2' [Hin Hrest]]]]; [by left|].
      apply elem_of_cons in Hin. destruct Hin as [[=]|Hin].
      right. exists r1', r2'. done.
  - rewrite (IH _ H a h). split.
    + intros [Hf|[r1' [r2' [Hin Hrest]]]]; [by left|].
      right. exists r1', r2'. split; [by right|done].
    + intros [Hf|[r1' [r2' [Hin Hrest]]]]; [by left|].
      apply elem_of_cons in Hin. destruct Hin as [[=]|Hin].
      right. exists r1', r2'. done.
Qed.

Lemma elem_of_zip_lookup {A B} (l : list A) (k : list B) x y :
  (x, y) ∈ zip l k <-> exists i, l !! i = Some x /\ k !! i = Some y.
Proof.
  rewrite elem_of_lookup_zip_with. split.
  - intros [i [x' [y' [[= -> ->] [Hl Hk]]]]]. eauto.
  - intros [i [Hl Hk]]. exists i, x, y. done.
Qed.

Lemma not_flagged_empty a h : ~ flagged ∅ a h.
Proof. intros [hits [H _]]. by rewrite lookup_empty in H. Qed.

Lemma observation_at_Some results_sim i r :
  observation_at results_sim i = Some r <->
  exists ordered,
    place results_sim (replicate capacity None) = Ok ordered /\
    ordered !! i = Some (Some r).
Proof.
  unfold observation_at.
  destruct (place results_sim (replicate capacity None)) as [ordered|e].
  - split.
    + intros H. exists ordered. split; [reflexivity|].
      destruct (ordered !! i) as [[r'|]|]; cbn in H; congruence.
    + intros [ordered' [[= <-] H]]. rewrite H. reflexivity.
  - split; [discriminate|]. intros [ordered [[=] _]].
Qed.

(** An aligned pair is made of one observation of each trace, both with
    the instruction index of their position. *)
Lemma aligned_same_instruction results_sim_1 results_sim_2 r1 r2 :
  aligned results_sim_1 results_sim_2 r1 r2 ->
  r1 ∈ results_sim_1 /\ r2 ∈ results_sim_2 /\
  instruction r1 = instruction r2.
Proof.
  intros [i [H1 H2]].
  apply observation_at_Some in H1, H2.
  destruct H1 as [o1 [Hp1 Hl1]], H2 as [o2 [Hp2 Hl2]].
  destruct (place_lookup _ _ _ _ _ Hp1 Hl1) as [Hn|[Hin1 Hi1]].
  { apply lookup_replicate in Hn. destruct Hn as [[=] _]. }
  destruct (place_lookup _ _ _ _ _ Hp2 Hl2) as [Hn|[Hin2 Hi2]].
  { apply lookup_replicate in Hn. destruct Hn as [[=] _]. }
  split; [done|]. split; [done|]. lia.
Qed.

Lemma capacity_eq : capacity = Z.to_nat 1000000.
Proof. reflexivity. Qed.

Section SafeError.

Variable derive : bytes -> bytes.

Lemma safe_error_Raise_Assertion results_sim_1 results_sim_2 :
  safe_error_of_traces derive results_sim_1 results_sim_2
    = Raise AssertionError <->
  exists r1 r2, aligned results_sim_1 results_sim_2 r1 r2 /\ differ r1 r2.
Proof.
  unfold safe_error_of_traces. split.
  - intros H.
    destruct (place results_sim_1 (replicate capacity None))
      as [o1|e1] eqn:E1.
    2: { apply place_Raise in E1. destruct E1 as [-> _]. discriminate H. }
    destruct (place results_sim_2 (replicate capacity None))
      as [o2|e2] eqn:E2.
    2: { apply place_Raise in E2. destruct E2 as [-> _]. discriminate H. }
    apply compare_runs_Raise in H. destruct H as [_ [r1 [r2 [Hin Hd]]]].
    apply elem_of_zip_lookup in Hin. destruct Hin as [i [Hl1 Hl2]].
    exists r1, r2. split; [|exact Hd]. exists i.
    split; apply observation_at_Some; eauto.
  - intros [r1 [r2 [[i [H1 H2]] Hd]]].
    apply observation_at_Some in H1, H2.
    destruct H1 as [o1 [-> Hl1]], H2 as [o2 [-> Hl2]].
    apply compare_runs_differ with r1 r2; [|exact Hd].
    apply elem_of_zip_lookup. eauto.
Qed.

Lemma safe_error_Ok results_sim_1 results_sim_2 prone :
  safe_error_of_traces derive results_sim_1 results_sim_2 = Ok prone ->
  forall a h,
    flagged prone a h <->
    exists r1 r2,
      aligned results_sim_1 results_sim_2 r1 r2 /\
      address r1 = a /\ hit r1 = h /\
      one_correct (derive (replicate 32 x93)) (derive (replicate 32 x6c))
                  r1 r2 = true.
Proof.
  unfold safe_error_of_traces. intros H a h.
  destruct (place results_sim_1 (replicate capacity None))
    as [o1|e1] eqn:E1; [|discriminate].
  destruct (place results_sim_2 (replicate capacity None))
    as [o2|e2] eqn:E2; [|discriminate].
  rewrite (compare_runs_Ok _ _ _ _ _ H a h). split.
  - intros [Hf|[r1 [r2 [Hin Hrest]]]]; [by apply not_flagged_empty in Hf|].
    apply elem_of_zip_lookup in Hin. destruct Hin as [i [Hl1 Hl2]].
    exists r1, r2. split; [|exact Hrest]. exists i.
    split; apply observation_at_Some; eauto.
  - intros [r1 [r2 [[i [H1 H2]] Hrest]]]. right.
    apply observation_at_Some in H1, H2.
    destruct H1 as [o1' [Hp1 Hl1]], H2 as [o2' [Hp2 Hl2]].
    rewrite E1 in Hp1. rewrite E2 in Hp2.
    injection Hp1 as <-. injection Hp2 as <-.
    exists r1, r2. split; [|exact Hrest].
    apply elem_of_zip_lookup. eauto.
Qed.

Lemma safe_error_out_of_range results_sim_1 results_sim_2 r :
  r ∈ results_sim_1 ++ results_sim_2 ->
  (1000000 <= instruction r)%N ->
  safe_error_of_traces derive results_sim_1 results_sim_2 = Raise IndexError.
Proof.
  intros Hin Hge. unfold safe_error_of_traces.
  assert (Hlen : (length (replicate capacity (@None SimulationResult))
                  <= N.to_nat (instruction r))%nat).
  { rewrite length_replicate, capacity_eq. lia. }
  apply elem_of_app in Hin. destruct Hin as [Hin|Hin].
  - rewrite (place_out_of_range _ _ r Hin Hlen). reflexivity.
  - destruct (place results_sim_1 (replicate capacity None))
      as [o1|e1] eqn:E1.
    + rewrite (place_out_of_range _ _ r Hin Hlen). reflexivity.
    + apply place_Raise in E1. destruct E1 as [-> _]. reflexivity.
Qed.

End SafeError.

(** ** Ranges of the candidates of [generate_faulted_keys] *)

Lemma In_range lo hi x : In x (range lo hi) <-> lo <= x < hi.
Proof.
  unfold range. rewrite <- list_elem_of_In, elem_of_seqZ. lia.
Qed.

Lemma shiftl_1_pred k : Z.shiftl 1 k - 1 = Z.ones k.
Proof. rewrite Z.ones_equiv, Z.shiftl_1_l. lia. Qed.

Lemma bits_range n x :
  0 <= n -> 0 <= x -> (forall i, n <= i -> Z.testbit x i = false) ->
  0 <= x < 2 ^ n.
Proof.
  intros Hn Hx Hbits.
  assert (Hmod : x = x mod 2 ^ n).
  { apply Z.bits_inj'. intros i Hi.
    destruct (Z.lt_ge_cases i n).
    - rewrite Z.mod_pow2_bits_low by lia. reflexivity.
    - rewrite Z.mod_pow2_bits_high by lia. apply Hbits. lia. }
  rewrite Hmod. apply Z.mod_pos_bound. apply Z.pow_pos_nonneg; lia.
Qed.

Lemma fits32_bits x :
  0 <= x -> (forall i, 256 <= i -> Z.testbit x i = false) -> fits32 x.
Proof. intros. apply bits_range; auto with zarith. Qed.

Lemma fits32_testbit x i : fits32 x -> 256 <= i -> Z.testbit x i = false.
Proof. intros Hx Hi. apply testbit_above with 256; assumption. Qed.

Lemma fits32_lor a b : fits32 a -> fits32 b -> fits32 (Z.lor a b).
Proof.
  intros Ha Hb. apply fits32_bits.
  - apply Z.lor_nonneg. unfold fits32 in *. lia.
  - intros i Hi. rewrite Z.lor_spec, !fits32_testbit by assumption.
    reflexivity.
Qed.

Lemma fits32_ones k : 0 <= k <= 256 -> fits32 (Z.ones k).
Proof.
  intros Hk. unfold fits32. rewrite Z.ones_equiv.
  assert (0 < 2 ^ k) by (apply Z.pow_pos_nonneg; lia).
  assert (2 ^ k <= 2 ^ 256) by (apply Z.pow_le_mono_r; lia).
  lia.
Qed.

Lemma start_of_mask_testbit s i :
  0 <= s <= 256 -> 0 <= i ->
  Z.testbit (start_of_mask s) i = (256 - s <=? i) && (i <? 256).
Proof.
  intros Hs Hi. unfold start_of_mask.
  rewrite !shiftl_1_pred, Z.lxor_spec, !Z.testbit_ones_nonneg by lia.
  destruct (Z.ltb_spec i 256), (Z.ltb_spec i (256 - s)),
    (Z.leb_spec (256 - s) i); simpl; lia || reflexivity.
Qed.

Lemma start_of_mask_nonneg s : 0 <= s <= 256 -> 0 <= start_of_mask s.
Proof.
  intros Hs. unfold start_of_mask. rewrite !shiftl_1_pred.
  apply Z.lxor_nonneg.
  pose proof (fits32_ones 256 ltac:(lia)) as H1.
  pose proof (fits32_ones (256 - s) ltac:(lia)) as H2.
  unfold fits32 in *. lia.
Qed.

Lemma fits32_start_of_mask s : 0 <= s <= 256 -> fits32 (start_of_mask s).
Proof.
  intros Hs. apply fits32_bits; [by apply start_of_mask_nonneg|].
  intros i Hi. rewrite start_of_mask_testbit by lia.
  destruct (Z.ltb_spec i 256); [lia|]. apply andb_false_r.
Qed.

Lemma fits32_end_of_mask e : 0 <= e <= 256 -> fits32 (end_of_mask e).
Proof. intros He. unfold end_of_mask. rewrite shiftl_1_pred. by apply fits32_ones. Qed.

(** The mask of lines 80-82 is the mask of the specification. *)
Lemma mask_testbit s e i :
  0 <= s <= 256 -> 0 <= e -> 0 <= i ->
  Z.testbit (Z.lor (start_of_mask s) (end_of_mask e)) i =
    ((256 - s <=? i) && (i <? 256)) || (i <? e).
Proof.
  intros Hs He Hi. unfold end_of_mask.
  rewrite Z.lor_spec, start_of_mask_testbit, shiftl_1_pred,
    Z.testbit_ones_nonneg by lia.
  reflexivity.
Qed.

Lemma retained_mask_testbit s e i :
  0 <= s <= 256 -> 0 <= e -> 0 <= i ->
  Z.testbit (retained_mask s e) i =
    ((256 - s <=? i) && (i <? 256)) || (i <? e).
Proof.
  intros Hs He Hi. unfold retained_mask.
  rewrite Z.lor_spec, Z.shiftl_spec, !Z.testbit_ones by lia.
  destruct (Z.leb_spec 0 (i - (256 - s))), (Z.ltb_spec (i - (256 - s)) s),
    (Z.leb_spec (256 - s) i), (Z.ltb_spec i 256), (Z.leb_spec 0 i),
    (Z.ltb_spec i e); simpl; lia || reflexivity.
Qed.

Lemma retained_mask_eq s e :
  0 <= s <= 256 -> 0 <= e ->
  Z.lor (start_of_mask s) (end_of_mask e) = retained_mask s e.
Proof.
  intros Hs He. apply Z.bits_inj'. intros i Hi.
  rewrite mask_testbit, retained_mask_testbit by lia. reflexivity.
Qed.

Lemma In_start_end_masks c :
  In c start_end_masks <->
  exists s e, 0 <= s /\ 0 <= e /\ 1 <= s + e <= 255 /\
              fst c = Z.lor (start_of_mask s) (end_of_mask e).
Proof.
  unfold start_end_masks. rewrite in_flat_map. split.
  - intros [s [Hs Hc]]. apply In_range in Hs.
    apply in_flat_map in Hc. destruct Hc as [e [He Hc]].
    apply In_range in He.
    destruct (Z.eqb_spec (s + e) 0); [destruct Hc|].
    exists s, e. repeat split; try lia.
    destruct Hc as [<-|[<-|[]]]; reflexivity.
  - intros [s [e [Hs [He [Hse Hc]]]]].
    exists s. split; [apply In_range; lia|].
    apply in_flat_map. exists e. split; [apply In_range; lia|].
    destruct (Z.eqb_spec (s + e) 0); [lia|].
    destruct c as [m []]; simpl in Hc; subst m; simpl; auto.
Qed.

Lemma to_bytes_fits endian x :
  fits32 x -> to_bytes 32 endian x = Ok (encode32 (x, endian)).
Proof.
  intros Hx. rewrite to_bytes_in_range by exact Hx.
  destruct endian; reflexivity.
Qed.

Lemma length_encode32 cand : length (encode32 cand) = 32%nat.
Proof.
  unfold encode32. destruct (snd cand);
    rewrite ?length_rev; apply length_to_bytes_little.
Qed.

Lemma emit_fits cands :
  Forall (fun c => fits32 (fst c)) cands ->
  emit cands = (map encode32 cands, None).
Proof.
  induction 1 as [|[x endian] cands Hx _ IH]; [reflexivity|].
  cbn [emit map]. rewrite to_bytes_fits by exact Hx. rewrite IH. reflexivity.
Qed.

(** Whatever [emit] yields is the encoding of a candidate. *)
Lemma emit_yields cands b :
  In b (fst (emit cands)) -> exists c, In c cands /\ b = encode32 c.
Proof.
  induction cands as [|[x endian] cands IH]; [intros []|].
  cbn [emit]. destruct (to_bytes 32 endian x) as [b'|e] eqn:E; [|intros []].
  destruct (emit cands) as [ys e']. cbn [fst] in *.
  intros [<-|Hin].
  - exists (x, endian). split; [by left|].
    apply to_bytes_Ok in E. destruct E as [_ ->]. reflexivity.
  - destruct (IH Hin) as [c [Hc ->]]. exists c. split; [by right|reflexivity].
Qed.

Lemma to_bytes_all_fits cands :
  Forall (fun c => fits32 (fst c)) cands ->
  to_bytes_all cands = Ok (map encode32 cands).
Proof. intros H. unfold to_bytes_all. rewrite emit_fits by exact H. reflexivity. Qed.

Lemma fits32_block_masks : Forall (fun c => fits32 (fst c)) block_masks.
Proof.
  apply List.Forall_forall. intros c Hc.
  assert (H : forallb (fun c => (0 <=? fst c) && (fst c <? 2 ^ 256))
                      block_masks = true) by (vm_compute; reflexivity).
  rewrite forallb_forall in H. specialize (H c Hc).
  apply andb_true_iff in H. unfold fits32. lia.
Qed.

Lemma fits32_start_end_masks : Forall (fun c => fits32 (fst c)) start_end_masks.
Proof.
  apply List.Forall_forall. intros c Hc.
  apply In_start_end_masks in Hc.
  destruct Hc as [s [e [Hs [He [Hse ->]]]]].
  apply fits32_lor; [apply fits32_start_of_mask | apply fits32_end_of_mask];
    lia.
Qed.

Lemma fault_masks_Ok :
  fault_masks = Ok (map encode32 (block_masks ++ start_end_masks)).
Proof.
  unfold fault_masks. apply to_bytes_all_fits.
  apply Forall_app. split;
    [apply fits32_block_masks | apply fits32_start_end_masks].
Qed.

Lemma fits32_from_bytes endian key :
  (length key <= 32)%nat -> fits32 (from_bytes endian key).
Proof.
  intros Hlen.
  assert (H : forall b : bytes, (length b <= 32)%nat ->
                                fits32 (from_bytes_little b)).
  { intros b Hb. pose proof (from_bytes_little_range b) as Hr.
    assert (2 ^ (8 * Z.of_nat (length b)) <= 2 ^ 256)
      by (apply Z.pow_le_mono_r; lia).
    unfold fits32. lia. }
  destruct endian; cbn [from_bytes]; apply H; [|exact Hlen].
  by rewrite length_rev.
Qed.

Lemma fits32_shiftr x k : fits32 x -> 0 <= k -> fits32 (Z.shiftr x k).
Proof.
  intros Hx Hk. apply fits32_bits.
  - apply Z.shiftr_nonneg. unfold fits32 in Hx. lia.
  - intros i Hi. rewrite Z.shiftr_spec by lia.
    apply fits32_testbit; [exact Hx | lia].
Qed.

Lemma fits32_land_ones x : fits32 (Z.land x (Z.ones 256)).
Proof.
  rewrite Z.land_ones by lia. unfold fits32.
  apply Z.mod_pos_bound. lia.
Qed.

Lemma fits32_shiftl_ones b :
  0 <= b <= 256 -> fits32 (Z.shiftl (Z.ones b) (256 - b)).
Proof.
  intros Hb. apply fits32_bits.
  - apply Z.shiftl_nonneg. pose proof (fits32_ones b Hb) as H.
    unfold fits32 in H. lia.
  - intros i Hi. rewrite Z.shiftl_spec by lia.
    apply Z.ones_spec_high. lia.
Qed.

Lemma fits32_shifted_keys key :
  (length key <= 32)%nat ->
  Forall (fun c => fits32 (fst c)) (shifted_keys key).
Proof.
  intros Hlen. apply List.Forall_forall. intros c Hc.
  unfold shifted_keys in Hc. apply in_flat_map in Hc.
  destruct Hc as [b [Hb Hc]]. apply In_range in Hb.
  apply in_flat_map in Hc. destruct Hc as [endian [_ Hc]].
  pose proof (fits32_from_bytes endian key Hlen) as Hn.
  rewrite !shiftl_1_pred in Hc.
  assert (Hl0 : fits32 (Z.land (Z.shiftl (from_bytes endian key) b)
                               (Z.ones 256))) by apply fits32_land_ones.
  assert (Hr0 : fits32 (Z.shiftr (from_bytes endian key) b))
    by (apply fits32_shiftr; [exact Hn | lia]).
  destruct Hc as [<-|[<-|[<-|[<-|[]]]]]; cbn [fst].
  - exact Hl0.
  - exact Hr0.
  - apply fits32_lor; [exact Hl0 | apply fits32_ones; lia].
  - apply fits32_lor; [exact Hr0 | apply fits32_shiftl_ones; lia].
Qed.

Lemma fits32_small_keys : Forall (fun c => fits32 (fst c)) small_keys.
Proof.
  apply List.Forall_forall. intros c Hc.
  unfold small_keys in Hc. apply in_flat_map in Hc.
  destruct Hc as [i [Hi Hc]]. apply In_range in Hi.
  change (Z.shiftl 1 8) with 256 in Hi.
  destruct Hc as [<-|[<-|[]]]; cbn [fst]; unfold fits32; lia.
Qed.

Lemma combinations_In {A} (l : list A) k c x :
  In c (combinations l k) -> In x c -> In x l.
Proof.
  revert k c. induction l as [|y l IH]; intros [|k] c Hc Hx;
    cbn [combinations] in Hc.
  - destruct Hc as [<-|[]]. destruct Hx.
  - destruct Hc.
  - destruct Hc as [<-|[]]. destruct Hx.
  - apply in_app_iff in Hc. destruct Hc as [Hc|Hc].
    + apply in_map_iff in Hc. destruct Hc as [c' [<- Hc']].
      destruct Hx as [<-|Hx]; [by left|]. right. by apply (IH k c').
    + right. by apply (IH (S k) c).
Qed.

Lemma fits32_shiftl_1 k : 0 <= k < 256 -> fits32 (Z.shiftl 1 k).
Proof.
  intros Hk. rewrite Z.shiftl_1_l. unfold fits32.
  assert (0 < 2 ^ k) by (apply Z.pow_pos_nonneg; lia).
  assert (2 ^ k < 2 ^ 256) by (apply Z.pow_lt_mono_r; lia).
  lia.
Qed.

Lemma fits32_fold_bits (f : Z -> Z) bits acc :
  fits32 acc -> (forall bit, In bit bits -> 0 <= f bit < 256) ->
  fits32 (fold_left (fun acc bit => Z.lor acc (Z.shiftl 1 (f bit))) bits acc).
Proof.
  revert acc. induction bits as [|bit bits IH]; intros acc Hacc Hbits;
    [exact Hacc|].
  cbn [fold_left]. apply IH.
  - apply fits32_lor; [exact Hacc|]. apply fits32_shiftl_1, Hbits. by left.
  - intros bit' Hin. apply Hbits. by right.
Qed.

Lemma fits32_corner_keys : Forall (fun c => fits32 (fst c)) corner_keys.
Proof.
  apply List.Forall_forall. intros c Hc.
  unfold corner_keys in Hc. apply in_flat_map in Hc.
  destruct Hc as [un [_ Hc]]. apply in_flat_map in Hc.
  destruct Hc as [upper_bits [Hu Hc]]. apply in_flat_map in Hc.
  destruct Hc as [ln [_ Hc]]. apply in_map_iff in Hc.
  destruct Hc as [lower_bits [<- Hl]]. cbn [fst].
  apply (fits32_fold_bits (fun bit => bit + 248)).
  - apply (fits32_fold_bits (fun bit => bit)).
    + unfold fits32. lia.
    + intros bit Hbit. pose proof (combinations_In _ _ _ _ Hu Hbit) as Hr.
      apply In_range in Hr. lia.
  - intros bit Hbit. pose proof (combinations_In _ _ _ _ Hl Hbit) as Hr.
    apply In_range in Hr. lia.
Qed.

(** ** The generated keys *)

Lemma generate_faulted_keys_eq key :
  generate_faulted_keys key =
    yield_first
      (map (and_bytes key) (map encode32 (block_masks ++ start_end_masks)))
      (emit (shifted_keys key ++ small_keys ++ corner_keys)).
Proof. unfold generate_faulted_keys. rewrite fault_masks_Ok. reflexivity. Qed.

(** On a key of at most 32 bytes the generator ends without raising. *)
Lemma generate_faulted_keys_short key :
  (length key <= 32)%nat ->
  generate_faulted_keys key =
    (map (and_bytes key) (map encode32 (block_masks ++ start_end_masks)) ++
     map encode32 (shifted_keys key ++ small_keys ++ corner_keys), None).
Proof.
  intros Hlen. rewrite generate_faulted_keys_eq, emit_fits; [reflexivity|].
  apply Forall_app. split; [by apply fits32_shifted_keys|].
  apply Forall_app. split; [apply fits32_small_keys | apply fits32_corner_keys].
Qed.

Lemma length_and_bytes key mask :
  length (and_bytes key mask) = Nat.min (length key) (length mask).
Proof. unfold and_bytes. apply length_zip_with. Qed.

(** Every generated key has at most 32 bytes, whatever the key. *)
Lemma generated_keys_short key k :
  In k (fst (generate_faulted_keys key)) -> (length k <= 32)%nat.
Proof.
  rewrite generate_faulted_keys_eq. unfold yield_first. cbn [fst].
  rewrite in_app_iff. intros [Hk|Hk].
  - apply in_map_iff in Hk. destruct Hk as [m [<- Hm]].
    apply in_map_iff in Hm. destruct Hm as [c [<- _]].
    rewrite length_and_bytes, length_encode32. lia.
  - apply emit_yields in Hk. destruct Hk as [c [_ ->]].
    rewrite length_encode32. lia.
Qed.

(** ** [bytes.hex] and [bytes.fromhex] *)

Lemma fromhex_hex_byte b rest :
  fromhex_list (hex_byte b ++ rest) =
    match fromhex_list rest with
    | Ok bs => Ok (b :: bs)
    | Raise e => Raise e
    end.
Proof. destruct b; reflexivity. Qed.

Lemma fromhex_hex b : fromhex (hex b) = Ok b.
Proof.
  unfold fromhex, hex. rewrite list_ascii_of_string_of_list_ascii.
  induction b as [|x b IH]; [reflexivity|].
  cbn [flat_map]. rewrite fromhex_hex_byte, IH. reflexivity.
Qed.

Lemma hex_inj b1 b2 : hex b1 = hex b2 -> b1 = b2.
Proof.
  intros H. assert (H' : fromhex (hex b1) = fromhex (hex b2)) by (by rewrite H).
  rewrite !fromhex_hex in H'. by injection H'.
Qed.

(** ** The loop of [generate_faulted_results] *)

Section Loop.

Variable derive : bytes -> bytes.

(** The four cases of one iteration. *)
Ltac loop_step faulted_key d :=
  cbn [faulted_results_loop];
  destruct (clamp faulted_key) as [clamped|?] eqn:Eclamp;
    [destruct (d !! hex clamped) as [in_cache|] eqn:Ecached;
       [destruct (fromhex in_cache) as [public|?] eqn:Ehex|]|];
  cbn [loop_yielded loop_invoked loop_dict loop_raised].

Lemma loop_yielded_clamped keys d :
  Forall (fun pair => exists faulted_key, clamp faulted_key = Ok (fst pair))
         (loop_yielded (faulted_results_loop derive keys d)).
Proof.
  revert d. induction keys as [|faulted_key keys IH]; intros d.
  - constructor.
  - loop_step faulted_key d; try constructor; cbn [fst]; eauto.
Qed.

(** A key whose hex is in the dict is never passed to the primitive. *)
Lemma loop_cached_not_invoked keys d clamped_key :
  is_Some (d !! hex clamped_key) ->
  ~ In clamped_key (loop_invoked (faulted_results_loop derive keys d)).
Proof.
  revert d. induction keys as [|faulted_key keys IH]; intros d Hd.
  - intros [].
  - loop_step faulted_key d.
    + by apply IH.
    + intros [].
    + intros [->|Hin].
      * rewrite Ecached in Hd. by destruct Hd.
      * revert Hin. apply IH. rewrite lookup_insert_ne; [exact Hd|].
        intros Heq. rewrite <- Heq, Ecached in Hd. by destruct Hd.
    + intros [].
Qed.

(** For such a key, what is yielded is the cached value. *)
Lemma loop_cached_yielded keys d clamped_key cached public_key :
  d !! hex clamped_key = Some cached ->
  In (clamped_key, public_key)
     (loop_yielded (faulted_results_loop derive keys d)) ->
  fromhex cached = Ok public_key.
Proof.
  revert d. induction keys as [|faulted_key keys IH]; intros d Hd.
  - intros [].
  - loop_step faulted_key d.
    + intros [[= ? ?]|Hin]; [subst; congruence | by apply (IH d)].
    + intros [].
    + intros [[= ? ?]|Hin]; [subst; congruence|].
      revert Hin. apply IH. rewrite lookup_insert_ne; [exact Hd|].
      intros Heq. rewrite Heq in Ecached. congruence.
    + intros [].
Qed.

(** The dict at the end: the one at the start, and one more entry for
    each invocation of the primitive. *)
Lemma loop_dict_spec keys d h :
  loop_dict (faulted_results_loop derive keys d) !! h =
    match d !! h with
    | Some v => Some v
    | None =>
        match List.find (fun k => String.eqb (hex k) h)
                        (loop_invoked (faulted_results_loop derive keys d)) with
        | Some k => Some (hex (derive k))
        | None => None
        end
    end.
Proof.
  revert d. induction keys as [|faulted_key keys IH]; intros d.
  - cbn. by destruct (d !! h).
  - loop_step faulted_key d; try (by destruct (d !! h)); try apply IH.
    rewrite IH. cbn [List.find].
    destruct (String.eqb_spec (hex clamped) h) as [<-|Hne].
    + rewrite lookup_insert_eq, Ecached. reflexivity.
    + rewrite lookup_insert_ne by exact Hne. reflexivity.
Qed.

Lemma valid_cache_insert d h b :
  valid_cache d -> valid_cache (<[h := hex b]> d).
Proof.
  intros Hd h' v. rewrite lookup_insert. case_decide.
  - intros [= <-]. exists b. apply fromhex_hex.
  - apply Hd.
Qed.

(** With well-formed values in the dict and keys of at most 32 bytes the
    loop ends without raising, having yielded one pair per key. *)
Lemma loop_completes keys d :
  valid_cache d ->
  Forall (fun k : bytes => (length k <= 32)%nat) keys ->
  loop_raised (faulted_results_loop derive keys d) = None /\
  Forall2 (fun faulted_key pair => clamp faulted_key = Ok (fst pair))
          keys (loop_yielded (faulted_results_loop derive keys d)).
Proof.
  intros Hd Hkeys. revert d Hd.
  induction Hkeys as [|faulted_key keys Hlen _ IH]; intros d Hd.
  - split; [reflexivity | constructor].
  - pose proof (clamp_short faulted_key Hlen) as Hc.
    loop_step faulted_key d; try congruence.
    + destruct (IH d Hd) as [Hr Hy]. split; [exact Hr|].
      constructor; [exact Eclamp | exact Hy].
    + destruct (Hd _ _ Ecached) as [b Hb]. congruence.
    + destruct (IH _ (valid_cache_insert d (hex clamped) (derive clamped) Hd))
        as [Hr Hy].
      split; [exact Hr|]. constructor; [exact Eclamp | exact Hy].
Qed.

Lemma yielded_end_of_pass e r :
  yielded (end_of_pass e r) = loop_yielded r.
Proof. unfold end_of_pass. by destruct (loop_raised r), e. Qed.

Lemma invoked_end_of_pass e r :
  invoked (end_of_pass e r) = loop_invoked r.
Proof. unfold end_of_pass. by destruct (loop_raised r), e. Qed.

Lemma raised_end_of_pass e r :
  raised (end_of_pass e r) =
    match loop_raised r with Some e' => Some e' | None => e end.
Proof. unfold end_of_pass. by destruct (loop_raised r), e. Qed.

Lemma written_end_of_pass e r :
  written (end_of_pass e r) =
    match raised (end_of_pass e r) with
    | None => [loop_dict r]
    | Some _ => []
    end.
Proof. unfold end_of_pass. by destruct (loop_raised r), e. Qed.

(** A whole pass completes from a well-formed cache and a key of at most
    32 bytes. *)
Lemma generation_completes stored original_key :
  valid_cache (default ∅ stored) ->
  (length original_key <= 32)%nat ->
  let g := generate_faulted_results derive stored original_key in
  raised g = None /\
  Forall2 (fun faulted_key pair => clamp faulted_key = Ok (fst pair))
          (fst (generate_faulted_keys original_key)) (yielded g).
Proof.
  intros Hd Hlen. cbv zeta. unfold generate_faulted_results.
  rewrite raised_end_of_pass, yielded_end_of_pass.
  destruct (loop_completes (fst (generate_faulted_keys original_key))
              (default ∅ stored) Hd) as [Hr Hy].
  { apply List.Forall_forall. intros k. apply generated_keys_short. }
  rewrite Hr. split; [|exact Hy].
  rewrite generate_faulted_keys_short by exact Hlen. reflexivity.
Qed.

Lemma generate_faulted_results_eq stored original_key :
  generate_faulted_results derive stored original_key =
    end_of_pass (snd (generate_faulted_keys original_key))
      (faulted_results_loop derive (fst (generate_faulted_keys original_key))
                            (default ∅ stored)).
Proof. reflexivity. Qed.

Lemma valid_cache_empty : valid_cache ∅.
Proof. intros h v H. by rewrite lookup_empty in H. Qed.

End Loop.

(** ** The masks of [generate_faulted_keys] *)

Lemma from_bytes_encode32 c :
  fits32 (fst c) ->
  from_bytes_little (match snd c with
                     | Little => encode32 c
                     | Big => rev (encode32 c)
                     end) = fst c.
Proof.
  intros Hc. unfold encode32. destruct (snd c); rewrite ?rev_involutive;
    apply from_to_bytes_little; exact Hc.
Qed.

Lemma encode32_full c :
  fits32 (fst c) -> encode32 c = replicate 32 xff -> fst c = 2 ^ 256 - 1.
Proof.
  intros Hc He. rewrite <- (from_bytes_encode32 c Hc), He.
  destruct (snd c); reflexivity.
Qed.

Lemma block_masks_not_full c : In c block_masks -> fst c <> 2 ^ 256 - 1.
Proof.
  intros Hc.
  assert (H : forallb (fun c => negb (fst c =? 2 ^ 256 - 1)) block_masks = true)
    by (vm_compute; reflexivity).
  rewrite forallb_forall in H. specialize (H c Hc).
  destruct (Z.eqb_spec (fst c) (2 ^ 256 - 1)); [discriminate | assumption].
Qed.

(** Every mask of lines 75-83 clears at least one bit. *)
Lemma start_end_masks_not_full c :
  In c start_end_masks -> fst c <> 2 ^ 256 - 1.
Proof.
  intros Hc. apply In_start_end_masks in Hc.
  destruct Hc as [s [e [Hs [He [Hse Hc]]]]]. rewrite Hc. intros Hfull.
  assert (Hbit : Z.testbit (Z.lor (start_of_mask s) (end_of_mask e)) e = false).
  { rewrite mask_testbit by lia.
    destruct (Z.leb_spec (256 - s) e); [lia|].
    rewrite Z.ltb_irrefl. reflexivity. }
  rewrite Hfull in Hbit. change (2 ^ 256 - 1) with (Z.ones 256) in Hbit.
  rewrite Z.testbit_ones_nonneg in Hbit by lia.
  destruct (Z.ltb_spec e 256); [discriminate | lia].
Qed.

Lemma Ok_inj {A} (a b : A) : Ok a = Ok b -> a = b.
Proof. by intros [= ->]. Qed.

Lemma full_mask_not_in_fault_masks masks :
  fault_masks = Ok masks -> ~ In (replicate 32 xff) masks.
Proof.
  rewrite fault_masks_Ok. intros Hm Hin. apply Ok_inj in Hm. subst masks.
  apply in_map_iff in Hin. destruct Hin as [c [He Hc]].
  apply in_app_iff in Hc.
  assert (Hfits : fits32 (fst c)).
  { destruct Hc as [Hc|Hc].
    - pose proof fits32_block_masks as H.
      rewrite List.Forall_forall in H. by apply H.
    - pose proof fits32_start_end_masks as H.
      rewrite List.Forall_forall in H. by apply H. }
  pose proof (encode32_full c Hfits He) as Hfull.
  destruct Hc as [Hc|Hc].
  - by apply (block_masks_not_full c).
  - by apply (start_end_masks_not_full c).
Qed.

(** The masks are among the keys the generator yields, applied to the
    original key. *)
Lemma masked_key_generated original_key masks mask :
  fault_masks = Ok masks -> In mask masks ->
  In (and_bytes original_key mask) (fst (generate_faulted_keys original_key)).
Proof.
  intros Hm Hin. rewrite generate_faulted_keys_eq. unfold yield_first.
  cbn [fst]. apply in_app_iff. left. apply in_map.
  rewrite fault_masks_Ok in Hm. apply Ok_inj in Hm. by subst masks.
Qed.

(** ** The key-shortening detector *)

Lemma key_in_spec faulted_key seen :
  key_in faulted_key seen = true <-> In faulted_key (map fst seen).
Proof.
  unfold key_in. rewrite existsb_exists, in_map_iff. split.
  - intros [item [Hin Heq]]. apply bool_decide_eq_true in Heq. eauto.
  - intros [item [Heq Hin]]. exists item. split; [exact Hin|].
    by apply bool_decide_eq_true.
Qed.

Section Seen.

Variable results_sim : gmap string address_hits.

Local Abbreviation see := (fold_left (see_effective_key results_sim)).

(** A faulted key is recorded once. *)
Lemma seen_NoDup pairs seen0 :
  List.NoDup (map fst seen0) -> List.NoDup (map fst (see pairs seen0)).
Proof.
  revert seen0. induction pairs as [|[k pk] pairs IH]; intros seen0 Hnd;
    [exact Hnd|].
  cbn [see fold_left]. apply IH. unfold see_effective_key.
  destruct (results_sim !! hex pk) as [a|]; [|exact Hnd].
  destruct (key_in k seen0) eqn:E; [exact Hnd|].
  rewrite map_app. apply List.NoDup_app; [exact Hnd | | ].
  - repeat constructor. intros [].
  - intros k' Hin [Heq|[]]. cbn [fst] in Heq. subst k'.
    apply (proj2 (key_in_spec _ _)) in Hin. congruence.
Qed.

(** The faulted keys recorded are those yielded with an observed
    output. *)
Lemma seen_keys pairs seen0 k :
  In k (map fst (see pairs seen0)) <->
  In k (map fst seen0) \/
  exists pk, In (k, pk) pairs /\ is_Some (results_sim !! hex pk).
Proof.
  revert seen0. induction pairs as [|[k0 pk0] pairs IH]; intros seen0.
  - cbn. split; [by left|]. intros [H|[pk [[] _]]]. exact H.
  - cbn [see fold_left]. rewrite IH. unfold see_effective_key.
    destruct (results_sim !! hex pk0) as [a0|] eqn:E0.
    + destruct (key_in k0 seen0) eqn:Ek.
      * apply (proj1 (key_in_spec _ _)) in Ek. split.
        -- intros [H|[pk [Hin Hs]]]; [by left|]. right. exists pk.
           split; [by right|exact Hs].
        -- intros [H|[pk [[[= -> ->]|Hin] Hs]]]; [by left|by left|].
           right. eauto.
      * rewrite map_app, in_app_iff. cbn. split.
        -- intros [[H|[<-|[]]]|[pk [Hin Hs]]].
           ++ by left.
           ++ right. exists pk0. split; [by left|]. rewrite E0. eauto.
           ++ right. exists pk. split; [by right|exact Hs].
        -- intros [H|[pk [[[= -> ->]|Hin] Hs]]].
           ++ left. by left.
           ++ left. right. by left.
           ++ right. eauto.
    + split.
      * intros [H|[pk [Hin Hs]]]; [by left|]. right. exists pk.
        split; [by right|exact Hs].
      * intros [H|[pk [[[= -> ->]|Hin] Hs]]]; [by left| |].
        -- rewrite E0 in Hs. by destruct Hs.
        -- right. eauto.
Qed.

Lemma first_observed_cons_other k0 pk0 pairs k a :
  (k0 = k -> results_sim !! hex pk0 = None) ->
  first_observed results_sim ((k0, pk0) :: pairs) k a <-> first_observed results_sim pairs k a.
Proof.
  intros Hother. split.
  - intros [[|p pre] [post [pk [Heq [Ha Hpre]]]]].
    + injection Heq as -> -> ->. rewrite Hother in Ha by reflexivity.
      discriminate.
    + injection Heq as <- ->. exists pre, post, pk.
      split; [reflexivity|]. split; [exact Ha|].
      intros pk' Hin. apply Hpre. by right.
  - intros [pre [post [pk [-> [Ha Hpre]]]]].
    exists ((k0, pk0) :: pre), post, pk. split; [reflexivity|].
    split; [exact Ha|]. intros pk' [[= -> ->]|Hin]; [by apply Hother|].
    by apply Hpre.
Qed.

Lemma seen_first pairs seen0 k a :
  In (k, a) (see pairs seen0) <->
  In (k, a) seen0 \/
  (~ In k (map fst seen0) /\ first_observed results_sim pairs k a).
Proof.
  revert seen0. induction pairs as [|[k0 pk0] pairs IH]; intros seen0.
  - cbn. split; [by left|].
    intros [H|[_ [pre [post [pk [Heq _]]]]]]; [exact H|].
    by destruct pre.
  - cbn [see fold_left]. rewrite IH. unfold see_effective_key.
    destruct (results_sim !! hex pk0) as [a0|] eqn:E0.
    + destruct (key_in k0 seen0) eqn:Ek.
      * apply (proj1 (key_in_spec _ _)) in Ek.
        split; (intros [H|[Hk Hf]]; [by left|right; split; [exact Hk|]]).
        -- apply first_observed_cons_other; [|exact Hf].
           intros ->. contradiction.
        -- apply first_observed_cons_other in Hf; [exact Hf|].
           intros ->. contradiction.
      * assert (Hk0 : ~ In k0 (map fst seen0)).
        { intros H. apply (proj2 (key_in_spec _ _)) in H. congruence. }
        rewrite map_app, !in_app_iff. cbn. split.
        -- intros [[H|[[= <- <-]|[]]]|[Hk Hf]].
           ++ by left.
           ++ right. split; [exact Hk0|].
              exists [], pairs, pk0. split; [reflexivity|].
              split; [exact E0|]. intros pk' [].
           ++ right. split; [tauto|].
              apply first_observed_cons_other; [|exact Hf].
              intros ->. tauto.
        -- intros [H|[Hk Hf]]; [by left; left|].
           destruct (decide (k0 = k)) as [->|Hne].
           ++ left. right. left.
              destruct Hf as [[|p pre] [post [pk [Heq [Ha Hpre]]]]].
              ** injection Heq as -> ->. congruence.
              ** injection Heq as <- ->.
                 rewrite (Hpre pk0) in E0 by (by left). discriminate.
           ++ right. split; [tauto|].
              apply first_observed_cons_other in Hf; [exact Hf|].
              intros ->. contradiction.
    + split; (intros [H|[Hk Hf]]; [by left|right; split; [exact Hk|]]).
      * apply first_observed_cons_other; [|exact Hf]. by intros _.
      * apply first_observed_cons_other in Hf; [exact Hf|]. by intros _.
Qed.

End Seen.

(** The report is a permutation of what was recorded. *)
Lemma insert_descending_perm {A} (key : A -> Z) x l :
  Permutation (insert_descending key x l) (x :: l).
Proof.
  induction l as [|y l IH]; [reflexivity|].
  cbn [insert_descending]. destruct (key y <? key x); [reflexivity|].
  rewrite IH. apply perm_swap.
Qed.

Lemma sorted_descending_perm {A} (key : A -> Z) l :
  Permutation (sorted_descending key l) l.
Proof.
  unfold sorted_descending.
  assert (H : forall acc,
             Permutation
               (fold_left (fun acc x => insert_descending key x acc) l acc)
               (acc ++ l)).
  { induction l as [|x l IH]; intros acc.
    - by rewrite app_nil_r.
    - cbn [fold_left]. rewrite IH, insert_descending_perm.
      apply Permutation_middle. }
  apply (H []).
Qed.

Lemma report_effective_keys_spec results_sim g :
  exists report,
    report_effective_keys results_sim g = shortening_outcome g report /\
    List.NoDup (map fst report) /\
    (forall k, In k (map fst report) <->
               exists pk, In (k, pk) (yielded g) /\
                          is_Some (results_sim !! hex pk)) /\
    (forall k a, In (k, a) report <->
                 first_observed results_sim (yielded g) k a).
Proof.
  set (seen := fold_left (see_effective_key results_sim) (yielded g) []).
  exists (sorted_descending bits_removed seen).
  pose proof (sorted_descending_perm bits_removed seen) as Hperm.
  split; [|split; [|split]].
  - unfold report_effective_keys, shortening_outcome. by destruct (raised g).
  - apply Permutation_NoDup with (map fst seen).
    + symmetry. by apply Permutation_map.
    + apply seen_NoDup. constructor.
  - intros k. transitivity (In k (map fst seen)).
    + split; apply Permutation_in, Permutation_map;
        [exact Hperm | symmetry; exact Hperm].
    + unfold seen. rewrite seen_keys. cbn. tauto.
  - intros k a. transitivity (In (k, a) seen).
    + split; apply Permutation_in; [exact Hperm | symmetry; exact Hperm].
    + unfold seen. rewrite seen_first. cbn. tauto.
Qed.

Lemma check_key_shortening_eq derive fs stored output_dir observations :
  parse_output fs output_dir = Ok observations ->
  check_key_shortening derive fs stored output_dir =
    report_effective_keys
      (index_observations observations)
      (generate_faulted_results derive stored untouched_key).
Proof. unfold check_key_shortening. intros ->. reflexivity. Qed.

Lemma Forall2_In_l {A B} (P : A -> B -> Prop) l k x :
  Forall2 P l k -> In x l -> exists y, In y k /\ P x y.
Proof.
  induction 1 as [|x' y' l k Hxy _ IH]; [intros []|].
  intros [->|Hin].
  - exists y'. split; [by left | exact Hxy].
  - destruct (IH Hin) as [y [Hy Hp]]. exists y. split; [by right | exact Hp].
Qed.

(** In a pass that completes, a generated key whose clamped form is in
    the cache is yielded with the cached public key. *)
Lemma cached_key_yielded derive (cache : gmap string string)
    original_key faulted_key clamped_key cached public_key :
  valid_cache cache -> (length original_key <= 32)%nat ->
  In faulted_key (fst (generate_faulted_keys original_key)) ->
  clamp faulted_key = Ok clamped_key ->
  cache !! hex clamped_key = Some cached ->
  fromhex cached = Ok public_key ->
  In (clamped_key, public_key)
     (yielded (generate_faulted_results derive (Some cache) original_key)).
Proof.
  intros Hvalid Hlen Hin Hclamp Hcached Hhex.
  destruct (generation_completes derive (Some cache) original_key Hvalid Hlen)
    as [_ Hall].
  destruct (Forall2_In_l _ _ _ _ Hall Hin) as [[ck pk] [Hy Hc]].
  cbn [fst] in Hc. rewrite Hclamp in Hc. apply Ok_inj in Hc. subst ck.
  assert (Hpk : fromhex cached = Ok pk).
  { revert Hy. rewrite generate_faulted_results_eq, yielded_end_of_pass.
    apply loop_cached_yielded. exact Hcached. }
  rewrite Hhex in Hpk. apply Ok_inj in Hpk. by subst pk.
Qed.

Lemma length_untouched_key : (length untouched_key <= 32)%nat.
Proof. cbn. lia. Qed.

Lemma valid_colliding_cache : valid_cache colliding_cache.
Proof.
  intros h v. unfold colliding_cache.
  rewrite lookup_insert. case_decide.
  - intros [= <-]. by exists [xaa].
  - rewrite lookup_singleton. case_decide; [|discriminate].
    intros [= <-]. by exists [xaa].
Qed.

(** ** Checks on concrete inputs *)

Example to_bytes_big : to_bytes 4 Big 258 = Ok [x00; x00; x01; x02].
Proof. reflexivity. Qed.

Example to_bytes_little_order : to_bytes 4 Little 258 = Ok [x02; x01; x00; x00].
Proof. reflexivity. Qed.

Example to_bytes_overflow : to_bytes 32 Big (2 ^ 256) = Raise OverflowError.
Proof. reflexivity. Qed.

Example to_bytes_negative : to_bytes 32 Little (-1) = Raise OverflowError.
Proof. reflexivity. Qed.

Example hex_bytes : hex [x00; xff; x1a] = "00ff1a"%string.
Proof. reflexivity. Qed.

Example fromhex_spaces : fromhex "00 fF1a " = Ok [x00; xff; x1a].
Proof. reflexivity. Qed.

Example fromhex_odd : fromhex "0" = Raise ValueError.
Proof. reflexivity. Qed.

Example clamp_untouched_key : clamp untouched_key = Ok untouched_key.
Proof. vm_compute. reflexivity. Qed.

Example clamp_ones :
  clamp (replicate 32 xff) = Ok ([xf8] ++ replicate 30 xff ++ [x7f]).
Proof. vm_compute. reflexivity. Qed.

Example clamp_too_long : clamp (replicate 33 xff) = Raise OverflowError.
Proof. vm_compute. reflexivity. Qed.

Example endswith_txt :
  (endswith "a.txt" ".txt", endswith "txt" ".txt", endswith "a.txt.bak" ".txt")
  = (true, false, false).
Proof. reflexivity. Qed.

Example parse_text_block :
  parse_text (trace_block "0x8000a4" "1" "7" "exit" "aa")
  = [observation "0x8000a4" 1 7 "aa"].
Proof. vm_compute. reflexivity. Qed.

Example parse_text_malformed :
  parse_text ("##### Address: 0xZZ. Hit: 1. Instruction: 7" ++
              trace_block "0x8000a4" "12" "7" "exit" "aa" ++
              "##### Address: 0x1. Hit: 2. Instruction: 8")%string
  = [observation "0x8000a4" 12 7 "aa"].
Proof. vm_compute. reflexivity. Qed.

Example block_masks_count : length block_masks = 46%nat.
Proof. reflexivity. Qed.

Example combinations_of_three :
  combinations [1; 2; 3] 2 = [[1; 2]; [1; 3]; [2; 3]].
Proof. reflexivity. Qed.

Example sorted_descending_stable :
  sorted_descending fst [(1, "a"); (3, "b"); (1, "c"); (3, "d")]%string
  = [(3, "b"); (3, "d"); (1, "a"); (1, "c")]%string.
Proof. reflexivity. Qed.

Example count_ones_five : count_ones 5 = 2.
Proof. reflexivity. Qed.

(** The last index of the arrays is in range. *)
Example last_instruction_in_range :
  safe_error_of_traces stub_public_key
    [observation "0x8000a4" 1 999999 "00"]
    [observation "0x8000a4" 1 999999 correct_6c]
  = Ok {[ "0x8000a4" := {[ 1%N ]} ]}.
Proof. vm_compute. reflexivity. Qed.

Example aligned_runs_not_flagged :
  check_safe_error stub_public_key aligned_runs "outputs-93" "outputs-6c"
  = Ok ∅.
Proof. vm_compute. reflexivity. Qed.

(** * The claims *)

(** C5. [clamp] is idempotent: on every 32-byte value [k], [clamp]
    returns a value, and clamping that value again returns it unchanged. *)
Theorem clamp_idempotent (k : bytes) :
  length k = 32%nat ->
  exists k', clamp k = Ok k' /\ clamp k' = Ok k'.
Proof.
  intros Hlen.
  exists (to_bytes_little 32 (clamp_int (from_bytes_little k))).
  assert (Hc := clamp_short k ltac:(lia)).
  split; [exact Hc|].
  apply (clamp_fixed k), Hc.
Qed.

Lemma clamp_idempotent_witness :
  length untouched_key = 32%nat /\
  exists k', clamp untouched_key = Ok k' /\ clamp k' = Ok k'.
Proof.
  split; [reflexivity | apply (clamp_idempotent untouched_key); reflexivity].
Defined.

(** C3 (amended). Consuming [parse_output] on an empty directory yields
    the empty sequence and raises nothing; on a missing directory the
    listing raises [FileNotFoundError] and no sequence is produced. *)
Theorem parse_output_empty_or_missing (fs : filesystem) (output_dir : string) :
  (fs !! output_dir = Some [] -> parse_output fs output_dir = Ok []) /\
  (fs !! output_dir = None ->
   parse_output fs output_dir = Raise FileNotFoundError).
Proof.
  unfold parse_output.
  split; intros ->; reflexivity.
Qed.

Lemma parse_output_empty_or_missing_witness :
  parse_output {[ "outputs" := [] ]} "outputs" = Ok [] /\
  parse_output {[ "outputs" := [] ]} "elsewhere" = Raise FileNotFoundError.
Proof.
  split.
  - apply (proj1 (parse_output_empty_or_missing _ _)). reflexivity.
  - apply (proj2 (parse_output_empty_or_missing _ _)). reflexivity.
Defined.

(** C3, as stated, fails: on the file system with no directory at all,
    [parse_output] does not yield the empty sequence, it raises. *)
Lemma parse_output_missing_directory_raises :
  parse_output ∅ "outputs" <> Ok [].
Proof. discriminate. Qed.

(** C10. [parse_output] depends only on the entries of the directory
    whose names end with ".txt": two file systems whose directories have
    the same such entries give the same outcome, whatever the other
    entries are and whatever they contain. *)
Theorem parse_output_only_txt (fs fs' : filesystem) (output_dir : string) :
  txt_entries <$> (fs !! output_dir) = txt_entries <$> (fs' !! output_dir) ->
  parse_output fs output_dir = parse_output fs' output_dir.
Proof.
  unfold parse_output. intros H.
  destruct (fs !! output_dir) as [entries|],
           (fs' !! output_dir) as [entries'|]; try discriminate H;
    [|reflexivity].
  injection H as H.
  rewrite <- (read_txt_files_txt_entries entries),
          <- (read_txt_files_txt_entries entries'), H.
  reflexivity.
Qed.

Lemma parse_output_only_txt_witness :
  let trace :=
    "#####  Address: 0x8000f0. Hit: 2. Instruction: 7
Run result: exit
Output (hex): 00ff
" in
  let fs : filesystem :=
    {[ "outputs" := [("a.txt", File trace); ("notes.log", File trace);
                     ("b.txt.bak", Unreadable OSError)] ]} in
  let fs' : filesystem := {[ "outputs" := [("a.txt", File trace)] ]} in
  txt_entries <$> (fs !! "outputs") = txt_entries <$> (fs' !! "outputs") /\
  parse_output fs "outputs" = parse_output fs' "outputs".
Proof.
  cbv zeta. split.
  - vm_compute. reflexivity.
  - apply parse_output_only_txt. vm_compute. reflexivity.
Defined.

(** C7. Once both traces are parsed, the safe-error detector raises the
    assertion error exactly when some aligned pair of observations
    differs in address, hit count or instruction index; so on traces
    whose aligned observations agree on the three fields it never does,
    whatever the outputs are. *)
Theorem assertion_iff_aligned_differ (derive : bytes -> bytes)
    (fs : filesystem) (output_dir_1 output_dir_2 : string)
    (results_sim_1 results_sim_2 : list SimulationResult) :
  parse_output fs output_dir_1 = Ok results_sim_1 ->
  parse_output fs output_dir_2 = Ok results_sim_2 ->
  check_safe_error derive fs output_dir_1 output_dir_2
    = Raise AssertionError <->
  exists r1 r2, aligned results_sim_1 results_sim_2 r1 r2 /\ differ r1 r2.
Proof.
  intros H1 H2. unfold check_safe_error. rewrite H1, H2.
  apply safe_error_Raise_Assertion.
Qed.

Lemma assertion_iff_aligned_differ_witness :
  let rs1 := [observation "0x8000a4" 1 5 "00"] in
  let rs2 := [observation "0x8000a4" 2 5 "ff"] in
  parse_output misaligned_runs "outputs-93" = Ok rs1 /\
  parse_output misaligned_runs "outputs-6c" = Ok rs2 /\
  (check_safe_error stub_public_key misaligned_runs "outputs-93" "outputs-6c"
     = Raise AssertionError <->
   exists r1 r2, aligned rs1 rs2 r1 r2 /\ differ r1 r2).
Proof.
  cbv zeta.
  assert (H1 : parse_output misaligned_runs "outputs-93"
               = Ok [observation "0x8000a4" 1 5 "00"])
    by (vm_compute; reflexivity).
  assert (H2 : parse_output misaligned_runs "outputs-6c"
               = Ok [observation "0x8000a4" 2 5 "ff"])
    by (vm_compute; reflexivity).
  split; [exact H1|]. split; [exact H2|].
  exact (assertion_iff_aligned_differ stub_public_key misaligned_runs
           "outputs-93" "outputs-6c" _ _ H1 H2).
Defined.

(** C9. The arrays of the safe-error detector have 1,000,000 entries and
    the bound is not checked: once both traces are parsed, an observation
    in either of them with an instruction index of 1,000,000 or more makes
    the detector raise [IndexError]. *)
Theorem capacity_unchecked (derive : bytes -> bytes)
    (fs : filesystem) (output_dir_1 output_dir_2 : string)
    (results_sim_1 results_sim_2 : list SimulationResult)
    (r : SimulationResult) :
  parse_output fs output_dir_1 = Ok results_sim_1 ->
  parse_output fs output_dir_2 = Ok results_sim_2 ->
  r ∈ results_sim_1 ++ results_sim_2 ->
  (1000000 <= instruction r)%N ->
  N.of_nat capacity = 1000000%N /\
  check_safe_error derive fs output_dir_1 output_dir_2 = Raise IndexError.
Proof.
  intros H1 H2 Hin Hge. split.
  - rewrite capacity_eq. lia.
  - unfold check_safe_error. rewrite H1, H2.
    by apply safe_error_out_of_range with r.
Qed.

Lemma capacity_unchecked_witness :
  let rs1 := [observation "0x8000a4" 1 1000000 "00"] in
  let rs2 := [observation "0x8000a4" 1 5 "ff"] in
  let r := observation "0x8000a4" 1 1000000 "00" in
  parse_output long_run "outputs-93" = Ok rs1 /\
  parse_output long_run "outputs-6c" = Ok rs2 /\
  r ∈ rs1 ++ rs2 /\
  (1000000 <= instruction r)%N /\
  N.of_nat capacity = 1000000%N /\
  check_safe_error stub_public_key long_run "outputs-93" "outputs-6c"
    = Raise IndexError.
Proof.
  cbv zeta.
  assert (H1 : parse_output long_run "outputs-93"
               = Ok [observation "0x8000a4" 1 1000000 "00"])
    by (vm_compute; reflexivity).
  assert (H2 : parse_output long_run "outputs-6c"
               = Ok [observation "0x8000a4" 1 5 "ff"])
    by (vm_compute; reflexivity).
  assert (Hin : observation "0x8000a4" 1 1000000 "00"
                ∈ [observation "0x8000a4" 1 1000000 "00"]
                  ++ [observation "0x8000a4" 1 5 "ff"])
    by (apply elem_of_cons; left; reflexivity).
  assert (Hge : (1000000 <= instruction (observation "0x8000a4" 1 1000000 "00"))%N)
    by (simpl; lia).
  split; [exact H1|]. split; [exact H2|]. split; [exact Hin|].
  split; [exact Hge|].
  exact (capacity_unchecked stub_public_key long_run "outputs-93" "outputs-6c"
           _ _ _ H1 H2 Hin Hge).
Defined.

(** C6 (amended). When the safe-error detector completes, an address is
    flagged with a hit count exactly when some aligned pair of
    observations with that address and that hit count has exactly one
    correct run: run 1's output is run 1's correct public key, or run 2's
    output is run 2's correct public key, and not both. *)
Theorem flagged_iff_one_correct (derive : bytes -> bytes)
    (fs : filesystem) (output_dir_1 output_dir_2 : string)
    (results_sim_1 results_sim_2 : list SimulationResult)
    (potentially_prone_addresses : address_hits) :
  parse_output fs output_dir_1 = Ok results_sim_1 ->
  parse_output fs output_dir_2 = Ok results_sim_2 ->
  check_safe_error derive fs output_dir_1 output_dir_2
    = Ok potentially_prone_addresses ->
  forall a h,
    flagged potentially_prone_addresses a h <->
    exists r1 r2,
      aligned results_sim_1 results_sim_2 r1 r2 /\
      address r1 = a /\ hit r1 = h /\
      one_correct (derive (replicate 32 x93)) (derive (replicate 32 x6c))
                  r1 r2 = true.
Proof.
  intros H1 H2. unfold check_safe_error. rewrite H1, H2.
  apply safe_error_Ok.
Qed.

Lemma flagged_iff_one_correct_witness :
  let rs1 := [observation "0x8000a4" 1 0 correct_93;
              observation "0x8000a4" 1 1 "00"] in
  let rs2 := [observation "0x8000a4" 1 0 "00";
              observation "0x8000a4" 1 1 "00"] in
  let prone : address_hits := {[ "0x8000a4" := {[ 1%N ]} ]} in
  parse_output two_runs "outputs-93" = Ok rs1 /\
  parse_output two_runs "outputs-6c" = Ok rs2 /\
  check_safe_error stub_public_key two_runs "outputs-93" "outputs-6c"
    = Ok prone /\
  forall a h,
    flagged prone a h <->
    exists r1 r2,
      aligned rs1 rs2 r1 r2 /\ address r1 = a /\ hit r1 = h /\
      one_correct (stub_public_key (replicate 32 x93))
                  (stub_public_key (replicate 32 x6c)) r1 r2 = true.
Proof.
  cbv zeta.
  assert (H1 : parse_output two_runs "outputs-93"
               = Ok [observation "0x8000a4" 1 0 correct_93;
                     observation "0x8000a4" 1 1 "00"])
    by (vm_compute; reflexivity).
  assert (H2 : parse_output two_runs "outputs-6c"
               = Ok [observation "0x8000a4" 1 0 "00";
                     observation "0x8000a4" 1 1 "00"])
    by (vm_compute; reflexivity).
  assert (H3 : check_safe_error stub_public_key two_runs
                 "outputs-93" "outputs-6c"
               = Ok {[ "0x8000a4" := {[ 1%N ]} ]})
    by (vm_compute; reflexivity).
  split; [exact H1|]. split; [exact H2|]. split; [exact H3|].
  exact (flagged_iff_one_correct stub_public_key two_runs
           "outputs-93" "outputs-6c" _ _ _ H1 H2 H3).
Defined.

(** C6, as stated, fails.  In [two_runs] the pair of observations aligned
    at instruction 1 has no correct run, yet its address is flagged with
    its hit count: the pair aligned at instruction 0, at the same address
    with the same hit count, has exactly one correct run. *)
Lemma flagged_without_one_correct :
  let r1 := observation "0x8000a4" 1 1 "00" in
  let r2 := observation "0x8000a4" 1 1 "00" in
  exists rs1 rs2 prone,
    parse_output two_runs "outputs-93" = Ok rs1 /\
    parse_output two_runs "outputs-6c" = Ok rs2 /\
    check_safe_error stub_public_key two_runs "outputs-93" "outputs-6c"
      = Ok prone /\
    aligned rs1 rs2 r1 r2 /\
    one_correct (stub_public_key (replicate 32 x93))
                (stub_public_key (replicate 32 x6c)) r1 r2 = false /\
    flagged prone (address r1) (hit r1).
Proof.
  cbv zeta.
  exists [observation "0x8000a4" 1 0 correct_93;
          observation "0x8000a4" 1 1 "00"],
         [observation "0x8000a4" 1 0 "00"; observation "0x8000a4" 1 1 "00"],
         {[ "0x8000a4" := {[ 1%N ]} ]}.
  split; [vm_compute; reflexivity|].
  split; [vm_compute; reflexivity|].
  split; [vm_compute; reflexivity|].
  split; [exists 1%nat; split; vm_compute; reflexivity|].
  split; [vm_compute; reflexivity|].
  exists {[ 1%N ]}. split; [vm_compute; reflexivity|].
  by apply elem_of_singleton.
Qed.

(** C8. Every pair yielded by [generate_faulted_results] has a first
    component that [clamp] maps to itself; read as a little-endian
    integer it has bit 254 set, so it is not zero. *)
Theorem yielded_keys_are_clamped (derive : bytes -> bytes)
    (stored : option (gmap string string)) (original_key : bytes) :
  Forall (fun pair : bytes * bytes =>
            clamp (fst pair) = Ok (fst pair) /\
            Z.testbit (from_bytes Little (fst pair)) 254 = true /\
            from_bytes Little (fst pair) <> 0)
         (yielded (generate_faulted_results derive stored original_key)).
Proof.
  rewrite generate_faulted_results_eq, yielded_end_of_pass.
  eapply Forall_impl; [apply loop_yielded_clamped|].
  intros pair [faulted_key H]. apply clamp_fixed in H. tauto.
Qed.

(** C4. In a pass of [generate_faulted_results] over a loaded cache, a
    clamped key whose hex is in the cache is never passed to the external
    primitive, and every pair yielded for it carries the cached public
    key.  The file is written once, with the loaded mapping extended by
    the results of the invocations, when the pass completes, and not at
    all when it raises; the pass completes when the original key has at
    most 32 bytes and the cached values are hexadecimal text, and then it
    has yielded one pair for each generated key. *)
Theorem cached_keys_not_derived (derive : bytes -> bytes)
    (cache : gmap string string) (original_key clamped_key : bytes)
    (cached : string) :
  cache !! hex clamped_key = Some cached ->
  let g := generate_faulted_results derive (Some cache) original_key in
  ~ In clamped_key (invoked g) /\
  (forall public_key,
     In (clamped_key, public_key) (yielded g) ->
     fromhex cached = Ok public_key) /\
  (raised g = None ->
   exists d,
     written g = [d] /\
     (forall h v, cache !! h = Some v -> d !! h = Some v) /\
     (forall k, In k (invoked g) -> d !! hex k = Some (hex (derive k))) /\
     (forall h, is_Some (d !! h) ->
                is_Some (cache !! h) \/ exists k, In k (invoked g) /\ h = hex k)) /\
  (raised g <> None -> written g = []) /\
  ((length original_key <= 32)%nat -> valid_cache cache ->
   raised g = None /\
   Forall2 (fun faulted_key pair => clamp faulted_key = Ok (fst pair))
           (fst (generate_faulted_keys original_key)) (yielded g)).
Proof.
  intros Hcached g. subst g.
  pose proof (fun Hv Hl => generation_completes derive (Some cache)
                             original_key Hv Hl) as Hcomplete.
  cbv zeta in Hcomplete. rewrite generate_faulted_results_eq in *.
  revert Hcomplete. generalize (generate_faulted_keys original_key).
  change (default ∅ (Some cache)) with cache.
  intros keys Hcomplete.
  rewrite invoked_end_of_pass, yielded_end_of_pass in *.
  split; [|split; [|split; [|split]]].
  - apply loop_cached_not_invoked. rewrite Hcached. eauto.
  - intros public_key. apply loop_cached_yielded. exact Hcached.
  - intros Hraised.
    rewrite written_end_of_pass, Hraised.
    eexists. split; [reflexivity|].
    split; [|split].
    + intros h v Hh. rewrite loop_dict_spec. by rewrite Hh.
    + intros k Hk. rewrite loop_dict_spec.
      destruct (cache !! hex k) as [v|] eqn:E.
      * exfalso.
        apply (loop_cached_not_invoked derive (fst keys) cache k);
          [rewrite E; eauto | exact Hk].
      * destruct (List.find _ _) as [k'|] eqn:Ef.
        -- apply find_some in Ef. destruct Ef as [_ Ef].
           apply String.eqb_eq, hex_inj in Ef. by subst.
        -- exfalso. apply (find_none _ _ Ef k) in Hk.
           by rewrite String.eqb_refl in Hk.
    + intros h. rewrite loop_dict_spec.
      destruct (cache !! h) as [v|]; [left; eauto|].
      destruct (List.find _ _) as [k|] eqn:Ef; [|by intros [? [=]]].
      apply find_some in Ef. destruct Ef as [Hin Ef].
      apply String.eqb_eq in Ef. intros _. right. exists k. done.
  - intros Hraised. rewrite written_end_of_pass.
    destruct (raised _); [reflexivity | congruence].
  - intros Hlen Hvalid. by apply Hcomplete.
Qed.

Lemma cached_keys_not_derived_witness :
  let clamped_key := replicate 31 x00 ++ [x43] in
  let cache : gmap string string := {[ hex clamped_key := "aa" ]} in
  let g := generate_faulted_results stub_public_key (Some cache)
                                    untouched_key in
  cache !! hex clamped_key = Some "aa" /\
  ~ In clamped_key (invoked g) /\
  (forall public_key,
     In (clamped_key, public_key) (yielded g) -> fromhex "aa" = Ok public_key).
Proof.
  cbv zeta.
  assert (H : ({[ hex (replicate 31 x00 ++ [x43]) := "aa" ]}
                 : gmap string string)
              !! hex (replicate 31 x00 ++ [x43]) = Some "aa")
    by apply lookup_singleton_eq.
  split; [exact H|].
  pose proof (cached_keys_not_derived stub_public_key _ untouched_key _ _ H)
    as [Hn [Hy _]].
  split; [exact Hn | exact Hy].
Defined.

(** C2 (amended). For every pair of non-negative integers
    (bitsFromStart, bitsFromEnd) with bitsFromStart + bitsFromEnd in
    [1, 255], the mask keeping the highest bitsFromStart bits and the
    lowest bitsFromEnd bits of 256 is among the fault masks in both its
    big-endian and its little-endian 32-byte encoding, and the generator
    yields the original key under each of the two. *)
Theorem start_end_masks_exhaustive (bits_from_start bits_from_end : Z)
    (original_key : bytes) :
  0 <= bits_from_start -> 0 <= bits_from_end ->
  1 <= bits_from_start + bits_from_end <= 255 ->
  let m := retained_mask bits_from_start bits_from_end in
  (forall i, 0 <= i < 256 ->
             Z.testbit m i =
               (256 - bits_from_start <=? i) || (i <? bits_from_end)) /\
  exists masks big little,
    fault_masks = Ok masks /\
    to_bytes 32 Big m = Ok big /\ to_bytes 32 Little m = Ok little /\
    In big masks /\ In little masks /\
    In (and_bytes original_key big)
       (fst (generate_faulted_keys original_key)) /\
    In (and_bytes original_key little)
       (fst (generate_faulted_keys original_key)).
Proof.
  intros Hs He Hse m. subst m.
  rewrite <- retained_mask_eq by lia.
  set (m := Z.lor (start_of_mask bits_from_start) (end_of_mask bits_from_end)).
  assert (Hfits : fits32 m)
    by (apply fits32_lor;
        [apply fits32_start_of_mask | apply fits32_end_of_mask]; lia).
  split.
  - intros i Hi. unfold m. rewrite mask_testbit by lia.
    destruct (Z.ltb_spec i 256); [|lia]. by rewrite andb_true_r.
  - assert (Hin : forall endian,
              In (encode32 (m, endian))
                 (map encode32 (block_masks ++ start_end_masks))).
    { intros endian. apply in_map, in_app_iff. right.
      apply In_start_end_masks.
      exists bits_from_start, bits_from_end. repeat split; lia || reflexivity. }
    exists (map encode32 (block_masks ++ start_end_masks)),
           (encode32 (m, Big)), (encode32 (m, Little)).
    split; [apply fault_masks_Ok|].
    split; [by apply to_bytes_fits|]. split; [by apply to_bytes_fits|].
    split; [apply Hin|]. split; [apply Hin|].
    split; apply (masked_key_generated original_key _ _ fault_masks_Ok), Hin.
Qed.

Lemma start_end_masks_exhaustive_witness :
  let m := retained_mask 3 5 in
  (0 <= 3 /\ 0 <= 5 /\ 1 <= 3 + 5 <= 255) /\
  (forall i, 0 <= i < 256 ->
             Z.testbit m i = (256 - 3 <=? i) || (i <? 5)) /\
  exists masks big little,
    fault_masks = Ok masks /\
    to_bytes 32 Big m = Ok big /\ to_bytes 32 Little m = Ok little /\
    In big masks /\ In little masks /\
    In (and_bytes untouched_key big)
       (fst (generate_faulted_keys untouched_key)) /\
    In (and_bytes untouched_key little)
       (fst (generate_faulted_keys untouched_key)).
Proof.
  cbv zeta. split; [lia|].
  apply (start_end_masks_exhaustive 3 5 untouched_key); lia.
Defined.

(** C2, as stated, fails at the sums equal to 256.  With 256 bits from
    the start and none from the end the mask keeps the whole key; its
    encoding, the same in both byte orders, is not among the fault
    masks. *)
Lemma full_mask_not_generated :
  let m := retained_mask 256 0 in
  (0 <= 256 /\ 0 <= 0 /\ 1 <= 256 + 0 <= 256) /\
  to_bytes 32 Big m = Ok (replicate 32 xff) /\
  to_bytes 32 Little m = Ok (replicate 32 xff) /\
  exists masks, fault_masks = Ok masks /\ ~ In (replicate 32 xff) masks.
Proof.
  cbv zeta. split; [lia|].
  split; [vm_compute; reflexivity|]. split; [vm_compute; reflexivity|].
  exists (map encode32 (block_masks ++ start_end_masks)).
  split; [apply fault_masks_Ok|].
  apply full_mask_not_in_fault_masks, fault_masks_Ok.
Qed.

(** C1 (amended). In [check_key_shortening] every faulted key yielded by
    the generator with a public key equal to an observed output is
    recorded and reported, once, with the addresses of the output of the
    first pair that has this key and an observed output: only a later
    pair with the same faulted key is dropped.  Distinct faulted keys
    whose public keys equal the same observed output are all reported.
    The run ends normally when the cached values are hexadecimal text. *)
Theorem effective_keys_reported (derive : bytes -> bytes) (fs : filesystem)
    (stored : option (gmap string string)) (output_dir : string)
    (observations : list SimulationResult) :
  parse_output fs output_dir = Ok observations ->
  let results_sim := index_observations observations in
  let g := generate_faulted_results derive stored untouched_key in
  exists report,
    check_key_shortening derive fs stored output_dir =
      shortening_outcome g report /\
    List.NoDup (map fst report) /\
    (forall k, In k (map fst report) <->
               exists pk, In (k, pk) (yielded g) /\
                          is_Some (results_sim !! hex pk)) /\
    (forall k a, In (k, a) report <->
                 first_observed results_sim (yielded g) k a) /\
    (valid_cache (default ∅ stored) -> raised g = None).
Proof.
  intros Hparse results_sim g. subst results_sim g.
  rewrite (check_key_shortening_eq _ _ _ _ _ Hparse).
  pose proof (fun Hv => proj1 (generation_completes derive stored
                                 untouched_key Hv length_untouched_key))
    as Hcomplete.
  cbv zeta in Hcomplete. revert Hcomplete.
  generalize (generate_faulted_results derive stored untouched_key).
  intros g Hcomplete.
  destruct (report_effective_keys_spec (index_observations observations) g)
    as [report [Heq [Hnd [Hkeys Hfirst]]]].
  exists report. tauto.
Qed.

Lemma effective_keys_reported_witness :
  let observations := [observation "0x8000a4" 1 7 "aa"] in
  let results_sim := index_observations observations in
  let g := generate_faulted_results stub_public_key (Some colliding_cache)
                                    untouched_key in
  parse_output one_observation "outputs" = Ok observations /\
  exists report,
    check_key_shortening stub_public_key one_observation
                         (Some colliding_cache) "outputs" =
      shortening_outcome g report /\
    List.NoDup (map fst report) /\
    (forall k, In k (map fst report) <->
               exists pk, In (k, pk) (yielded g) /\
                          is_Some (results_sim !! hex pk)) /\
    (forall k a, In (k, a) report <->
                 first_observed results_sim (yielded g) k a) /\
    (valid_cache (default ∅ (Some colliding_cache)) -> raised g = None).
Proof.
  cbv zeta.
  assert (H : parse_output one_observation "outputs"
              = Ok [observation "0x8000a4" 1 7 "aa"])
    by (vm_compute; reflexivity).
  split; [exact H|].
  exact (effective_keys_reported stub_public_key one_observation
           (Some colliding_cache) "outputs" _ H).
Defined.

(** C1, as stated, fails.  With the trace [one_observation] and the cache
    [colliding_cache], two distinct faulted keys are yielded with the
    public key [aa], which is the observed output, and both are recorded
    and reported: the later one is not dropped. *)
Lemma two_keys_reported_for_one_output :
  let g := generate_faulted_results stub_public_key (Some colliding_cache)
                                    untouched_key in
  exists report,
    check_key_shortening stub_public_key one_observation
                         (Some colliding_cache) "outputs" = Ok report /\
    first_effective_key <> second_effective_key /\
    In (first_effective_key, [xaa]) (yielded g) /\
    In (second_effective_key, [xaa]) (yielded g) /\
    hex [xaa] = "aa"%string /\
    (exists r, In r (parse_text (trace_block "0x8000a4" "1" "7" "exit" "aa"))
               /\ output r = "aa"%string) /\
    In first_effective_key (map fst (reported report)) /\
    In second_effective_key (map fst (reported report)).
Proof.
  cbv zeta.
  assert (Hparse : parse_output one_observation "outputs"
                   = Ok [observation "0x8000a4" 1 7 "aa"])
    by (vm_compute; reflexivity).
  assert (Hobserved :
            is_Some (index_observations [observation "0x8000a4" 1 7 "aa"]
                       !! hex [xaa])).
  { exists {[ "0x8000a4" := {[ 1%N ]} ]}. vm_compute. reflexivity. }
  assert (Hmask1 : In (encode32 (Z.shiftl (2 ^ 8 - 1) (0 * 8), Big))
                      (map encode32 (block_masks ++ start_end_masks))).
  { apply in_map, in_app_iff. left. vm_compute. left. reflexivity. }
  assert (Hmask2 : In (encode32 (Z.shiftl (2 ^ 8 - 1) (1 * 8), Big))
                      (map encode32 (block_masks ++ start_end_masks))).
  { apply in_map, in_app_iff. left. vm_compute. right. left. reflexivity. }
  pose proof (masked_key_generated untouched_key _ _ fault_masks_Ok Hmask1)
    as Hkey1.
  pose proof (masked_key_generated untouched_key _ _ fault_masks_Ok Hmask2)
    as Hkey2.
  assert (Hy1 := cached_key_yielded stub_public_key colliding_cache
                   untouched_key _ first_effective_key "aa" [xaa]
                   valid_colliding_cache length_untouched_key Hkey1
                   ltac:(vm_compute; reflexivity)
                   ltac:(vm_compute; reflexivity)
                   ltac:(vm_compute; reflexivity)).
  assert (Hy2 := cached_key_yielded stub_public_key colliding_cache
                   untouched_key _ second_effective_key "aa" [xaa]
                   valid_colliding_cache length_untouched_key Hkey2
                   ltac:(vm_compute; reflexivity)
                   ltac:(vm_compute; reflexivity)
                   ltac:(vm_compute; reflexivity)).
  pose proof (proj1 (generation_completes stub_public_key
                       (Some colliding_cache) untouched_key
                       valid_colliding_cache length_untouched_key))
    as Hraised.
  cbv zeta in Hraised.
  rewrite (check_key_shortening_eq _ _ _ _ _ Hparse).
  revert Hy1 Hy2 Hraised.
  generalize (generate_faulted_results stub_public_key (Some colliding_cache)
                                       untouched_key).
  intros g Hy1 Hy2 Hraised.
  destruct (report_effective_keys_spec
              (index_observations [observation "0x8000a4" 1 7 "aa"]) g)
    as [report [Heq [_ [Hkeys _]]]].
  unfold shortening_outcome in Heq. rewrite Hraised in Heq.
  eexists. split; [exact Heq|]. cbn [reported].
  split; [discriminate|]. split; [exact Hy1|]. split; [exact Hy2|].
  split; [reflexivity|].
  split; [exists (observation "0x8000a4" 1 7 "aa");
          split; [vm_compute; left; reflexivity | reflexivity]|].
  split; apply Hkeys; eexists; (split; [eassumption | exact Hobserved]).
Qed.

(** * Further properties of the code *)

(** ** [clamp] *)

(** X1. On a key of at most 32 bytes [clamp] returns 32 bytes whose
    little-endian integer has bit 255 clear, bit 254 set, bits 0 to 2
    clear, and every other bit as in the key. *)
Theorem clamp_bits (key : bytes) :
  (length key <= 32)%nat ->
  exists k,
    clamp key = Ok k /\ length k = 32%nat /\
    forall i, 0 <= i ->
      Z.testbit (from_bytes Little k) i =
        if (i =? 255) || (i <? 3) then false
        else if i =? 254 then true
        else Z.testbit (from_bytes Little key) i.
Proof.
  intros Hlen. pose proof (clamp_short key Hlen) as Hc.
  eexists. split; [exact Hc|]. split; [apply length_to_bytes_little|].
  intros i Hi. cbn [from_bytes].
  apply to_bytes_Ok in Hc. destruct Hc as [Hr _].
  rewrite from_to_bytes_little by exact Hr.
  by apply clamp_int_testbit.
Qed.

Lemma clamp_bits_witness :
  (length [xff; xff] <= 32)%nat /\
  exists k,
    clamp [xff; xff] = Ok k /\ length k = 32%nat /\
    forall i, 0 <= i ->
      Z.testbit (from_bytes Little k) i =
        if (i =? 255) || (i <? 3) then false
        else if i =? 254 then true
        else Z.testbit (from_bytes Little [xff; xff]) i.
Proof.
  assert (H : (length [xff; xff] <= 32)%nat) by (simpl; lia).
  split; [exact H | exact (clamp_bits [xff; xff] H)].
Defined.

Lemma clamp_int_fits n : 0 <= n -> fits32 (clamp_int n) <-> n < 2 ^ 256.
Proof.
  intros Hn. split.
  - intros Hc.
    assert (H : 0 <= n < 2 ^ 256); [|lia].
    apply bits_range; [lia | exact Hn|]. intros i Hi.
    pose proof (fits32_testbit _ i Hc Hi) as Hb.
    rewrite clamp_int_testbit in Hb by lia.
    destruct (Z.eqb_spec i 255); [lia|].
    destruct (Z.ltb_spec i 3); [lia|].
    destruct (Z.eqb_spec i 254); [lia|]. exact Hb.
  - intros Hlt. pose proof (clamp_int_range n ltac:(lia)).
    unfold fits32. lia.
Qed.

(** X2. [clamp] raises exactly when the little-endian integer of the key
    does not fit in 256 bits, that is for a key of more than 32 bytes
    with a non-zero byte after the 32nd; the exception is
    [OverflowError]. *)
Theorem clamp_raises_iff (key : bytes) (e : exn) :
  clamp key = Raise e <->
  e = OverflowError /\ 2 ^ 256 <= from_bytes Little key.
Proof.
  unfold clamp. cbn [from_bytes].
  pose proof (from_bytes_little_range key) as [Hn _].
  split.
  - intros H. apply to_bytes_Raise in H. destruct H as [-> Hnot].
    split; [reflexivity|].
    destruct (Z.lt_ge_cases (from_bytes_little key) (2 ^ 256)) as [Hlt|]; [|lia].
    exfalso. apply Hnot. by apply (clamp_int_fits _ Hn).
  - intros [-> Hge].
    destruct (to_bytes 32 Little (clamp_int (from_bytes_little key)))
      as [b|e] eqn:E.
    + apply to_bytes_Ok in E. destruct E as [Hfits _].
      apply (clamp_int_fits _ Hn) in Hfits. lia.
    + apply to_bytes_Raise in E. by destruct E as [-> _].
Qed.

(** ** [swap_endian] *)

Lemma to_bytes_little_zero k : to_bytes_little k 0 = replicate k x00.
Proof.
  induction k as [|k IH]; [reflexivity|].
  cbn [to_bytes_little replicate]. change (Z.shiftr 0 8) with 0.
  rewrite IH. reflexivity.
Qed.

Lemma to_bytes_little_padded b k :
  to_bytes_little (length b + k) (from_bytes_little b) = b ++ replicate k x00.
Proof.
  induction b as [|x b IH]; [apply to_bytes_little_zero|].
  cbn [length Nat.add to_bytes_little from_bytes_little app].
  pose proof (Z_of_byte_range x) as Hx.
  replace (Z_of_byte x + 256 * from_bytes_little b)
    with (Z_of_byte x + from_bytes_little b * 256) by lia.
  f_equal.
  - rewrite <- byte_of_Z_mod, Z.mod_add, Z.mod_small by lia.
    apply byte_of_Z_of_byte.
  - rewrite shiftr_8, Z.div_add, Z.div_small by lia. exact IH.
Qed.

(** X3. On a key of at most 32 bytes [swap_endian] returns the bytes in
    reverse order, padded with zero bytes up to 32; on a key of exactly
    32 bytes it is the reversal, and swapping twice gives the key back. *)
Theorem swap_endian_reverses (key : bytes) :
  (length key <= 32)%nat ->
  swap_endian key = Ok (rev key ++ replicate (32 - length key) x00) /\
  (length key = 32%nat ->
   swap_endian key = Ok (rev key) /\ swap_endian (rev key) = Ok key).
Proof.
  intros Hlen.
  assert (Hswap : forall b : bytes, (length b <= 32)%nat ->
            swap_endian b = Ok (rev b ++ replicate (32 - length b) x00)).
  { intros b Hb. unfold swap_endian.
    rewrite to_bytes_in_range by (apply (fits32_from_bytes Big b Hb)).
    cbn [from_bytes]. f_equal.
    replace 32%nat with (length (rev b) + (32 - length b))%nat at 1
      by (rewrite length_rev; lia).
    apply to_bytes_little_padded. }
  split; [by apply Hswap|].
  intros H32. split.
  - rewrite Hswap by exact Hlen. rewrite H32. cbn [Nat.sub replicate].
    by rewrite app_nil_r.
  - rewrite Hswap by (rewrite length_rev; lia).
    rewrite length_rev, H32, rev_involutive. cbn [Nat.sub replicate].
    by rewrite app_nil_r.
Qed.

Lemma swap_endian_reverses_witness :
  (length [x01; x02] <= 32)%nat /\
  swap_endian [x01; x02] = Ok (rev [x01; x02] ++ replicate (32 - 2) x00).
Proof.
  assert (H : (length [x01; x02] <= 32)%nat) by (simpl; lia).
  split; [exact H | exact (proj1 (swap_endian_reverses [x01; x02] H))].
Defined.

(** ** [generate_faulted_keys] *)

Lemma emit_None cands :
  snd (emit cands) = None -> Forall (fun c => fits32 (fst c)) cands.
Proof.
  induction cands as [|[x endian] cands IH]; [constructor|].
  cbn [emit]. destruct (to_bytes 32 endian x) as [b|e] eqn:E; [|discriminate].
  destruct (emit cands) as [ys e']. cbn [snd] in *. intros He.
  constructor; [|by apply IH].
  apply to_bytes_Ok in E. by destruct E.
Qed.

Lemma emit_Some cands e : snd (emit cands) = Some e -> e = OverflowError.
Proof.
  induction cands as [|[x endian] cands IH]; [discriminate|].
  cbn [emit]. destruct (to_bytes 32 endian x) as [b|e'] eqn:E.
  - destruct (emit cands) as [ys e'']. cbn [snd] in *. exact IH.
  - cbn [snd]. intros [= <-]. apply to_bytes_Raise in E. by destruct E.
Qed.

Lemma shiftr_1_fits n : 0 <= n -> fits32 (Z.shiftr n 1) <-> n < 2 ^ 257.
Proof.
  intros Hn. rewrite Z.shiftr_div_pow2 by lia. change (2 ^ 1) with 2.
  change (2 ^ 257) with (2 * 2 ^ 256). unfold fits32.
  pose proof (Z.div_mod n 2 ltac:(lia)).
  pose proof (Z.mod_pos_bound n 2 ltac:(lia)).
  assert (0 <= n / 2) by (apply Z.div_pos; lia). lia.
Qed.

Lemma from_bytes_nonneg endian key : 0 <= from_bytes endian key.
Proof.
  destruct endian; cbn [from_bytes]; apply from_bytes_little_range.
Qed.

(** The shifted candidates all fit exactly when the key, read in either
    byte order, is below 2^257. *)
Lemma fits32_shifted_keys_iff key :
  Forall (fun c => fits32 (fst c)) (shifted_keys key) <->
  from_bytes Big key < 2 ^ 257 /\ from_bytes Little key < 2 ^ 257.
Proof.
  split.
  - intros Hall. rewrite List.Forall_forall in Hall.
    assert (Hin : forall endian,
              In (Z.shiftr (from_bytes endian key) 1, endian)
                 (shifted_keys key)).
    { intros endian. unfold shifted_keys. apply in_flat_map.
      exists 1. split; [apply In_range; lia|].
      apply in_flat_map. exists endian.
      split; [destruct endian; cbn; tauto|]. right. by left. }
    split.
    + apply (shiftr_1_fits _ (from_bytes_nonneg Big key)), (Hall _ (Hin Big)).
    + apply (shiftr_1_fits _ (from_bytes_nonneg Little key)),
        (Hall _ (Hin Little)).
  - intros [Hbig Hlittle]. apply List.Forall_forall. intros c Hc.
    unfold shifted_keys in Hc. apply in_flat_map in Hc.
    destruct Hc as [b [Hb Hc]]. apply In_range in Hb.
    apply in_flat_map in Hc. destruct Hc as [endian [_ Hc]].
    pose proof (from_bytes_nonneg endian key) as Hn.
    assert (Hlt : from_bytes endian key < 2 ^ 257) by (by destruct endian).
    rewrite !shiftl_1_pred in Hc.
    assert (Hl0 : fits32 (Z.land (Z.shiftl (from_bytes endian key) b)
                                 (Z.ones 256))) by apply fits32_land_ones.
    assert (Hr0 : fits32 (Z.shiftr (from_bytes endian key) b)).
    { apply fits32_bits; [by apply Z.shiftr_nonneg|].
      intros i Hi. rewrite Z.shiftr_spec by lia.
      apply testbit_above with 257; lia. }
    destruct Hc as [<-|[<-|[<-|[<-|[]]]]]; cbn [fst].
    + exact Hl0.
    + exact Hr0.
    + apply fits32_lor; [exact Hl0 | apply fits32_ones; lia].
    + apply fits32_lor; [exact Hr0 | apply fits32_shiftl_ones; lia].
Qed.

(** X4. The generator ends without raising exactly when the original
    key, read as a big-endian and as a little-endian integer, is below
    2^257 (so for every key of at most 32 bytes); otherwise it raises
    [OverflowError].  In both cases it has first yielded the original key
    under every fault mask. *)
Theorem generator_completes_iff (original_key : bytes) :
  (snd (generate_faulted_keys original_key) = None <->
   from_bytes Big original_key < 2 ^ 257 /\
   from_bytes Little original_key < 2 ^ 257) /\
  (forall e, snd (generate_faulted_keys original_key) = Some e ->
             e = OverflowError) /\
  exists masks rest,
    fault_masks = Ok masks /\
    fst (generate_faulted_keys original_key)
      = map (and_bytes original_key) masks ++ rest.
Proof.
  rewrite generate_faulted_keys_eq. unfold yield_first. cbn [fst snd].
  split; [|split].
  - rewrite <- fits32_shifted_keys_iff. split.
    + intros H. apply emit_None in H. apply Forall_app in H. tauto.
    + intros H. rewrite emit_fits; [reflexivity|].
      apply Forall_app. split; [exact H|].
      apply Forall_app. split;
        [apply fits32_small_keys | apply fits32_corner_keys].
  - intros e. apply emit_Some.
  - eexists _, _. split; [apply fault_masks_Ok | reflexivity].
Qed.

(** X5. On an original key of exactly 32 bytes the generator does not
    raise and every key it yields has exactly 32 bytes. *)
Theorem generated_keys_have_32_bytes (original_key : bytes) :
  length original_key = 32%nat ->
  snd (generate_faulted_keys original_key) = None /\
  Forall (fun k : bytes => length k = 32%nat)
         (fst (generate_faulted_keys original_key)).
Proof.
  intros Hlen. rewrite generate_faulted_keys_short by lia. cbn [fst snd].
  split; [reflexivity|].
  apply Forall_app. split; apply List.Forall_forall; intros k Hk.
  - apply in_map_iff in Hk. destruct Hk as [m [<- Hm]].
    apply in_map_iff in Hm. destruct Hm as [c [<- _]].
    rewrite length_and_bytes, length_encode32. lia.
  - apply in_map_iff in Hk. destruct Hk as [c [<- _]].
    apply length_encode32.
Qed.

Lemma generated_keys_have_32_bytes_witness :
  length untouched_key = 32%nat /\
  snd (generate_faulted_keys untouched_key) = None /\
  Forall (fun k : bytes => length k = 32%nat)
         (fst (generate_faulted_keys untouched_key)).
Proof.
  assert (H : length untouched_key = 32%nat) by reflexivity.
  split; [exact H | exact (generated_keys_have_32_bytes untouched_key H)].
Defined.

(** The bits of a byte followed by the bits of the rest. *)
Lemma testbit_byte_cons x A i :
  0 <= x < 256 -> 0 <= i ->
  Z.testbit (x + 256 * A) i =
    if i <? 8 then Z.testbit x i else Z.testbit A (i - 8).
Proof.
  intros Hx Hi. destruct (Z.ltb_spec i 8) as [Hlt|Hge].
  - rewrite <- (Z.mod_pow2_bits_low (x + 256 * A) 8 i) by lia.
    change (2 ^ 8) with 256.
    replace (x + 256 * A) with (x + A * 256) by lia.
    rewrite Z.mod_add, Z.mod_small by lia. reflexivity.
  - replace i with ((i - 8) + 8) at 1 by lia.
    rewrite <- Z.div_pow2_bits by lia. change (2 ^ 8) with 256.
    replace (x + 256 * A) with (A * 256 + x) by lia.
    rewrite Z.div_add_l, Z.div_small by lia.
    rewrite Z.add_0_r. reflexivity.
Qed.

Lemma and_bytes_little key mask :
  from_bytes_little (and_bytes key mask)
    = Z.land (from_bytes_little key) (from_bytes_little mask).
Proof.
  revert mask. induction key as [|x key IH]; intros [|y mask].
  - reflexivity.
  - reflexivity.
  - cbn [and_bytes zip_with from_bytes_little]. by rewrite Z.land_0_r.
  - unfold and_bytes in *. cbn [zip_with from_bytes_little]. rewrite IH.
    rewrite Z_of_byte_of_Z.
    pose proof (Z_of_byte_range x) as Hx. pose proof (Z_of_byte_range y) as Hy.
    assert (Hr : 0 <= Z.land (Z_of_byte x) (Z_of_byte y) mod 256 < 256)
      by (apply Z.mod_pos_bound; lia).
    apply Z.bits_inj'. intros i Hi.
    rewrite Z.land_spec, !testbit_byte_cons by lia.
    destruct (Z.ltb_spec i 8) as [Hlt|Hge].
    + change 256 with (2 ^ 8). rewrite Z.mod_pow2_bits_low by lia.
      apply Z.land_spec.
    + apply Z.land_spec.
Qed.

Lemma rev_zip_with {A B C} (f : A -> B -> C) l k :
  length l = length k -> rev (zip_with f l k) = zip_with f (rev l) (rev k).
Proof.
  revert k. induction l as [|x l IH]; intros [|y k] Hlen;
    try discriminate; [reflexivity|].
  cbn [zip_with rev]. rewrite IH by (cbn in Hlen; lia).
  rewrite zip_with_app by (rewrite !length_rev; cbn in Hlen; lia).
  reflexivity.
Qed.

Lemma and_bytes_big key mask :
  length key = length mask ->
  from_bytes Big (and_bytes key mask)
    = Z.land (from_bytes Big key) (from_bytes Big mask).
Proof.
  intros Hlen. cbn [from_bytes]. unfold and_bytes.
  rewrite rev_zip_with by exact Hlen. apply and_bytes_little.
Qed.

(** X6. The byte-wise AND of line 86 is the bitwise AND of the integers:
    of the little-endian values for any two byte strings (the longer one is
    cut, as [zip] does), and of the big-endian values when the two have
    the same length. *)
Theorem and_bytes_land (key mask : bytes) :
  from_bytes Little (and_bytes key mask)
    = Z.land (from_bytes Little key) (from_bytes Little mask) /\
  (length key = length mask ->
   from_bytes Big (and_bytes key mask)
     = Z.land (from_bytes Big key) (from_bytes Big mask)).
Proof.
  split; [apply and_bytes_little | apply and_bytes_big].
Qed.

Lemma and_bytes_land_witness :
  length [xf3; x0f] = length [x3c; xff] /\
  from_bytes Big (and_bytes [xf3; x0f] [x3c; xff])
    = Z.land (from_bytes Big [xf3; x0f]) (from_bytes Big [x3c; xff]).
Proof.
  assert (H : length [xf3; x0f] = length [x3c; xff]) by reflexivity.
  split; [exact H|].
  exact (proj2 (and_bytes_land [xf3; x0f] [x3c; xff]) H).
Defined.

Lemma In_block_masks block i :
  In block [8; 32; 64; 128] -> 0 <= i < 256 / block ->
  In (Z.shiftl (Z.ones block) (i * block), Big) block_masks.
Proof.
  intros Hblock Hi. unfold block_masks. apply in_flat_map.
  exists block. split; [exact Hblock|].
  apply in_map_iff. exists i. split; [|apply In_range; lia].
  rewrite Z.ones_equiv. reflexivity.
Qed.

(** X7. For each block size of 8, 32, 64 and 128 bits and each position
    of such a block in the 256 bits, the generator yields for a 32-byte
    original key the 32-byte key that keeps, of the big-endian integer of
    the original key, exactly the bits of that block and clears all the
    others. *)
Theorem block_masks_exhaustive (original_key : bytes) (block i : Z) :
  length original_key = 32%nat ->
  In block [8; 32; 64; 128] -> 0 <= i < 256 / block ->
  exists k,
    In k (fst (generate_faulted_keys original_key)) /\
    length k = 32%nat /\
    forall j, 0 <= j ->
      Z.testbit (from_bytes Big k) j =
        Z.testbit (from_bytes Big original_key) j &&
        ((i * block <=? j) && (j <? (i + 1) * block)).
Proof.
  intros Hlen Hblock Hi.
  set (m := Z.shiftl (Z.ones block) (i * block)).
  assert (Hb : 0 < block)
    by (destruct Hblock as [<-|[<-|[<-|[<-|[]]]]]; lia).
  assert (Hin : In (m, Big) block_masks) by (by apply In_block_masks).
  assert (Hfits : fits32 m).
  { pose proof fits32_block_masks as Hall.
    rewrite List.Forall_forall in Hall. exact (Hall _ Hin). }
  exists (and_bytes original_key (encode32 (m, Big))).
  split; [|split].
  - apply masked_key_generated with (map encode32 (block_masks ++ start_end_masks)).
    + apply fault_masks_Ok.
    + apply in_map, in_app_iff. by left.
  - rewrite length_and_bytes, length_encode32. lia.
  - intros j Hj.
    rewrite (and_bytes_big original_key (encode32 (m, Big)))
      by (rewrite length_encode32; exact Hlen).
    rewrite Z.land_spec. f_equal.
    pose proof (from_bytes_encode32 (m, Big) Hfits) as Hm.
    cbn [fst snd] in Hm.
    change (from_bytes Big (encode32 (m, Big)))
      with (from_bytes_little (rev (encode32 (m, Big)))).
    rewrite Hm. unfold m.
    rewrite Z.shiftl_spec by lia.
    destruct (Z.leb_spec (i * block) j) as [Hle|Hgt].
    + rewrite Z.testbit_ones_nonneg by lia. cbn [andb].
      destruct (Z.ltb_spec (j - i * block) block),
               (Z.ltb_spec j ((i + 1) * block)); try reflexivity; lia.
    + apply Z.testbit_neg_r. lia.
Qed.

Lemma block_masks_exhaustive_witness :
  exists k,
    In k (fst (generate_faulted_keys untouched_key)) /\
    length k = 32%nat /\
    forall j, 0 <= j ->
      Z.testbit (from_bytes Big k) j =
        Z.testbit (from_bytes Big untouched_key) j &&
        ((3 * 32 <=? j) && (j <? (3 + 1) * 32)).
Proof.
  apply (block_masks_exhaustive untouched_key 32 3).
  - reflexivity.
  - right. left. reflexivity.
  - split; [lia | reflexivity].
Defined.

(** X8. After the masks and the shifts the generator sweeps the values of
    one byte: for an original key of at most 32 bytes and every byte [b]
    it yields the key of 31 zero bytes followed by [b] and the key of [b]
    followed by 31 zero bytes. *)
Theorem byte_sweep_yielded (original_key : bytes) (b : byte) :
  (length original_key <= 32)%nat ->
  In (replicate 31 x00 ++ [b]) (fst (generate_faulted_keys original_key)) /\
  In (b :: replicate 31 x00) (fst (generate_faulted_keys original_key)).
Proof.
  intros Hlen. rewrite generate_faulted_keys_short by exact Hlen. cbn [fst].
  pose proof (Z_of_byte_range b) as Hb.
  assert (Hsmall : forall endian, In (Z_of_byte b, endian) small_keys).
  { intros endian. unfold small_keys. apply in_flat_map.
    exists (Z_of_byte b). split.
    - apply In_range. change (Z.shiftl 1 8) with 256. lia.
    - destruct endian; [by left | right; by left]. }
  assert (Henc : to_bytes_little 32 (Z_of_byte b) = b :: replicate 31 x00).
  { change (to_bytes_little 32 (Z_of_byte b))
      with (byte_of_Z (Z_of_byte b)
              :: to_bytes_little 31 (Z.shiftr (Z_of_byte b) 8)).
    rewrite byte_of_Z_of_byte, shiftr_8, Z.div_small by lia.
    by rewrite to_bytes_little_zero. }
  split; apply in_app_iff; right; apply in_map_iff.
  - exists (Z_of_byte b, Big). split.
    + unfold encode32. cbn [fst snd]. rewrite Henc. reflexivity.
    + apply in_app_iff. right. apply in_app_iff. left. apply Hsmall.
  - exists (Z_of_byte b, Little). split.
    + unfold encode32. cbn [fst snd]. exact Henc.
    + apply in_app_iff. right. apply in_app_iff. left. apply Hsmall.
Qed.

Lemma byte_sweep_yielded_witness :
  (length untouched_key <= 32)%nat /\
  In (replicate 31 x00 ++ [x2a]) (fst (generate_faulted_keys untouched_key)) /\
  In (x2a :: replicate 31 x00) (fst (generate_faulted_keys untouched_key)).
Proof.
  assert (H : (length untouched_key <= 32)%nat) by (cbn; lia).
  split; [exact H | exact (byte_sweep_yielded untouched_key x2a H)].
Defined.

(** ** [generate_faulted_results] *)

Section Passes.

Variable derive : bytes -> bytes.

Ltac pass_step faulted_key d :=
  cbn [faulted_results_loop];
  destruct (clamp faulted_key) as [clamped|?] eqn:Eclamp;
    [destruct (d !! hex clamped) as [in_cache|] eqn:Ecached;
       [destruct (fromhex in_cache) as [public|?] eqn:Ehex|]|];
  cbn [loop_yielded loop_invoked loop_dict loop_raised].

Lemma loop_dict_mono keys d h v :
  d !! h = Some v ->
  loop_dict (faulted_results_loop derive keys d) !! h = Some v.
Proof. intros Hd. rewrite loop_dict_spec. by rewrite Hd. Qed.

(** What the loop yields is in the dict when the loop ends. *)
Lemma loop_yielded_recorded keys d clamped_key public_key :
  In (clamped_key, public_key)
     (loop_yielded (faulted_results_loop derive keys d)) ->
  exists v,
    loop_dict (faulted_results_loop derive keys d) !! hex clamped_key = Some v
    /\ fromhex v = Ok public_key.
Proof.
  revert d. induction keys as [|faulted_key keys IH]; intros d.
  - intros [].
  - pass_step faulted_key d.
    + intros [[= <- <-]|Hin]; [|by apply IH].
      exists in_cache. split; [by apply loop_dict_mono | exact Ehex].
    + intros [].
    + intros [[= <- <-]|Hin]; [|by apply IH].
      exists (hex (derive clamped)). split; [|apply fromhex_hex].
      apply loop_dict_mono, lookup_insert_eq.
    + intros [].
Qed.

(** The primitive is invoked at most once on a key. *)
Lemma loop_invoked_NoDup keys d :
  List.NoDup (loop_invoked (faulted_results_loop derive keys d)).
Proof.
  revert d. induction keys as [|faulted_key keys IH]; intros d.
  - constructor.
  - pass_step faulted_key d; try apply IH; try constructor; [|apply IH].
    apply loop_cached_not_invoked. rewrite lookup_insert_eq. eauto.
Qed.

Lemma clamp_length key clamped : clamp key = Ok clamped -> length clamped = 32%nat.
Proof.
  unfold clamp. intros H. apply to_bytes_Ok in H. destruct H as [_ ->].
  apply length_to_bytes_little.
Qed.

(** The primitive is invoked on clamped keys of 32 bytes, and its result
    is yielded with the key. *)
Lemma loop_invoked_yielded keys d :
  Forall (fun k : bytes =>
            length k = 32%nat /\ clamp k = Ok k /\
            In (k, derive k)
               (loop_yielded (faulted_results_loop derive keys d)))
         (loop_invoked (faulted_results_loop derive keys d)).
Proof.
  revert d. induction keys as [|faulted_key keys IH]; intros d.
  - constructor.
  - pass_step faulted_key d; try constructor.
    + eapply Forall_impl; [apply IH|].
      intros k (Hl & Hc & Hin). split; [exact Hl|]. split; [exact Hc|].
      by right.
    + apply clamp_fixed in Eclamp. destruct Eclamp as (Hc & Hl & _).
      split; [exact Hl|]. split; [exact Hc | by left].
    + eapply Forall_impl; [apply IH|].
      intros k (Hl & Hc & Hin). split; [exact Hl|]. split; [exact Hc|].
      by right.
Qed.

(** From a dict that holds results of the primitive only, every pair
    yielded carries the result of the primitive on its key. *)
Lemma loop_yielded_derived keys d :
  (forall k v, d !! hex k = Some v -> v = hex (derive k)) ->
  Forall (fun pair : bytes * bytes => snd pair = derive (fst pair))
         (loop_yielded (faulted_results_loop derive keys d)).
Proof.
  revert d. induction keys as [|faulted_key keys IH]; intros d Hd.
  - constructor.
  - pass_step faulted_key d; try constructor; cbn [fst snd].
    + apply Hd in Ecached. subst in_cache. rewrite fromhex_hex in Ehex.
      by apply Ok_inj in Ehex.
    + by apply IH.
    + reflexivity.
    + apply IH. intros k v. rewrite lookup_insert. case_decide as Hk.
      * apply hex_inj in Hk. subst k. by intros [= <-].
      * apply Hd.
Qed.

Variable derive' : bytes -> bytes.

(** A second run of the loop, with any primitive, from a dict that
    contains the one the first run ended with. *)
Lemma loop_rerun keys d0 d :
  loop_raised (faulted_results_loop derive keys d0) = None ->
  (forall h v,
     loop_dict (faulted_results_loop derive keys d0) !! h = Some v ->
     d !! h = Some v) ->
  faulted_results_loop derive' keys d
    = mkLoopEnd (loop_yielded (faulted_results_loop derive keys d0)) [] d None.
Proof.
  revert d0. induction keys as [|faulted_key keys IH]; intros d0.
  - reflexivity.
  - pass_step faulted_key d0; intros Hr Hsub; try discriminate.
    + assert (Hd : d !! hex clamped = Some in_cache)
        by (by apply Hsub, loop_dict_mono).
      rewrite Hd, Ehex, (IH d0 Hr Hsub). reflexivity.
    + assert (Hd : d !! hex clamped = Some (hex (derive clamped)))
        by (apply Hsub, loop_dict_mono, lookup_insert_eq).
      rewrite Hd, fromhex_hex, (IH _ Hr Hsub). reflexivity.
Qed.

Lemma second_pass_eq stored original_key d :
  written (generate_faulted_results derive stored original_key) = [d] ->
  generate_faulted_results derive' (Some d) original_key
    = mkGeneration
        (yielded (generate_faulted_results derive stored original_key))
        [] [d] None.
Proof.
  rewrite !generate_faulted_results_eq.
  generalize (generate_faulted_keys original_key). intros [keys e].
  cbn [fst snd]. change (default ∅ (Some d)) with d.
  rewrite written_end_of_pass, raised_end_of_pass, yielded_end_of_pass.
  destruct (loop_raised (faulted_results_loop derive keys (default ∅ stored)))
    eqn:Hr; [discriminate|].
  destruct e; [discriminate|]. intros [= <-].
  rewrite (loop_rerun keys (default ∅ stored) _ Hr) by auto.
  reflexivity.
Qed.

End Passes.

(** X9. When a pass has completed and written its cache, a second pass
    over the same original key that loads the written cache never invokes
    the primitive (whatever the primitive is then), yields the same pairs
    in the same order, and writes the same cache again.  A pass completes
    when the original key has at most 32 bytes and the values of the
    loaded cache are hexadecimal text. *)
Theorem second_pass_uses_cache (derive derive' : bytes -> bytes)
    (stored : option (gmap string string)) (original_key : bytes) :
  valid_cache (default ∅ stored) ->
  (length original_key <= 32)%nat ->
  exists d,
    written (generate_faulted_results derive stored original_key) = [d] /\
    invoked (generate_faulted_results derive' (Some d) original_key) = [] /\
    yielded (generate_faulted_results derive' (Some d) original_key)
      = yielded (generate_faulted_results derive stored original_key) /\
    written (generate_faulted_results derive' (Some d) original_key) = [d] /\
    raised (generate_faulted_results derive' (Some d) original_key) = None.
Proof.
  intros Hvalid Hlen.
  destruct (generation_completes derive stored original_key Hvalid Hlen)
    as [Hr _].
  assert (Hw : exists d,
             written (generate_faulted_results derive stored original_key)
               = [d]).
  { revert Hr. rewrite generate_faulted_results_eq.
    generalize (generate_faulted_keys original_key). intros keys Hr.
    rewrite written_end_of_pass, Hr. eauto. }
  destruct Hw as [d Hw]. exists d. split; [exact Hw|].
  rewrite (second_pass_eq derive derive' stored original_key d Hw).
  generalize (yielded (generate_faulted_results derive stored original_key)).
  intros pairs. split; [reflexivity|]. split; [reflexivity|].
  split; reflexivity.
Qed.

Lemma second_pass_uses_cache_witness :
  exists d,
    written (generate_faulted_results stub_public_key None untouched_key)
      = [d] /\
    invoked (generate_faulted_results (fun _ => []) (Some d) untouched_key)
      = [] /\
    yielded (generate_faulted_results (fun _ => []) (Some d) untouched_key)
      = yielded (generate_faulted_results stub_public_key None untouched_key)
    /\
    written (generate_faulted_results (fun _ => []) (Some d) untouched_key)
      = [d] /\
    raised (generate_faulted_results (fun _ => []) (Some d) untouched_key)
      = None.
Proof.
  apply (second_pass_uses_cache stub_public_key (fun _ => []) None
           untouched_key).
  - exact valid_cache_empty.
  - rewrite length_untouched_key. lia.
Defined.

(** X10. Whatever a pass yields is in the cache that it writes: for the
    mapping that a pass writes, every yielded pair of a clamped key and a
    public key has the hex of the key mapped to text that [bytes.fromhex]
    reads back as that public key.  The mapping is written when the
    original key has at most 32 bytes and the values of the loaded cache
    are hexadecimal text. *)
Theorem yielded_pairs_are_cached (derive : bytes -> bytes)
    (stored : option (gmap string string)) (original_key : bytes) :
  Forall (fun d : gmap string string =>
            Forall (fun pair : bytes * bytes =>
                      exists v, d !! hex (fst pair) = Some v /\
                                fromhex v = Ok (snd pair))
                   (yielded (generate_faulted_results derive stored
                                                      original_key)))
         (written (generate_faulted_results derive stored original_key)) /\
  (valid_cache (default ∅ stored) -> (length original_key <= 32)%nat ->
   exists d,
     written (generate_faulted_results derive stored original_key) = [d]).
Proof.
  split.
  - rewrite generate_faulted_results_eq.
    generalize (generate_faulted_keys original_key). intros [keys e].
    cbn [fst snd].
    rewrite written_end_of_pass, raised_end_of_pass, yielded_end_of_pass.
    destruct (loop_raised _); [constructor|].
    destruct e; constructor; [|constructor].
    apply List.Forall_forall. intros [ck pk] Hin. cbn [fst snd].
    by apply loop_yielded_recorded.
  - intros Hvalid Hlen.
    destruct (generation_completes derive stored original_key Hvalid Hlen)
      as [Hr _].
    revert Hr. rewrite generate_faulted_results_eq.
    generalize (generate_faulted_keys original_key). intros keys Hr.
    rewrite written_end_of_pass, Hr. eauto.
Qed.

Lemma yielded_pairs_are_cached_witness :
  exists d,
    written (generate_faulted_results stub_public_key None untouched_key)
      = [d].
Proof.
  apply (proj2 (yielded_pairs_are_cached stub_public_key None untouched_key)).
  - exact valid_cache_empty.
  - rewrite length_untouched_key. lia.
Defined.

(** X11. In a pass without a cache file every yielded pair carries the
    public key that the primitive gives for the clamped key of the pair;
    the same holds from a cache that maps the hex of a key to the hex of
    the primitive's result only. *)
Theorem yielded_pairs_are_derived (derive : bytes -> bytes)
    (stored : option (gmap string string)) (original_key : bytes) :
  (forall k v, default ∅ stored !! hex k = Some v -> v = hex (derive k)) ->
  Forall (fun pair : bytes * bytes => snd pair = derive (fst pair))
         (yielded (generate_faulted_results derive stored original_key)).
Proof.
  intros Hd. rewrite generate_faulted_results_eq, yielded_end_of_pass.
  by apply loop_yielded_derived.
Qed.

Lemma yielded_pairs_are_derived_witness :
  Forall (fun pair : bytes * bytes => snd pair = stub_public_key (fst pair))
         (yielded (generate_faulted_results stub_public_key None
                                            untouched_key)).
Proof.
  apply (yielded_pairs_are_derived stub_public_key None untouched_key).
  intros k v H. unfold default in H. rewrite lookup_empty in H.
  discriminate H.
Defined.

(** X12. Within one pass the primitive is never invoked twice on the same
    key, and every key it is invoked on has 32 bytes, is left unchanged by
    [clamp], and is yielded together with the primitive's result. *)
Theorem primitive_invoked_once (derive : bytes -> bytes)
    (stored : option (gmap string string)) (original_key : bytes) :
  List.NoDup (invoked (generate_faulted_results derive stored original_key))
  /\
  Forall (fun k : bytes =>
            length k = 32%nat /\ clamp k = Ok k /\
            In (k, derive k)
               (yielded (generate_faulted_results derive stored
                                                  original_key)))
         (invoked (generate_faulted_results derive stored original_key)).
Proof.
  rewrite generate_faulted_results_eq, invoked_end_of_pass,
    yielded_end_of_pass.
  split; [apply loop_invoked_NoDup | apply loop_invoked_yielded].
Qed.

(** ** The index of [check_key_shortening] *)

(** One observation changes the entry of its output as [flag] changes
    the dict of an output, and no other entry. *)
Lemma index_lookup_same m r :
  index_observation m r !! output r
    = Some (flag (default ∅ (m !! output r)) r).
Proof.
  unfold index_observation, flag. rewrite !lookup_alter_eq.
  destruct (m !! output r) as [addresses|] eqn:E.
  - rewrite E. reflexivity.
  - rewrite lookup_insert_eq. reflexivity.
Qed.

Lemma index_lookup_other m r o :
  o <> output r -> index_observation m r !! o = m !! o.
Proof.
  intros Hne. unfold index_observation.
  rewrite !lookup_alter_ne by congruence.
  destruct (m !! output r); [reflexivity|].
  apply lookup_insert_ne. congruence.
Qed.

Lemma hit_recorded_index m r o a h :
  hit_recorded (index_observation m r) o a h <->
  hit_recorded m o a h \/ (output r = o /\ address r = a /\ hit r = h).
Proof.
  unfold hit_recorded. destruct (decide (o = output r)) as [->|Hne].
  - rewrite index_lookup_same. split.
    + intros [addresses [[= <-] Hf]]. apply flagged_flag in Hf.
      destruct Hf as [Hf|[-> ->]]; [|by right].
      left. destruct (m !! output r) as [addresses|]; [eauto|].
      by apply not_flagged_empty in Hf.
    + intros [[addresses [Hm Hf]]|(_ & <- & <-)].
      * eexists. split; [reflexivity|]. rewrite Hm. apply flagged_flag.
        by left.
      * eexists. split; [reflexivity|]. apply flagged_flag. by right.
  - rewrite index_lookup_other by exact Hne. split; [by left|].
    intros [H|[Ho _]]; [exact H | congruence].
Qed.

Lemma is_Some_index m r o :
  is_Some (index_observation m r !! o) <->
  is_Some (m !! o) \/ output r = o.
Proof.
  destruct (decide (o = output r)) as [->|Hne].
  - rewrite index_lookup_same. split; [by right | eauto].
  - rewrite index_lookup_other by exact Hne. split; [by left|].
    intros [H|Ho]; [exact H | congruence].
Qed.

Lemma index_observations_fold obs m o a h :
  (is_Some (fold_left index_observation obs m !! o) <->
   is_Some (m !! o) \/ exists r, In r obs /\ output r = o) /\
  (hit_recorded (fold_left index_observation obs m) o a h <->
   hit_recorded m o a h \/
   exists r, In r obs /\ output r = o /\ address r = a /\ hit r = h).
Proof.
  revert m. induction obs as [|r obs IH]; intros m.
  - cbn. split; (split; [by left|]); intros [H|[r [[] _]]]; exact H.
  - cbn [fold_left]. destruct (IH (index_observation m r)) as [IH1 IH2].
    rewrite IH1, IH2, is_Some_index, hit_recorded_index. cbn [In].
    split; split.
    + intros [[H|H]|[r' [Hin H]]]; [by left | right | right]; eauto.
    + intros [H|[r' [[<-|Hin] H]]]; [left; by left | left; by right|].
      right. eauto.
    + intros [[H|H]|[r' [Hin H]]]; [by left | right | right]; eauto.
    + intros [H|[r' [[<-|Hin] H]]]; [left; by left | left; by right|].
      right. eauto.
Qed.

(** X13. The index that [check_key_shortening] builds from a trace has an
    entry for an output exactly when some observation has this output,
    and it records a hit count at an address for an output exactly when
    some observation has this output, this address and this hit count. *)
Theorem index_observations_spec (observations : list SimulationResult)
    (o a : string) (h : N) :
  (is_Some (index_observations observations !! o) <->
   exists r, In r observations /\ output r = o) /\
  (hit_recorded (index_observations observations) o a h <->
   exists r, In r observations /\
             output r = o /\ address r = a /\ hit r = h).
Proof.
  unfold index_observations.
  destruct (index_observations_fold observations ∅ o a h) as [H1 H2].
  rewrite H1, H2. split; split; try (intros H; by right).
  - intros [H|H]; [|exact H]. rewrite lookup_empty in H. by destruct H.
  - intros [[addresses [H _]]|H]; [|exact H].
    by rewrite lookup_empty in H.
Qed.

(** ** The order of the report of [check_key_shortening] *)

Section Sorting.

Context {A : Type} (key : A -> Z).

Local Abbreviation descending := (fun x y : A => key y <= key x).

Lemma insert_descending_Forall (P : A -> Prop) x l :
  P x -> Forall P l -> Forall P (insert_descending key x l).
Proof.
  intros Hx Hl. induction Hl as [|y l Hy Hl IH]; cbn [insert_descending].
  - by constructor.
  - destruct (key y <? key x); repeat constructor; assumption.
Qed.

Lemma insert_descending_sorted x l :
  StronglySorted descending l ->
  StronglySorted descending (insert_descending key x l).
Proof.
  induction 1 as [|y l Hs IH Hy]; cbn [insert_descending].
  - repeat constructor.
  - destruct (Z.ltb_spec (key y) (key x)) as [Hlt|Hge].
    + constructor; [by constructor|].
      constructor; [lia|].
      eapply Forall_impl; [exact Hy|]. cbn. intros z Hz. lia.
    + constructor; [exact IH|].
      by apply insert_descending_Forall.
Qed.

Lemma insert_descending_filter c x l :
  StronglySorted descending l ->
  List.filter (fun y => key y =? c) (insert_descending key x l)
    = List.filter (fun y => key y =? c) l
        ++ (if key x =? c then [x] else []).
Proof.
  induction 1 as [|y l Hs IH Hy]; cbn [insert_descending].
  - cbn. by destruct (key x =? c).
  - destruct (Z.ltb_spec (key y) (key x)) as [Hlt|Hge].
    + cbn [List.filter]. destruct (Z.eqb_spec (key x) c) as [Hx|Hx].
      * assert (Hnone : List.filter (fun y => key y =? c) (y :: l) = []).
        { clear IH Hs. cbn [List.filter].
          destruct (Z.eqb_spec (key y) c); [lia|].
          induction Hy as [|z l Hz Hy IH]; [reflexivity|].
          cbn [List.filter]. destruct (Z.eqb_spec (key z) c); [lia|].
          exact IH. }
        cbn [List.filter] in Hnone. rewrite Hnone. reflexivity.
      * by rewrite app_nil_r.
    + cbn [List.filter]. rewrite IH.
      by destruct (key y =? c).
Qed.

Lemma sorted_descending_fold l acc :
  StronglySorted descending acc ->
  StronglySorted descending
    (fold_left (fun acc x => insert_descending key x acc) l acc) /\
  forall c,
    List.filter (fun y => key y =? c)
                (fold_left (fun acc x => insert_descending key x acc) l acc)
      = List.filter (fun y => key y =? c) acc
          ++ List.filter (fun y => key y =? c) l.
Proof.
  revert acc. induction l as [|x l IH]; intros acc Hacc.
  - cbn. split; [exact Hacc|]. intros c. by rewrite app_nil_r.
  - cbn [fold_left].
    destruct (IH _ (insert_descending_sorted x acc Hacc)) as [Hs Hf].
    split; [exact Hs|]. intros c.
    rewrite Hf, insert_descending_filter by exact Hacc.
    rewrite <- app_assoc. cbn [List.filter].
    by destruct (key x =? c).
Qed.

(** The sort of line 172 gives the items by key, greatest first, and
    keeps the items of equal key in their order. *)
Lemma sorted_descending_spec l :
  StronglySorted descending (sorted_descending key l) /\
  forall c,
    List.filter (fun y => key y =? c) (sorted_descending key l)
      = List.filter (fun y => key y =? c) l.
Proof.
  unfold sorted_descending.
  destruct (sorted_descending_fold l [] ltac:(constructor)) as [Hs Hf].
  split; [exact Hs|]. intros c. by rewrite Hf.
Qed.

End Sorting.

(** X14. [check_key_shortening] reports the effective keys by the number
    of bits in which they differ from the untouched key, greatest first;
    the keys with the same number of such bits are reported in the order
    in which the generator first yielded them with an observed output. *)
Theorem report_is_sorted (derive : bytes -> bytes) (fs : filesystem)
    (stored : option (gmap string string)) (output_dir : string)
    (observations : list SimulationResult) :
  parse_output fs output_dir = Ok observations ->
  let g := generate_faulted_results derive stored untouched_key in
  let seen_effective_keys :=
    fold_left (see_effective_key (index_observations observations))
              (yielded g) [] in
  exists report,
    check_key_shortening derive fs stored output_dir =
      shortening_outcome g report /\
    StronglySorted (fun x y => bits_removed y <= bits_removed x) report /\
    forall c,
      List.filter (fun item => bits_removed item =? c) report
        = List.filter (fun item => bits_removed item =? c)
                      seen_effective_keys.
Proof.
  intros Hparse g seen_effective_keys. subst g seen_effective_keys.
  rewrite (check_key_shortening_eq _ _ _ _ _ Hparse).
  generalize (generate_faulted_results derive stored untouched_key).
  intros g.
  exists (sorted_descending bits_removed
            (fold_left (see_effective_key (index_observations observations))
                       (yielded g) [])).
  split.
  - unfold report_effective_keys, shortening_outcome. by destruct (raised g).
  - apply sorted_descending_spec.
Qed.

Lemma report_is_sorted_witness :
  let observations := [observation "0x8000a4" 1 7 "aa"] in
  let g := generate_faulted_results stub_public_key (Some colliding_cache)
                                    untouched_key in
  let seen_effective_keys :=
    fold_left (see_effective_key (index_observations observations))
              (yielded g) [] in
  parse_output one_observation "outputs" = Ok observations /\
  exists report,
    check_key_shortening stub_public_key one_observation
                         (Some colliding_cache) "outputs" =
      shortening_outcome g report /\
    StronglySorted (fun x y => bits_removed y <= bits_removed x) report /\
    forall c,
      List.filter (fun item => bits_removed item =? c) report
        = List.filter (fun item => bits_removed item =? c)
                      seen_effective_keys.
Proof.
  cbv zeta.
  assert (H : parse_output one_observation "outputs"
              = Ok [observation "0x8000a4" 1 7 "aa"])
    by (vm_compute; reflexivity).
  split; [exact H|].
  exact (report_is_sorted stub_public_key one_observation
           (Some colliding_cache) "outputs" _ H).
Defined.

(** ** [check_known_outputs] *)

(** On a known output the dict of [check_known_outputs] changes as the
    index of [check_key_shortening] does. *)
Lemma see_known_output_known known m r :
  output r ∈ known -> see_known_output known m r = index_observation m r.
Proof.
  intros Hknown. unfold see_known_output, index_observation.
  rewrite bool_decide_eq_true_2 by exact Hknown.
  destruct (m !! output r) as [addresses|] eqn:E.
  - rewrite alter_alter_eq.
    destruct (addresses !! address r) as [hits|] eqn:Ea;
      apply alter_ext; intros x Hx; rewrite E in Hx; injection Hx as <-;
      cbn; rewrite Ea; [reflexivity|].
    rewrite alter_insert_eq. by rewrite (left_id_L ∅ (∪)).
  - rewrite !alter_insert_eq, lookup_empty, alter_insert_eq, insert_empty.
    by rewrite (left_id_L ∅ (∪)).
Qed.

Lemma see_known_output_unknown known m r :
  output r ∉ known -> see_known_output known m r = m.
Proof.
  intros Hunknown. unfold see_known_output.
  by rewrite bool_decide_eq_false_2 by exact Hunknown.
Qed.

Lemma see_known_outputs_fold known obs m1 m2 o :
  m1 !! o = (if bool_decide (o ∈ known) then m2 !! o else None) ->
  fold_left (see_known_output known) obs m1 !! o
    = if bool_decide (o ∈ known)
      then fold_left index_observation obs m2 !! o
      else None.
Proof.
  revert m1 m2. induction obs as [|r obs IH]; intros m1 m2 Hm;
    [exact Hm|].
  cbn [fold_left]. apply IH.
  destruct (decide (output r ∈ known)) as [Hr|Hr].
  - rewrite see_known_output_known by exact Hr.
    destruct (decide (o = output r)) as [->|Hne].
    + rewrite bool_decide_eq_true_2 in * by exact Hr.
      by rewrite !index_lookup_same, Hm.
    + by rewrite !index_lookup_other by exact Hne.
  - rewrite see_known_output_unknown by exact Hr.
    case_bool_decide as Ho; [|exact Hm].
    rewrite index_lookup_other; [exact Hm|]. congruence.
Qed.

(** X15. [check_known_outputs] raises [FileNotFoundError] when
    known_outputs.txt does not exist, whatever the trace directory holds;
    it raises what [parse_output] raises; otherwise the dict it reports
    is the index of [check_key_shortening] over the same trace, restricted
    to the outputs that are lines of known_outputs.txt. *)
Theorem known_outputs_restrict_index (fs : filesystem)
    (lines : list string) (output_dir : string) :
  check_known_outputs fs None output_dir = Raise FileNotFoundError /\
  (forall e, parse_output fs output_dir = Raise e ->
             check_known_outputs fs (Some lines) output_dir = Raise e) /\
  (forall observations,
     parse_output fs output_dir = Ok observations ->
     exists seen_known_outputs,
       check_known_outputs fs (Some lines) output_dir
         = Ok seen_known_outputs /\
       forall o,
         seen_known_outputs !! o
           = if bool_decide (o ∈ lines)
             then index_observations observations !! o
             else None).
Proof.
  split; [reflexivity|]. unfold check_known_outputs. split.
  - by intros e ->.
  - intros observations ->. eexists. split; [reflexivity|]. intros o.
    rewrite (see_known_outputs_fold _ observations ∅ ∅ o).
    + unfold index_observations.
      destruct (decide (o ∈ lines)) as [Ho|Ho].
      * rewrite !bool_decide_eq_true_2; [reflexivity | exact Ho|].
        by apply elem_of_list_to_set.
      * rewrite !bool_decide_eq_false_2; [reflexivity | exact Ho|].
        by rewrite elem_of_list_to_set.
    + rewrite lookup_empty. by destruct (bool_decide _).
Qed.

Lemma known_outputs_restrict_index_witness :
  parse_output one_observation "outputs"
    = Ok [observation "0x8000a4" 1 7 "aa"] /\
  exists seen_known_outputs,
    check_known_outputs one_observation (Some ["bb"; "aa"]%string) "outputs"
      = Ok seen_known_outputs /\
    forall o,
      seen_known_outputs !! o
        = if bool_decide (o ∈ ["bb"; "aa"]%string)
          then index_observations [observation "0x8000a4" 1 7 "aa"] !! o
          else None.
Proof.
  assert (H : parse_output one_observation "outputs"
              = Ok [observation "0x8000a4" 1 7 "aa"])
    by (vm_compute; reflexivity).
  split; [exact H|].
  exact (proj2 (proj2 (known_outputs_restrict_index one_observation
                         ["bb"; "aa"]%string "outputs")) _ H).
Defined.

(** X16. [check_predictable_outputs] runs the two detectors in order on
    the same directory: when the trace is parsed and the pass of the key
    generator completes it gives the report of [check_key_shortening]
    and, when known_outputs.txt exists, the dict of
    [check_known_outputs]; when the file does not exist it raises
    [FileNotFoundError] only after the first detector has run, and
    written the cache; an exception of the first detector ends it before
    known_outputs.txt is opened. *)
Theorem predictable_outputs_sequence (derive : bytes -> bytes)
    (fs : filesystem) (stored : option (gmap string string))
    (known_outputs_txt : option (list string)) (output_dir : string) :
  (forall e,
     check_key_shortening derive fs stored output_dir = Raise e ->
     check_predictable_outputs derive fs stored known_outputs_txt output_dir
       = Raise e) /\
  (forall observations,
     parse_output fs output_dir = Ok observations ->
     valid_cache (default ∅ stored) ->
     exists report,
       check_key_shortening derive fs stored output_dir = Ok report /\
       length (cache_written report) = 1%nat /\
       check_predictable_outputs derive fs stored known_outputs_txt
                                 output_dir
         = match known_outputs_txt with
           | None => Raise FileNotFoundError
           | Some lines =>
               Ok (report,
                   fold_left (see_known_output (list_to_set lines))
                             observations ∅)
           end).
Proof.
  split.
  - intros e He. unfold check_predictable_outputs. by rewrite He.
  - intros observations Hparse Hvalid.
    unfold check_predictable_outputs, check_known_outputs.
    rewrite (check_key_shortening_eq _ _ _ _ _ Hparse), Hparse.
    destruct (generation_completes derive stored untouched_key Hvalid
                length_untouched_key) as [Hr _].
    assert (Hw : length (written (generate_faulted_results derive stored
                                    untouched_key)) = 1%nat).
    { revert Hr. rewrite generate_faulted_results_eq.
      generalize (generate_faulted_keys untouched_key). intros keys Hr.
      by rewrite written_end_of_pass, Hr. }
    revert Hr Hw.
    generalize (generate_faulted_results derive stored untouched_key).
    intros g Hr Hw. unfold report_effective_keys. rewrite Hr.
    eexists. split; [reflexivity|]. split; [exact Hw|].
    by destruct known_outputs_txt.
Qed.

Lemma predictable_outputs_sequence_witness :
  parse_output one_observation "outputs"
    = Ok [observation "0x8000a4" 1 7 "aa"] /\
  valid_cache (default ∅ None) /\
  exists report,
    check_key_shortening stub_public_key one_observation None "outputs"
      = Ok report /\
    length (cache_written report) = 1%nat /\
    check_predictable_outputs stub_public_key one_observation None None
                              "outputs"
      = Raise FileNotFoundError.
Proof.
  assert (H : parse_output one_observation "outputs"
              = Ok [observation "0x8000a4" 1 7 "aa"])
    by (vm_compute; reflexivity).
  split; [exact H|]. split; [exact valid_cache_empty|].
  exact (proj2 (predictable_outputs_sequence stub_public_key one_observation
                  None None "outputs") _ H valid_cache_empty).
Defined.

(** ** [check_safe_error] *)

Lemma find_app {A} (p : A -> bool) l k :
  List.find p (l ++ k)
    = match List.find p l with
      | Some x => Some x
      | None => List.find p k
      end.
Proof.
  induction l as [|x l IH]; [reflexivity|].
  cbn [app List.find]. by destruct (p x).
Qed.

(** The array after the stores of lines 222-225: at each index the last
    observation stored there. *)
Lemma place_last results_sim ordered :
  Forall (fun r => (N.to_nat (instruction r) < length ordered)%nat)
         results_sim ->
  exists ordered',
    place results_sim ordered = Ok ordered' /\
    forall i,
      mjoin (ordered' !! i)
        = match List.find (fun r => N.to_nat (instruction r) =? i)%nat
                          (rev results_sim) with
          | Some r => Some r
          | None => mjoin (ordered !! i)
          end.
Proof.
  intros Hall. revert ordered Hall.
  induction results_sim as [|r rs IH]; intros ordered Hall.
  - exists ordered. split; reflexivity.
  - apply Forall_cons in Hall. destruct Hall as [Hr Hrs].
    cbn [place]. destruct (Nat.ltb_spec (N.to_nat (instruction r))
                                        (length ordered)); [|lia].
    destruct (IH (<[N.to_nat (instruction r) := Some r]> ordered))
      as [ordered' [Hp Hl]].
    { eapply Forall_impl; [exact Hrs|]. cbn. intros r'.
      by rewrite length_insert. }
    exists ordered'. split; [exact Hp|]. intros i.
    rewrite Hl. cbn [rev]. rewrite find_app.
    destruct (List.find _ (rev rs)); [reflexivity|].
    cbn [List.find].
    destruct (Nat.eqb_spec (N.to_nat (instruction r)) i) as [<-|Hne].
    + by rewrite list_lookup_insert_eq by lia.
    + by rewrite list_lookup_insert_ne by exact Hne.
Qed.

(** X17. When every instruction index of a trace is below 1,000,000, the
    array of [check_safe_error] holds at each index the last observation
    of the trace with this instruction index, and nothing where there is
    none: of several observations with the same instruction index only
    the last one is compared. *)
Theorem last_observation_kept (results_sim : list SimulationResult) (i : nat) :
  Forall (fun r => (instruction r < 1000000)%N) results_sim ->
  observation_at results_sim i
    = List.find (fun r => N.to_nat (instruction r) =? i)%nat
                (rev results_sim).
Proof.
  intros Hall. unfold observation_at.
  destruct (place_last results_sim (replicate capacity None))
    as [ordered [Hp Hl]].
  { eapply Forall_impl; [exact Hall|]. cbn. intros r Hr.
    rewrite length_replicate, capacity_eq. lia. }
  rewrite Hp, Hl. destruct (List.find _ _); [reflexivity|].
  destruct (replicate capacity None !! i) as [x|] eqn:E; [|reflexivity].
  apply lookup_replicate in E. by destruct E as [-> _].
Qed.

Lemma last_observation_kept_witness :
  Forall (fun r => (instruction r < 1000000)%N)
         [observation "0x8000a4" 1 5 "00"; observation "0x8000b0" 2 5 "ff"] /\
  observation_at
    [observation "0x8000a4" 1 5 "00"; observation "0x8000b0" 2 5 "ff"] 5
    = List.find (fun r => N.to_nat (instruction r) =? 5)%nat
                (rev [observation "0x8000a4" 1 5 "00";
                      observation "0x8000b0" 2 5 "ff"]).
Proof.
  assert (H : Forall (fun r => (instruction r < 1000000)%N)
                [observation "0x8000a4" 1 5 "00";
                 observation "0x8000b0" 2 5 "ff"])
    by (repeat constructor).
  split; [exact H | exact (last_observation_kept _ 5%nat H)].
Defined.

Section SafeErrorOutcome.

Variable derive : bytes -> bytes.

Lemma safe_error_Raise results_sim_1 results_sim_2 e :
  safe_error_of_traces derive results_sim_1 results_sim_2 = Raise e ->
  (e = IndexError /\
   exists r, r ∈ results_sim_1 ++ results_sim_2 /\
             (1000000 <= instruction r)%N) \/
  (e = AssertionError /\
   Forall (fun r => (instruction r < 1000000)%N)
          (results_sim_1 ++ results_sim_2)).
Proof.
  unfold safe_error_of_traces. intros H.
  assert (Hcap : forall r : SimulationResult,
             (length (replicate capacity (@None SimulationResult))
                <= N.to_nat (instruction r))%nat ->
             (1000000 <= instruction r)%N).
  { intros r. rewrite length_replicate, capacity_eq. lia. }
  destruct (place results_sim_1 (replicate capacity None))
    as [o1|e1] eqn:E1.
  2: { injection H as <-. apply place_Raise in E1.
       destruct E1 as [-> [r [Hin Hle]]]. left. split; [reflexivity|].
       exists r. split; [apply elem_of_app; by left | by apply Hcap]. }
  destruct (place results_sim_2 (replicate capacity None))
    as [o2|e2] eqn:E2.
  2: { injection H as <-. apply place_Raise in E2.
       destruct E2 as [-> [r [Hin Hle]]]. left. split; [reflexivity|].
       exists r. split; [apply elem_of_app; by right | by apply Hcap]. }
  apply compare_runs_Raise in H. destruct H as [-> _].
  right. split; [reflexivity|].
  apply List.Forall_forall. intros r Hin.
  destruct (N.lt_ge_cases (instruction r) 1000000) as [Hlt|Hge];
    [exact Hlt|].
  exfalso. apply in_app_iff in Hin.
  assert (Hlen : (length (replicate capacity (@None SimulationResult))
                  <= N.to_nat (instruction r))%nat)
    by (rewrite length_replicate, capacity_eq; lia).
  destruct Hin as [Hin|Hin].
  - rewrite (place_out_of_range results_sim_1 _ r) in E1;
      [discriminate | by apply list_elem_of_In | exact Hlen].
  - rewrite (place_out_of_range results_sim_2 _ r) in E2;
      [discriminate | by apply list_elem_of_In | exact Hlen].
Qed.

End SafeErrorOutcome.

(** X18. Once both traces are parsed, [check_safe_error] raises
    [IndexError] exactly when some instruction index of either trace is
    1,000,000 or more, also when aligned observations differ; it returns
    its dict exactly when all the instruction indices are below 1,000,000
    and no aligned pair of observations differs in address, hit count or
    instruction index; when it raises, the exception is [IndexError] or
    [AssertionError]. *)
Theorem safe_error_outcomes (derive : bytes -> bytes)
    (fs : filesystem) (output_dir_1 output_dir_2 : string)
    (results_sim_1 results_sim_2 : list SimulationResult) :
  parse_output fs output_dir_1 = Ok results_sim_1 ->
  parse_output fs output_dir_2 = Ok results_sim_2 ->
  (check_safe_error derive fs output_dir_1 output_dir_2 = Raise IndexError
   <-> exists r, r ∈ results_sim_1 ++ results_sim_2 /\
                 (1000000 <= instruction r)%N) /\
  ((exists prone,
      check_safe_error derive fs output_dir_1 output_dir_2 = Ok prone)
   <-> Forall (fun r => (instruction r < 1000000)%N)
              (results_sim_1 ++ results_sim_2) /\
       ~ exists r1 r2, aligned results_sim_1 results_sim_2 r1 r2 /\
                       differ r1 r2) /\
  (forall e,
     check_safe_error derive fs output_dir_1 output_dir_2 = Raise e ->
     e = IndexError \/ e = AssertionError).
Proof.
  intros H1 H2. unfold check_safe_error. rewrite H1, H2.
  pose proof (safe_error_Raise derive results_sim_1 results_sim_2) as HR.
  pose proof (safe_error_Raise_Assertion derive results_sim_1 results_sim_2)
    as HA.
  pose proof (safe_error_out_of_range derive results_sim_1 results_sim_2)
    as HI.
  destruct (safe_error_of_traces derive results_sim_1 results_sim_2)
    as [prone|e] eqn:E.
  - split; [|split].
    + split; [discriminate|]. intros [r [Hin Hge]].
      discriminate (HI r Hin Hge).
    + split; [|eauto]. intros _. split.
      * apply List.Forall_forall. intros r Hin.
        destruct (N.lt_ge_cases (instruction r) 1000000) as [Hlt|Hge];
          [exact Hlt|].
        apply list_elem_of_In in Hin. discriminate (HI r Hin Hge).
      * intros Hd. apply HA in Hd. discriminate Hd.
    + discriminate.
  - destruct (HR e eq_refl) as [[-> [r [Hin Hge]]]|[-> Hall]].
    + split; [|split].
      * split; [eauto | reflexivity].
      * split; [intros [prone [=]]|]. intros [Hall _].
        rewrite List.Forall_forall in Hall.
        apply list_elem_of_In, Hall in Hin. lia.
      * intros e [= <-]. by left.
    + split; [|split].
      * split; [discriminate|]. intros [r [Hin Hge]].
        rewrite List.Forall_forall in Hall.
        apply list_elem_of_In, Hall in Hin. lia.
      * split; [intros [prone [=]]|]. intros [_ Hno].
        exfalso. apply Hno, HA. reflexivity.
      * intros e [= <-]. by right.
Qed.

Lemma safe_error_outcomes_witness :
  let rs1 := [observation "0x8000a4" 1 5 "00"] in
  let rs2 := [observation "0x8000a4" 1 5 "ff"] in
  parse_output aligned_runs "outputs-93" = Ok rs1 /\
  parse_output aligned_runs "outputs-6c" = Ok rs2 /\
  ((exists prone,
      check_safe_error stub_public_key aligned_runs "outputs-93" "outputs-6c"
        = Ok prone)
   <-> Forall (fun r => (instruction r < 1000000)%N) (rs1 ++ rs2) /\
       ~ exists r1 r2, aligned rs1 rs2 r1 r2 /\ differ r1 r2).
Proof.
  cbv zeta.
  assert (H1 : parse_output aligned_runs "outputs-93"
               = Ok [observation "0x8000a4" 1 5 "00"])
    by (vm_compute; reflexivity).
  assert (H2 : parse_output aligned_runs "outputs-6c"
               = Ok [observation "0x8000a4" 1 5 "ff"])
    by (vm_compute; reflexivity).
  split; [exact H1|]. split; [exact H2|].
  exact (proj1 (proj2 (safe_error_outcomes stub_public_key aligned_runs
                         "outputs-93" "outputs-6c" _ _ H1 H2))).
Defined.

(** ** [parse_output] *)

Lemma append_assoc (s1 s2 s3 : string) :
  String.append (String.append s1 s2) s3
    = String.append s1 (String.append s2 s3).
Proof.
  induction s1 as [|c s1 IH]; [reflexivity|].
  change (String c (String.append (String.append s1 s2) s3)
          = String c (String.append s1 (String.append s2 s3))).
  by rewrite IH.
Qed.

Lemma append_empty_r (s : string) : String.append s "" = s.
Proof.
  induction s as [|c s IH]; [reflexivity|].
  change (String c (String.append s "") = String c s). by rewrite IH.
Qed.

Lemma txt_entries_Forall entries :
  Forall (fun entry => endswith (fst entry) ".txt" = true)
         (txt_entries entries).
Proof.
  apply List.Forall_forall. intros entry Hin.
  unfold txt_entries in Hin. apply filter_In in Hin. tauto.
Qed.

(** The loop of lines 32-35 on .txt entries that can all be read. *)
Lemma read_txt_files_readable entries output :
  Forall (fun entry => endswith (fst entry) ".txt" = true) entries ->
  forallb readable entries = true ->
  read_txt_files entries output
    = Ok (String.append output (file_contents entries)).
Proof.
  intros Htxt. revert output.
  induction Htxt as [|[filename f] entries Hname _ IH]; intros output Hr.
  - cbn. by rewrite append_empty_r.
  - cbn [fst] in Hname. cbn [read_txt_files file_contents]. rewrite Hname.
    cbn [forallb] in Hr. apply andb_true_iff in Hr. destruct Hr as [Hf Hr].
    destruct f as [content|e]; [|discriminate Hf].
    rewrite IH by exact Hr. by rewrite append_assoc.
Qed.

(** The loop stops at the first .txt entry that cannot be read. *)
Lemma read_txt_files_unreadable pre filename e post output :
  Forall (fun entry => endswith (fst entry) ".txt" = true)
         (pre ++ (filename, Unreadable e) :: post) ->
  forallb readable pre = true ->
  read_txt_files (pre ++ (filename, Unreadable e) :: post) output = Raise e.
Proof.
  revert output. induction pre as [|[name f] pre IH]; intros output Htxt Hr.
  - apply Forall_cons in Htxt. destruct Htxt as [Hname _].
    cbn [fst] in Hname. cbn [app read_txt_files]. by rewrite Hname.
  - cbn [app] in Htxt. apply Forall_cons in Htxt.
    destruct Htxt as [Hname Htxt]. cbn [fst] in Hname.
    cbn [forallb] in Hr. apply andb_true_iff in Hr. destruct Hr as [Hf Hr].
    cbn [app read_txt_files]. rewrite Hname.
    destruct f as [content|e']; [|discriminate Hf].
    by apply IH.
Qed.

(** X19. [parse_output] scans the contents of the .txt files of the
    directory joined in the order of the listing, with nothing between
    them, when all of them can be read; when one cannot be read it raises
    the exception of the first such file and yields nothing, whatever the
    files before it hold. *)
Theorem parse_output_reads_in_order (fs : filesystem) (output_dir : string)
    (entries : list (string * node)) :
  fs !! output_dir = Some entries ->
  (forallb readable (txt_entries entries) = true ->
   parse_output fs output_dir
     = Ok (parse_text (file_contents (txt_entries entries)))) /\
  (forall pre filename e post,
     txt_entries entries = pre ++ (filename, Unreadable e) :: post ->
     forallb readable pre = true ->
     parse_output fs output_dir = Raise e).
Proof.
  intros Hdir. unfold parse_output. rewrite Hdir.
  rewrite <- read_txt_files_txt_entries.
  pose proof (txt_entries_Forall entries) as Htxt. split.
  - intros Hr. by rewrite read_txt_files_readable.
  - intros pre filename e post Heq Hr. rewrite Heq in *.
    by rewrite read_txt_files_unreadable.
Qed.

Lemma parse_output_reads_in_order_witness :
  let entries :=
    [("a.txt", File "##### Fault. Address: 0x8000a4. Hit: 1. Instr");
     ("notes.log", Unreadable OSError);
     ("b.txt", File "uction: 7
Run result: exit
Output (hex): aa
")] in
  let fs : filesystem := {[ "outputs" := entries ]} in
  fs !! "outputs" = Some entries /\
  forallb readable (txt_entries entries) = true /\
  parse_output fs "outputs"
    = Ok (parse_text (file_contents (txt_entries entries))) /\
  parse_text (file_contents (txt_entries entries))
    = [observation "0x8000a4" 1 7 "aa"].
Proof.
  cbv zeta.
  set (entries :=
    [("a.txt", File "##### Fault. Address: 0x8000a4. Hit: 1. Instr");
     ("notes.log", Unreadable OSError);
     ("b.txt", File "uction: 7
Run result: exit
Output (hex): aa
")]).
  assert (Hdir : ({[ "outputs" := entries ]} : filesystem) !! "outputs"
                 = Some entries) by apply lookup_singleton_eq.
  assert (Hr : forallb readable (txt_entries entries) = true)
    by (vm_compute; reflexivity).
  split; [exact Hdir|]. split; [exact Hr|]. split.
  - exact (proj1 (parse_output_reads_in_order _ "outputs" entries Hdir) Hr).
  - vm_compute. reflexivity.
Defined.

Lemma trace_pattern_head :
  trace_pattern = Lit "#"%char :: List.tl trace_pattern.
Proof. reflexivity. Qed.

Lemma match_at_no_marker s :
  match s with
  | [] => True
  | c :: _ => c <> "#"%char
  end ->
  match_at trace_pattern s = None.
Proof.
  intros Hs. unfold match_at. rewrite trace_pattern_head.
  destruct s as [|c s]; [reflexivity|]. cbn [run].
  destruct (Ascii.eqb_spec c "#"%char); [contradiction | reflexivity].
Qed.

(** X20. A text without the character [#] has no observation: the
    pattern of [parse_output] finds a block only at a [#]. *)
Theorem no_marker_no_observation (text : string) :
  Forall (fun c => c <> "#"%char) (list_ascii_of_string text) ->
  parse_text text = [].
Proof.
  unfold parse_text, findall. intros Hall.
  induction Hall as [|c s Hc _ IH].
  - cbn [findall_from]. by rewrite match_at_no_marker.
  - cbn [findall_from]. rewrite match_at_no_marker by exact Hc. exact IH.
Qed.

Lemma no_marker_no_observation_witness :
  Forall (fun c => c <> "#"%char) (list_ascii_of_string "Hit: 1") /\
  parse_text "Hit: 1" = [].
Proof.
  assert (H : Forall (fun c => c <> "#"%char)
                (list_ascii_of_string "Hit: 1"))
    by (repeat constructor; discriminate).
  split; [exact H | exact (no_marker_no_observation "Hit: 1" H)].
Defined.

(** ** The pattern of [parse_output] on a well-formed block *)

Local Abbreviation consume_all := (fold_left (fun st c => consume c st)).

Lemma consume_all_open w cl acc :
  consume_all w (mkMstate cl (Some acc)) = mkMstate cl (Some (rev w ++ acc)).
Proof.
  revert acc. induction w as [|c w IH]; intros acc; [reflexivity|].
  cbn [fold_left rev]. unfold consume at 2. cbn [closed opened option_map].
  rewrite IH, <- app_assoc. reflexivity.
Qed.

Lemma consume_all_none w cl :
  consume_all w (mkMstate cl None) = mkMstate cl None.
Proof. induction w as [|c w IH]; [reflexivity|]. exact IH. Qed.

Lemma run_lits l pat s st :
  run (map Lit l ++ pat) (l ++ s) st = run pat s (consume_all l st).
Proof.
  revert st. induction l as [|c l IH]; intros st; [reflexivity|].
  cbn [map app run fold_left]. rewrite Ascii.eqb_refl. apply IH.
Qed.

Lemma run_lazy_step p pat s x st :
  run (LazyPlus p :: pat) (x :: s) st
    = if p x then
        match run pat s (consume x st) with
        | Some r => Some r
        | None => run (LazyPlus p :: pat) s (consume x st)
        end
      else None.
Proof. reflexivity. Qed.

Lemma run_lazy_segment p pat w s st r :
  w <> [] -> Forall (fun x => p x = true) w ->
  (forall x t st', In x w -> run pat (x :: t) st' = None) ->
  run pat s (consume_all w st) = Some r ->
  run (LazyPlus p :: pat) (w ++ s) st = Some r.
Proof.
  intros Hne Hall Hfail. revert st.
  induction Hall as [|x w Hx Hall IH]; intros st Hend; [done|].
  cbn [app]. rewrite run_lazy_step, Hx.
  destruct w as [|y w].
  - cbn [app fold_left] in *. by rewrite Hend.
  - cbn [app]. rewrite (Hfail y) by (right; by left).
    apply IH; [done | | exact Hend].
    intros x' t st' Hin. apply Hfail. by right.
Qed.

Lemma run_greedy_step p pat s x st :
  run (GreedyPlus p :: pat) (x :: s) st
    = if p x then
        match run (GreedyPlus p :: pat) s (consume x st) with
        | Some r => Some r
        | None => run pat s (consume x st)
        end
      else None.
Proof. reflexivity. Qed.

Lemma run_greedy_segment p pat w s st r :
  w <> [] -> Forall (fun x => p x = true) w ->
  match s with [] => True | y :: _ => p y = false end ->
  run pat s (consume_all w st) = Some r ->
  run (GreedyPlus p :: pat) (w ++ s) st = Some r.
Proof.
  intros Hne Hall Hs. revert st.
  induction Hall as [|x w Hx Hall IH]; intros st Hend; [done|].
  cbn [app]. rewrite run_greedy_step, Hx.
  destruct w as [|y w].
  - cbn [app fold_left] in *.
    destruct s as [|y s]; [reflexivity || (cbn [run]; by rewrite Hend)|].
    rewrite run_greedy_step, Hs. exact Hend.
  - rewrite IH; [reflexivity | done | exact Hend].
Qed.

Lemma field_of_spec p s :
  field_of p s = true ->
  list_ascii_of_string s <> [] /\
  Forall (fun c => p c = true) (list_ascii_of_string s).
Proof.
  unfold field_of. rewrite andb_true_iff, negb_true_iff.
  intros [Hne Hall]. split.
  - destruct s; [discriminate Hne | discriminate].
  - apply List.Forall_forall. by apply forallb_forall.
Qed.

Lemma list_ascii_of_string_app (s1 s2 : string) :
  list_ascii_of_string (String.append s1 s2)
    = list_ascii_of_string s1 ++ list_ascii_of_string s2.
Proof.
  induction s1 as [|c s1 IH]; [reflexivity|].
  change (c :: list_ascii_of_string (String.append s1 s2)
          = c :: (list_ascii_of_string s1 ++ list_ascii_of_string s2)).
  by rewrite IH.
Qed.

Local Abbreviation chars := list_ascii_of_string.

Lemma trace_block_chars address_digits hit instruction result output more :
  chars (String.append
           (trace_block (String.append "0x" address_digits) hit instruction
                        result output) more)
    = chars "#####" ++ chars " Fault. " ++ chars "Address: " ++
      chars "0x" ++ chars address_digits ++ chars ". Hit: " ++
      chars hit ++ chars ". " ++ chars "Instruction: " ++
      chars instruction ++ [newline] ++ chars "Run result: " ++
      chars result ++ [newline] ++ chars "Output" ++ chars " (hex)" ++
      chars ": " ++ chars output ++ [newline] ++ chars more.
Proof.
  unfold trace_block. rewrite !list_ascii_of_string_app, <- !app_assoc.
  reflexivity.
Qed.

Lemma run_group_open pat s st :
  run (GroupOpen :: pat) s st = run pat s (mkMstate (closed st) (Some [])).
Proof. reflexivity. Qed.

Lemma run_group_close pat s st :
  run (GroupClose :: pat) s st
    = run pat s (mkMstate (rev (default [] (opened st)) :: closed st) None).
Proof. reflexivity. Qed.

Lemma run_eol_newline pat s st :
  run (Eol :: pat) (newline :: s) st = run pat (newline :: s) st.
Proof. reflexivity. Qed.

Lemma run_close_lit_fails c pat x t st :
  x <> c -> run (GroupClose :: Lit c :: pat) (x :: t) st = None.
Proof.
  intros Hne. cbn [run]. by destruct (Ascii.eqb_spec x c).
Qed.

Lemma run_close_eol_fails pat x t st :
  x <> newline -> run (GroupClose :: Eol :: pat) (x :: t) st = None.
Proof.
  intros Hne. cbn [run]. by destruct (Ascii.eqb_spec x newline).
Qed.

Ltac fixed_segment :=
  apply run_lazy_segment;
  [ discriminate
  | repeat constructor
  | let Hin := fresh in
    intros ? ? ? Hin; cbn in Hin;
    repeat (destruct Hin as [<-|Hin]; [reflexivity|]); destruct Hin
  | rewrite consume_all_none ].

Lemma run_trace_block A H I R O M :
  A <> [] -> Forall (fun c => is_lower_hex c = true) A ->
  H <> [] -> Forall (fun c => is_digit c = true) H ->
  I <> [] -> Forall (fun c => is_digit c = true) I ->
  R <> [] -> Forall (fun c => not_newline c = true) R ->
  O <> [] -> Forall (fun c => is_lower_hex c = true) O ->
  run trace_pattern
      (chars "#####" ++ chars " Fault. " ++ chars "Address: " ++
       chars "0x" ++ A ++ chars ". Hit: " ++
       H ++ chars ". " ++ chars "Instruction: " ++
       I ++ [newline] ++ chars "Run result: " ++
       R ++ [newline] ++ chars "Output" ++ chars " (hex)" ++
       chars ": " ++ O ++ [newline] ++ M)
      (mkMstate [] None)
    = Some (mkMstate [O; R; I; H; chars "0x" ++ A] None, newline :: M).
Proof.
  intros HA0 HA HH0 HH HI0 HI HR0 HR HO0 HO.
  unfold trace_pattern, lits. cbn [app].
  rewrite run_lits, consume_all_none.
  fixed_segment.
  rewrite run_lits, consume_all_none.
  rewrite run_group_open. cbn [closed].
  rewrite run_lits, consume_all_open.
  apply run_lazy_segment; [exact HA0 | exact HA | |].
  { intros x t st' Hin. apply run_close_lit_fails.
    rewrite List.Forall_forall in HA. apply HA in Hin.
    intros ->. discriminate Hin. }
  rewrite consume_all_open, run_group_close. cbn [closed opened default].
  rewrite run_lits, consume_all_none.
  rewrite run_group_open. cbn [closed].
  change (H ++ chars ". " ++ ?t) with (H ++ "."%char :: " "%char :: t).
  apply run_greedy_segment; [exact HH0 | exact HH | reflexivity |].
  rewrite consume_all_open, run_group_close. cbn [closed opened default].
  change ("."%char :: " "%char :: ?t) with (chars ". " ++ t).
  fixed_segment.
  rewrite run_lits, consume_all_none.
  rewrite run_group_open. cbn [closed].
  apply run_greedy_segment; [exact HI0 | exact HI | reflexivity |].
  rewrite consume_all_open, run_group_close. cbn [closed opened default].
  change (newline :: ?t) with ([newline] ++ t) at 1.
  fixed_segment.
  rewrite run_lits, consume_all_none.
  rewrite run_group_open. cbn [closed].
  apply run_lazy_segment; [exact HR0 | | |].
  { eapply Forall_impl; [exact HR|]. reflexivity. }
  { intros x t st' Hin. apply run_close_eol_fails.
    rewrite List.Forall_forall in HR. apply HR in Hin.
    intros ->. discriminate Hin. }
  rewrite consume_all_open, run_group_close. cbn [closed opened default].
  rewrite run_eol_newline.
  change (newline :: ?t) with ([newline] ++ t) at 1.
  fixed_segment.
  rewrite run_lits, consume_all_none.
  fixed_segment.
  rewrite run_lits, consume_all_none.
  rewrite run_group_open. cbn [closed].
  apply run_lazy_segment; [exact HO0 | exact HO | |].
  { intros x t st' Hin. apply run_close_eol_fails.
    rewrite List.Forall_forall in HO. apply HO in Hin.
    intros ->. discriminate Hin. }
  rewrite consume_all_open, run_group_close. cbn [closed opened default].
  rewrite run_eol_newline. cbn [run].
  unfold id. rewrite !app_nil_r, <- rev_app_distr, !rev_involutive.
  reflexivity.
Qed.

Lemma findall_from_skip pat w t :
  findall_from pat (w ++ t) (length w) = findall_from pat t 0.
Proof. induction w as [|c w IH]; [reflexivity | exact IH]. Qed.

Lemma match_at_run pat s st rest :
  run pat s (mkMstate [] None) = Some (st, rest) ->
  match_at pat s = Some (map string_of_list_ascii (rev (closed st)), rest).
Proof. unfold match_at. by intros ->. Qed.

Lemma findall_from_block pat body M groups :
  match_at pat ("#"%char :: body ++ newline :: M)
    = Some (groups, newline :: M) ->
  match_at pat (newline :: M) = None ->
  findall_from pat ("#"%char :: body ++ newline :: M) 0
    = groups :: findall_from pat M 0.
Proof.
  intros Hm Hn. cbn [findall_from]. rewrite Hm.
  replace (length ("#"%char :: body ++ newline :: M)
           - length (newline :: M) - 1)%nat with (length body)
    by (cbn [length]; rewrite length_app; cbn [length]; lia).
  rewrite findall_from_skip. cbn [findall_from]. by rewrite Hn.
Qed.

Lemma trace_block_text A H I R O M :
  chars "#####" ++ chars " Fault. " ++ chars "Address: " ++
    chars "0x" ++ A ++ chars ". Hit: " ++
    H ++ chars ". " ++ chars "Instruction: " ++
    I ++ [newline] ++ chars "Run result: " ++
    R ++ [newline] ++ chars "Output" ++ chars " (hex)" ++
    chars ": " ++ O ++ [newline] ++ M
  = "#"%char ::
      (chars "####" ++ chars " Fault. " ++ chars "Address: " ++
       chars "0x" ++ A ++ chars ". Hit: " ++
       H ++ chars ". " ++ chars "Instruction: " ++
       I ++ [newline] ++ chars "Run result: " ++
       R ++ [newline] ++ chars "Output" ++ chars " (hex)" ++
       chars ": " ++ O) ++ newline :: M.
Proof. rewrite <- !app_assoc. reflexivity. Qed.

Lemma findall_trace_block A H I R O M :
  A <> [] -> Forall (fun c => is_lower_hex c = true) A ->
  H <> [] -> Forall (fun c => is_digit c = true) H ->
  I <> [] -> Forall (fun c => is_digit c = true) I ->
  R <> [] -> Forall (fun c => not_newline c = true) R ->
  O <> [] -> Forall (fun c => is_lower_hex c = true) O ->
  findall_from trace_pattern
      (chars "#####" ++ chars " Fault. " ++ chars "Address: " ++
       chars "0x" ++ A ++ chars ". Hit: " ++
       H ++ chars ". " ++ chars "Instruction: " ++
       I ++ [newline] ++ chars "Run result: " ++
       R ++ [newline] ++ chars "Output" ++ chars " (hex)" ++
       chars ": " ++ O ++ [newline] ++ M) 0
    = map string_of_list_ascii [chars "0x" ++ A; H; I; R; O]
        :: findall_from trace_pattern M 0.
Proof.
  intros HA0 HA HH0 HH HI0 HI HR0 HR HO0 HO.
  pose proof (run_trace_block A H I R O M
                HA0 HA HH0 HH HI0 HI HR0 HR HO0 HO) as Hrun.
  apply match_at_run in Hrun. revert Hrun.
  rewrite trace_block_text. intros Hrun.
  apply (findall_from_block _ _ _ _ Hrun).
  by apply match_at_no_marker.
Qed.

(** X21. A block of the form printed by the simulator, with an address of
    [0x] and lower-case hexadecimal digits, decimal hit count and
    instruction index, a run result without a line break and an output of
    lower-case hexadecimal digits, all not empty, is parsed into the
    observation with exactly these fields, and the scan goes on with the
    text after the block: what follows the block never changes how the
    block is read. *)
Theorem parse_text_trace_block
    (address_digits hit instruction result output more : string) :
  field_of is_lower_hex address_digits = true ->
  field_of is_digit hit = true ->
  field_of is_digit instruction = true ->
  field_of not_newline result = true ->
  field_of is_lower_hex output = true ->
  parse_text (String.append
                (trace_block (String.append "0x" address_digits) hit
                             instruction result output) more)
    = mkSimulationResult (String.append "0x" address_digits)
                         (int_of_digits hit) (int_of_digits instruction)
                         result output
        :: parse_text more.
Proof.
  intros HA HH HI HR HO.
  apply field_of_spec in HA, HH, HI, HR, HO.
  destruct HA as [HA0 HA], HH as [HH0 HH], HI as [HI0 HI],
           HR as [HR0 HR], HO as [HO0 HO].
  unfold parse_text, findall. rewrite trace_block_chars.
  rewrite (findall_trace_block _ _ _ _ _ (chars more)
             HA0 HA HH0 HH HI0 HI HR0 HR HO0 HO).
  cbn [map parse_case]. f_equal.
  rewrite <- list_ascii_of_string_app, !string_of_list_ascii_of_string.
  reflexivity.
Qed.

Lemma parse_text_trace_block_witness :
  parse_text (String.append
                (trace_block (String.append "0x" "8000a4") "12" "7" "exit"
                             "00ff") "trailing text")
    = mkSimulationResult (String.append "0x" "8000a4")
                         (int_of_digits "12") (int_of_digits "7")
                         "exit" "00ff"
        :: parse_text "trailing text".
Proof.
  apply parse_text_trace_block; reflexivity.
Defined.

(** ** The number of generated keys *)

Lemma length_block_masks : length block_masks = 46%nat.
Proof. vm_compute. reflexivity. Qed.

Lemma length_start_end_masks :
  N.of_nat (length start_end_masks) = 65790%N.
Proof.
  unfold start_end_masks. rewrite length_flat_map.
  rewrite (map_ext_in _
             (fun s => if s =? 0 then 510%nat
                       else (Z.to_nat (256 - s) * 2)%nat)).
  - vm_compute. reflexivity.
  - intros s Hs. apply In_range in Hs.
    destruct (Z.eqb_spec s 0) as [->|Hne]; [vm_compute; reflexivity|].
    rewrite (flat_map_constant_length (c := 2)).
    + unfold range. rewrite length_seqZ. f_equal. lia.
    + intros e He. apply In_range in He.
      destruct (Z.eqb_spec (s + e) 0); [lia | reflexivity].
Qed.

Lemma length_shifted_keys key : length (shifted_keys key) = 2040%nat.
Proof.
  unfold shifted_keys. rewrite (flat_map_constant_length (c := 8)).
  - unfold range. rewrite length_seqZ. reflexivity.
  - intros b _. reflexivity.
Qed.

Lemma length_small_keys : length small_keys = 512%nat.
Proof.
  unfold small_keys. rewrite (flat_map_constant_length (c := 2)).
  - unfold range. rewrite length_seqZ. reflexivity.
  - intros b _. reflexivity.
Qed.

Lemma length_corner_keys : N.of_nat (length corner_keys) = 65025%N.
Proof.
  unfold corner_keys. rewrite length_flat_map.
  rewrite (map_ext_in _
             (fun n => (length (combinations (range 0 8) (Z.to_nat n))
                        * 255)%nat)).
  - vm_compute. reflexivity.
  - intros n _. apply flat_map_constant_length. intros upper_bits _.
    rewrite length_flat_map.
    rewrite (map_ext _
               (fun n => length (combinations (range 0 8) (Z.to_nat n))))
      by (intros; apply length_map).
    vm_compute. reflexivity.
Qed.

Lemma loop_invoked_length derive keys d :
  (length (loop_invoked (faulted_results_loop derive keys d))
   <= length (loop_yielded (faulted_results_loop derive keys d)))%nat.
Proof.
  revert d. induction keys as [|faulted_key keys IH]; intros d.
  - reflexivity.
  - cbn [faulted_results_loop].
    destruct (clamp faulted_key) as [clamped|?]; [|reflexivity].
    destruct (d !! hex clamped) as [in_cache|].
    + destruct (fromhex in_cache); [|reflexivity].
      cbn [loop_yielded loop_invoked length]. specialize (IH d). lia.
    + cbn [loop_yielded loop_invoked length].
      specialize (IH (<[hex clamped := hex (derive clamped)]> d)). lia.
Qed.

(** X22. For every original key of at most 32 bytes the generator yields
    exactly 133413 keys (65836 masked keys, 2040 shifted keys, 512 keys
    of one byte and 65025 keys of two bytes); a pass of
    [generate_faulted_results] from a cache of hexadecimal text then
    yields 133413 pairs and invokes the primitive at most that many
    times. *)
Theorem generated_key_count (original_key : bytes) :
  (length original_key <= 32)%nat ->
  N.of_nat (length (fst (generate_faulted_keys original_key))) = 133413%N /\
  forall derive stored,
    valid_cache (default ∅ stored) ->
    N.of_nat (length (yielded (generate_faulted_results derive stored
                                                        original_key)))
      = 133413%N /\
    (N.of_nat (length (invoked (generate_faulted_results derive stored
                                                         original_key)))
     <= 133413)%N.
Proof.
  intros Hlen.
  assert (Hcount : N.of_nat (length (fst (generate_faulted_keys
                                            original_key))) = 133413%N).
  { rewrite generate_faulted_keys_short by exact Hlen.
    cbn [fst]. rewrite length_app, !length_map, !length_app.
    rewrite length_block_masks, length_shifted_keys, length_small_keys.
    rewrite !Nat2N.inj_add, length_start_end_masks, length_corner_keys.
    reflexivity. }
  split; [exact Hcount|]. intros derive stored Hvalid.
  destruct (generation_completes derive stored original_key Hvalid Hlen)
    as [_ Hy].
  apply Forall2_length in Hy. revert Hy Hcount.
  rewrite generate_faulted_results_eq, yielded_end_of_pass,
    invoked_end_of_pass.
  generalize (generate_faulted_keys original_key). intros keys Hy Hcount.
  pose proof (loop_invoked_length derive (fst keys) (default ∅ stored)).
  rewrite <- Hy. split; [exact Hcount | lia].
Qed.

Lemma generated_key_count_witness :
  N.of_nat (length (fst (generate_faulted_keys untouched_key))) = 133413%N /\
  forall derive stored,
    valid_cache (default ∅ stored) ->
    N.of_nat (length (yielded (generate_faulted_results derive stored
                                                        untouched_key)))
      = 133413%N /\
    (N.of_nat (length (invoked (generate_faulted_results derive stored
                                                         untouched_key)))
     <= 133413)%N.
Proof.
  apply (generated_key_count untouched_key).
  rewrite length_untouched_key. lia.
Defined.

(** ** The keys of two bytes *)

Lemma In_corner_keys c :
  In c corner_keys <->
  exists upper_bits lower_bits,
    In upper_bits proper_subsets /\ In lower_bits proper_subsets /\
    c = (fold_left (fun acc bit => Z.lor acc (Z.shiftl 1 (bit + 248)))
                   lower_bits (bits_value upper_bits), Big).
Proof.
  unfold corner_keys, proper_subsets. rewrite in_flat_map. split.
  - intros [un [Hun Hc]]. apply in_flat_map in Hc.
    destruct Hc as [ub [Hub Hc]]. apply in_flat_map in Hc.
    destruct Hc as [ln [Hln Hc]]. apply in_map_iff in Hc.
    destruct Hc as [lb [<- Hlb]]. exists ub, lb.
    split; [apply in_flat_map; eauto|].
    split; [apply in_flat_map; eauto | reflexivity].
  - intros (ub & lb & Hub & Hlb & ->).
    apply in_flat_map in Hub. destruct Hub as [un [Hun Hub]].
    apply in_flat_map in Hlb. destruct Hlb as [ln [Hln Hlb]].
    exists un. split; [exact Hun|]. apply in_flat_map.
    exists ub. split; [exact Hub|]. apply in_flat_map.
    exists ln. split; [exact Hln|]. apply in_map_iff.
    exists lb. split; [reflexivity | exact Hlb].
Qed.

Lemma proper_subsets_bits c bit :
  In c proper_subsets -> In bit c -> 0 <= bit < 8.
Proof.
  unfold proper_subsets. intros Hc Hbit. apply in_flat_map in Hc.
  destruct Hc as [n [_ Hc]].
  apply In_range, (combinations_In _ _ _ _ Hc Hbit).
Qed.

Lemma fold_bits_shifted bits acc a :
  Forall (fun bit => 0 <= bit) bits ->
  fold_left (fun acc bit => Z.lor acc (Z.shiftl 1 (bit + 248))) bits
            (Z.lor acc (Z.shiftl a 248))
    = Z.lor acc
        (Z.shiftl
           (fold_left (fun acc bit => Z.lor acc (Z.shiftl 1 bit)) bits a)
           248).
Proof.
  intros Hbits. revert a.
  induction Hbits as [|bit bits Hbit _ IH]; intros a; [reflexivity|].
  cbn [fold_left]. rewrite <- IH. f_equal.
  rewrite Z.shiftl_lor, Z.shiftl_shiftl by exact Hbit.
  by rewrite Z.lor_assoc.
Qed.

Lemma proper_subsets_values :
  forallb (fun c => (0 <=? bits_value c) && (bits_value c <? 255))
          proper_subsets = true.
Proof. vm_compute. reflexivity. Qed.

Lemma values_proper_subsets :
  forallb (fun v => existsb (fun c => bits_value c =? v) proper_subsets)
          (range 0 255) = true.
Proof. vm_compute. reflexivity. Qed.

Lemma Z_of_byte_not_ff (a : byte) : a <> xff <-> Z_of_byte a <> 255.
Proof.
  split.
  - intros Ha Hv. apply Ha. rewrite <- (byte_of_Z_of_byte a), Hv.
    reflexivity.
  - intros Hv ->. by apply Hv.
Qed.

Lemma to_bytes_little_shifted n L :
  0 <= L ->
  to_bytes_little (S n) (Z.shiftl L (8 * Z.of_nat n))
    = replicate n x00 ++ [byte_of_Z L].
Proof.
  intros HL. induction n as [|n IH].
  - cbn [to_bytes_little replicate app]. by rewrite Z.shiftl_0_r.
  - change (to_bytes_little (S (S n)) ?v)
      with (byte_of_Z v :: to_bytes_little (S n) (Z.shiftr v 8)).
    rewrite Z.shiftr_shiftl_l by lia.
    replace (8 * Z.of_nat (S n) - 8) with (8 * Z.of_nat n) by lia.
    rewrite IH. cbn [replicate app]. f_equal.
    rewrite <- byte_of_Z_mod, Z.shiftl_mul_pow2 by lia.
    replace (8 * Z.of_nat (S n)) with (8 * Z.of_nat n + 8) by lia.
    rewrite Z.pow_add_r by lia. change (2 ^ 8) with 256.
    rewrite Z.mul_assoc, Z.mod_mul by lia. reflexivity.
Qed.

Lemma encode32_corner U L :
  0 <= U < 256 -> 0 <= L < 256 ->
  encode32 (Z.lor U (Z.shiftl L 248), Big)
    = byte_of_Z L :: replicate 30 x00 ++ [byte_of_Z U].
Proof.
  intros HU HL. unfold encode32. cbn [fst snd].
  assert (Hlow : Z.land (Z.lor U (Z.shiftl L 248)) 255 = U).
  { change 255 with (Z.ones 8). apply Z.bits_inj'. intros i Hi.
    rewrite Z.land_spec, Z.lor_spec, Z.testbit_ones_nonneg by lia.
    destruct (Z.ltb_spec i 8) as [Hlt|Hge].
    - rewrite Z.shiftl_spec_low by lia.
      by rewrite orb_false_r, andb_true_r.
    - rewrite andb_false_r. symmetry. apply testbit_above with 8; lia. }
  assert (Hhigh : Z.shiftr (Z.lor U (Z.shiftl L 248)) 8
                  = Z.shiftl L (8 * Z.of_nat 30)).
  { rewrite Z.shiftr_lor, Z.shiftr_shiftl_l by lia.
    rewrite shiftr_8, Z.div_small by lia. reflexivity. }
  assert (Hbyte : byte_of_Z (Z.lor U (Z.shiftl L 248)) = byte_of_Z U).
  { unfold byte_of_Z. rewrite Hlow, land_255, Z.mod_small by lia.
    reflexivity. }
  change (to_bytes_little 32 ?v)
    with (byte_of_Z v :: to_bytes_little 31 (Z.shiftr v 8)).
  rewrite Hhigh, Hbyte, to_bytes_little_shifted by lia.
  cbn [rev]. rewrite rev_app_distr. reflexivity.
Qed.

Lemma corner_value upper_bits lower_bits :
  In upper_bits proper_subsets -> In lower_bits proper_subsets ->
  (0 <= bits_value upper_bits < 255) /\
  (0 <= bits_value lower_bits < 255) /\
  encode32 (fold_left (fun acc bit => Z.lor acc (Z.shiftl 1 (bit + 248)))
                      lower_bits (bits_value upper_bits), Big)
    = byte_of_Z (bits_value lower_bits)
        :: replicate 30 x00 ++ [byte_of_Z (bits_value upper_bits)].
Proof.
  intros Hu Hl.
  pose proof proper_subsets_values as Hv.
  rewrite forallb_forall in Hv.
  pose proof (Hv _ Hu) as Hvu. pose proof (Hv _ Hl) as Hvl.
  apply andb_true_iff in Hvu, Hvl.
  rewrite Z.leb_le, Z.ltb_lt in Hvu, Hvl.
  split; [exact Hvu|]. split; [exact Hvl|].
  rewrite <- (Z.lor_0_r (bits_value upper_bits)) at 1.
  change 0 with (Z.shiftl 0 248) at 1.
  rewrite fold_bits_shifted.
  - apply encode32_corner; lia.
  - apply List.Forall_forall. intros bit Hbit.
    pose proof (proper_subsets_bits _ _ Hl Hbit). lia.
Qed.

Lemma byte_proper_subset (a : byte) :
  a <> xff ->
  exists bits, In bits proper_subsets /\ byte_of_Z (bits_value bits) = a.
Proof.
  intros Ha. apply Z_of_byte_not_ff in Ha.
  pose proof (Z_of_byte_range a) as Hr.
  pose proof values_proper_subsets as Hv.
  rewrite forallb_forall in Hv.
  assert (Hin : In (Z_of_byte a) (range 0 255)) by (apply In_range; lia).
  apply Hv, existsb_exists in Hin. destruct Hin as [bits [Hin Heq]].
  apply Z.eqb_eq in Heq. exists bits. split; [exact Hin|].
  rewrite Heq. apply byte_of_Z_of_byte.
Qed.

(** X23. The last family of the generator is the keys whose first and
    last bytes are any two bytes other than 0xff and whose 30 bytes in
    between are zero: every key of the family has this form, and for an
    original key of at most 32 bytes every key of this form is yielded. *)
Theorem corner_keys_exhaustive (original_key : bytes) (a b : byte) :
  (forall c, In c corner_keys ->
     exists a' b', a' <> xff /\ b' <> xff /\
                   encode32 c = a' :: replicate 30 x00 ++ [b']) /\
  ((length original_key <= 32)%nat -> a <> xff -> b <> xff ->
   In (a :: replicate 30 x00 ++ [b])
      (fst (generate_faulted_keys original_key))).
Proof.
  split.
  - intros c Hc. apply In_corner_keys in Hc.
    destruct Hc as (ub & lb & Hu & Hl & ->).
    destruct (corner_value ub lb Hu Hl) as (Hvu & Hvl & Henc).
    exists (byte_of_Z (bits_value lb)), (byte_of_Z (bits_value ub)).
    split; [|split; [|exact Henc]];
      apply Z_of_byte_not_ff; rewrite Z_of_byte_of_Z, Z.mod_small; lia.
  - intros Hlen Ha Hb.
    destruct (byte_proper_subset a Ha) as [lb [Hl Hla]].
    destruct (byte_proper_subset b Hb) as [ub [Hu Hub]].
    destruct (corner_value ub lb Hu Hl) as (_ & _ & Henc).
    rewrite Hla, Hub in Henc.
    rewrite generate_faulted_keys_short by exact Hlen. cbn [fst].
    apply in_app_iff. right. rewrite <- Henc. apply in_map.
    apply in_app_iff. right. apply in_app_iff. right.
    apply In_corner_keys. eauto.
Qed.

Lemma corner_keys_exhaustive_witness :
  In (x80 :: replicate 30 x00 ++ [x01])
     (fst (generate_faulted_keys untouched_key)).
Proof.
  apply (proj2 (corner_keys_exhaustive untouched_key x80 x01)).
  - cbn. lia.
  - discriminate.
  - discriminate.
Defined.

(** ** A cache with a value that is not hexadecimal text *)

Lemma fromhex_list_Raise s e :
  (fromhex_list s = Raise e -> e = ValueError) /\
  (forall c, fromhex_list (c :: s) = Raise e -> e = ValueError).
Proof.
  induction s as [|c' s [IH1 IH2]].
  - split; [discriminate|]. intros c. cbn [fromhex_list].
    destruct (is_space c); [discriminate|].
    destruct (hexval c); by intros [= <-].
  - split; [apply IH2|]. intros c. cbn [fromhex_list].
    destruct (is_space c); [apply IH2|].
    destruct (hexval c); [|by intros [= <-]].
    destruct (hexval c'); [|by intros [= <-]].
    destruct (fromhex_list s) as [bs|e'] eqn:E; [discriminate|].
    intros [= <-]. by apply IH1.
Qed.

Lemma fromhex_Raise s e : fromhex s = Raise e -> e = ValueError.
Proof. unfold fromhex. apply fromhex_list_Raise. Qed.

(** The loop raises when it reaches a key whose cached value cannot be
    read, if not before. *)
Lemma loop_corrupt derive keys d faulted_key clamped_key v e :
  Forall (fun k : bytes => (length k <= 32)%nat) keys ->
  In faulted_key keys -> clamp faulted_key = Ok clamped_key ->
  d !! hex clamped_key = Some v -> fromhex v = Raise e ->
  loop_raised (faulted_results_loop derive keys d) = Some ValueError.
Proof.
  intros Hkeys Hin Hclamp Hd Hv. revert d Hd Hin.
  induction Hkeys as [|k keys Hlen _ IH]; intros d Hd Hin; [destruct Hin|].
  pose proof (clamp_short k Hlen) as Hc.
  cbn [faulted_results_loop].
  destruct (clamp k) as [clamped|?] eqn:Eclamp; [|congruence].
  destruct (d !! hex clamped) as [in_cache|] eqn:Ecached.
  - destruct (fromhex in_cache) as [public|e'] eqn:Ehex.
    + cbn [loop_raised]. apply IH; [exact Hd|].
      destruct Hin as [->|Hin]; [|exact Hin]. congruence.
    + cbn [loop_raised]. apply fromhex_Raise in Ehex. by subst.
  - cbn [loop_raised].
    assert (Hne : hex clamped <> hex clamped_key) by congruence.
    apply IH.
    + by rewrite lookup_insert_ne.
    + destruct Hin as [->|Hin]; [congruence | exact Hin].
Qed.

Lemma pass_corrupt derive stored original_key faulted_key clamped_key v e :
  In faulted_key (fst (generate_faulted_keys original_key)) ->
  clamp faulted_key = Ok clamped_key ->
  default ∅ stored !! hex clamped_key = Some v ->
  fromhex v = Raise e ->
  raised (generate_faulted_results derive stored original_key)
    = Some ValueError /\
  written (generate_faulted_results derive stored original_key) = [].
Proof.
  intros Hin Hclamp Hd Hv.
  pose proof (generated_keys_short original_key) as Hshort.
  rewrite generate_faulted_results_eq.
  revert Hin Hshort. generalize (generate_faulted_keys original_key).
  intros keys Hin Hshort.
  rewrite written_end_of_pass, raised_end_of_pass.
  rewrite (loop_corrupt derive (fst keys) _ _ _ _ _
             ltac:(apply List.Forall_forall; exact Hshort)
             Hin Hclamp Hd Hv).
  split; reflexivity.
Qed.

(** X24. A value of the loaded cache that is not hexadecimal text, under
    the hex of the clamped form of a key that the generator yields, makes
    the pass of [generate_faulted_results] end with [ValueError] without
    writing the cache, whatever was computed before; [check_key_shortening]
    then raises and reports nothing. *)
Theorem corrupt_cache_raises (derive : bytes -> bytes) (fs : filesystem)
    (stored : option (gmap string string)) (output_dir : string)
    (original_key faulted_key clamped_key : bytes) (v : string) (e : exn) :
  In faulted_key (fst (generate_faulted_keys original_key)) ->
  clamp faulted_key = Ok clamped_key ->
  default ∅ stored !! hex clamped_key = Some v ->
  fromhex v = Raise e ->
  raised (generate_faulted_results derive stored original_key)
    = Some ValueError /\
  written (generate_faulted_results derive stored original_key) = [] /\
  (original_key = untouched_key ->
   exists e', check_key_shortening derive fs stored output_dir = Raise e').
Proof.
  intros Hin Hclamp Hd Hv.
  destruct (pass_corrupt derive stored original_key _ _ _ _
              Hin Hclamp Hd Hv) as [Hr Hw].
  split; [exact Hr|]. split; [exact Hw|].
  intros Hkey. unfold check_key_shortening.
  revert Hr. rewrite Hkey.
  generalize (generate_faulted_results derive stored untouched_key).
  intros g Hr.
  destruct (parse_output fs output_dir) as [observations|e'].
  - unfold report_effective_keys. rewrite Hr. eexists. reflexivity.
  - eexists. reflexivity.
Qed.

Lemma corrupt_cache_raises_witness :
  raised (generate_faulted_results stub_public_key (Some corrupt_cache)
                                   untouched_key) = Some ValueError /\
  written (generate_faulted_results stub_public_key (Some corrupt_cache)
                                    untouched_key) = [] /\
  (untouched_key = untouched_key ->
   exists e', check_key_shortening stub_public_key one_observation
                                   (Some corrupt_cache) "outputs"
              = Raise e').
Proof.
  assert (Hmask : In (encode32 (Z.shiftl (2 ^ 8 - 1) (0 * 8), Big))
                     (map encode32 (block_masks ++ start_end_masks))).
  { apply in_map, in_app_iff. left. vm_compute. left. reflexivity. }
  apply (corrupt_cache_raises stub_public_key one_observation
           (Some corrupt_cache) "outputs" untouched_key
           (and_bytes untouched_key
              (encode32 (Z.shiftl (2 ^ 8 - 1) (0 * 8), Big)))
           first_effective_key "zz" ValueError).
  - exact (masked_key_generated untouched_key _ _ fault_masks_Ok Hmask).
  - vm_compute. reflexivity.
  - vm_compute. reflexivity.
  - vm_compute. reflexivity.
Defined.

(** ** The shifted keys *)

Lemma lor_disjoint a b : Z.land a b = 0 -> Z.lor a b = a + b.
Proof. intros H. rewrite <- Z.add_lor_land, H. lia. Qed.

Lemma from_bytes_encode32_same x endian :
  fits32 x -> from_bytes endian (encode32 (x, endian)) = x.
Proof.
  intros Hx. pose proof (from_bytes_encode32 (x, endian) Hx) as H.
  cbn [fst snd] in H. destruct endian; exact H.
Qed.

Lemma In_shifted_keys key b endian :
  1 <= b < 256 ->
  let n := from_bytes endian key in
  let left_0 := Z.land (Z.shiftl n b) (Z.shiftl 1 256 - 1) in
  let right_0 := Z.shiftr n b in
  In (left_0, endian) (shifted_keys key) /\
  In (right_0, endian) (shifted_keys key) /\
  In (Z.lor left_0 (Z.shiftl 1 b - 1), endian) (shifted_keys key) /\
  In (Z.lor right_0 (Z.shiftl (Z.shiftl 1 b - 1) (256 - b)), endian)
     (shifted_keys key).
Proof.
  intros Hb. cbv zeta.
  assert (H : forall c,
             In c [(Z.land (Z.shiftl (from_bytes endian key) b)
                           (Z.shiftl 1 256 - 1), endian);
                   (Z.shiftr (from_bytes endian key) b, endian);
                   (Z.lor (Z.land (Z.shiftl (from_bytes endian key) b)
                                  (Z.shiftl 1 256 - 1))
                          (Z.shiftl 1 b - 1), endian);
                   (Z.lor (Z.shiftr (from_bytes endian key) b)
                          (Z.shiftl (Z.shiftl 1 b - 1) (256 - b)), endian)] ->
             In c (shifted_keys key)).
  { intros c Hc. unfold shifted_keys. apply in_flat_map.
    exists b. split; [apply In_range; lia|].
    apply in_flat_map. exists endian.
    split; [destruct endian; cbn; tauto | exact Hc]. }
  repeat split; apply H; cbn [In]; tauto.
Qed.

(** X25. For an original key of at most 32 bytes, each shift of 1 to 255
    bits and each byte order, the generator yields four 32-byte keys
    whose integers in that byte order are, for the integer n of the
    original key: n shifted left within 256 bits, n shifted right, the
    left shift with the vacated low bits set, and the right shift with
    the vacated high bits set. *)
Theorem shifted_keys_yielded (original_key : bytes) (b : Z)
    (endian : byteorder) :
  (length original_key <= 32)%nat -> 1 <= b <= 255 ->
  let n := from_bytes endian original_key in
  let yields x :=
    exists k, In k (fst (generate_faulted_keys original_key)) /\
              length k = 32%nat /\ from_bytes endian k = x in
  yields ((n * 2 ^ b) mod 2 ^ 256) /\
  yields (n / 2 ^ b) /\
  yields ((n * 2 ^ b) mod 2 ^ 256 + (2 ^ b - 1)) /\
  yields (n / 2 ^ b + (2 ^ 256 - 2 ^ (256 - b))).
Proof.
  intros Hlen Hb n yields.
  assert (Hn : fits32 n) by (apply fits32_from_bytes; exact Hlen).
  assert (Hall : Forall (fun c => fits32 (fst c)) (shifted_keys original_key))
    by (apply fits32_shifted_keys; exact Hlen).
  rewrite List.Forall_forall in Hall.
  assert (Hy : forall x, In (x, endian) (shifted_keys original_key) ->
                         yields x).
  { intros x Hx. exists (encode32 (x, endian)).
    split; [|split].
    - rewrite generate_faulted_keys_short by exact Hlen. cbn [fst].
      apply in_app_iff. right. apply in_map, in_app_iff. by left.
    - apply length_encode32.
    - apply from_bytes_encode32_same. exact (Hall _ Hx). }
  destruct (In_shifted_keys original_key b endian ltac:(lia))
    as (H1 & H2 & H3 & H4).
  fold n in H1, H2, H3, H4.
  assert (Hp : 0 < 2 ^ b) by (apply Z.pow_pos_nonneg; lia).
  assert (E1 : Z.land (Z.shiftl n b) (Z.shiftl 1 256 - 1)
               = (n * 2 ^ b) mod 2 ^ 256).
  { rewrite shiftl_1_pred, Z.land_ones, Z.shiftl_mul_pow2 by lia.
    reflexivity. }
  assert (E2 : Z.shiftr n b = n / 2 ^ b)
    by (apply Z.shiftr_div_pow2; lia).
  assert (E3 : Z.lor (Z.land (Z.shiftl n b) (Z.shiftl 1 256 - 1))
                     (Z.shiftl 1 b - 1)
               = (n * 2 ^ b) mod 2 ^ 256 + (2 ^ b - 1)).
  { rewrite lor_disjoint.
    - rewrite E1, shiftl_1_pred, Z.ones_equiv. lia.
    - rewrite !shiftl_1_pred. apply Z.bits_inj'. intros i Hi.
      rewrite !Z.land_spec, Z.bits_0, !Z.testbit_ones_nonneg by lia.
      destruct (Z.ltb_spec i b).
      + rewrite Z.shiftl_spec_low by lia. reflexivity.
      + by rewrite andb_false_r. }
  assert (E4 : Z.lor (Z.shiftr n b)
                     (Z.shiftl (Z.shiftl 1 b - 1) (256 - b))
               = n / 2 ^ b + (2 ^ 256 - 2 ^ (256 - b))).
  { rewrite lor_disjoint.
    - rewrite E2, shiftl_1_pred, Z.ones_equiv, Z.shiftl_mul_pow2 by lia.
      replace (2 ^ 256) with (2 ^ b * 2 ^ (256 - b))
        by (rewrite <- Z.pow_add_r by lia; f_equal; lia).
      lia.
    - rewrite shiftl_1_pred. apply Z.bits_inj'. intros i Hi.
      rewrite Z.land_spec, Z.bits_0, Z.shiftr_spec by lia.
      destruct (Z.ltb_spec i (256 - b)).
      + rewrite Z.shiftl_spec_low by lia. by rewrite andb_false_r.
      + rewrite (testbit_above n 256) by (unfold fits32 in Hn; lia).
        reflexivity. }
  rewrite <- E1 at 1. rewrite <- E2 at 1. rewrite <- E3, <- E4.
  repeat split; apply Hy; assumption.
Qed.

Lemma shifted_keys_yielded_witness :
  let n := from_bytes Little untouched_key in
  let yields x :=
    exists k, In k (fst (generate_faulted_keys untouched_key)) /\
              length k = 32%nat /\ from_bytes Little k = x in
  yields ((n * 2 ^ 3) mod 2 ^ 256) /\
  yields (n / 2 ^ 3) /\
  yields ((n * 2 ^ 3) mod 2 ^ 256 + (2 ^ 3 - 1)) /\
  yields (n / 2 ^ 3 + (2 ^ 256 - 2 ^ (256 - 3))).
Proof.
  apply (shifted_keys_yielded untouched_key 3 Little).
  - rewrite length_untouched_key. lia.
  - lia.
Defined.

(** ** The sort key of the report *)

Lemma count_ones_pos_positive p : 0 < count_ones_pos p.
Proof. induction p; cbn [count_ones_pos]; lia. Qed.

Lemma count_ones_div2 x :
  0 <= x -> count_ones x = Z.b2z (Z.odd x) + count_ones (Z.div2 x).
Proof.
  intros Hx. destruct x as [|p|p]; [reflexivity| |lia].
  destruct p; cbn; lia.
Qed.

Lemma length_filter_map {A B} (p : B -> bool) (f : A -> B) l :
  length (List.filter p (map f l))
    = length (List.filter (fun x => p (f x)) l).
Proof.
  induction l as [|x l IH]; [reflexivity|].
  cbn [map List.filter]. destruct (p (f x)); cbn [length]; by rewrite IH.
Qed.

(** [bin(x).count('1')] is the number of bits of [x] that are set. *)
Lemma count_ones_spec (n : nat) x :
  0 <= x < 2 ^ Z.of_nat n ->
  count_ones x
    = Z.of_nat (length (List.filter (Z.testbit x) (seqZ 0 (Z.of_nat n)))).
Proof.
  revert x. induction n as [|n IH]; intros x Hx.
  - assert (x = 0) by (cbn in Hx; lia). subst x. reflexivity.
  - rewrite count_ones_div2 by lia.
    rewrite seqZ_cons by lia.
    replace (Z.pred (Z.of_nat (S n))) with (Z.of_nat n) by lia.
    change (Z.succ 0) with (1 + 0).
    rewrite <- (fmap_add_seqZ 1 0).
    cbn [List.filter]. rewrite Z.bit0_odd.
    change (Z.add 1 <$> seqZ 0 (Z.of_nat n))
      with (map (Z.add 1) (seqZ 0 (Z.of_nat n))).
    assert (Hrest :
      length (List.filter (Z.testbit x) (map (Z.add 1) (seqZ 0 (Z.of_nat n))))
        = length (List.filter (Z.testbit (Z.div2 x)) (seqZ 0 (Z.of_nat n)))).
    { rewrite length_filter_map. f_equal. apply filter_ext_in.
      intros i Hi. apply list_elem_of_In, elem_of_seqZ in Hi.
      replace (1 + i) with (Z.succ i) by lia.
      symmetry. rewrite Z.div2_div. apply Z.div2_bits. lia. }
    assert (Hhalf : 0 <= Z.div2 x < 2 ^ Z.of_nat n).
    { rewrite Z.div2_div. rewrite Nat2Z.inj_succ, Z.pow_succ_r in Hx by lia.
      split; [apply Z.div_pos; lia|].
      apply Z.div_lt_upper_bound; lia. }
    rewrite (IH _ Hhalf).
    destruct (Z.odd x); cbn [length Z.b2z]; rewrite Hrest; lia.
Qed.

(** X26. The sort key of [check_key_shortening] for a key of at most 32
    bytes is the number of the 256 bit positions in which the big-endian
    integers of the key and of the untouched key differ: a bit that the
    fault has set counts like a bit that it has removed.  The sort key is
    0 exactly when the two integers are equal. *)
Theorem bits_removed_hamming (item : bytes * address_hits) :
  (length (fst item) <= 32)%nat ->
  bits_removed item
    = Z.of_nat
        (length
           (List.filter
              (fun i => xorb (Z.testbit (from_bytes Big (fst item)) i)
                             (Z.testbit (from_bytes Big untouched_key) i))
              (range 0 256))) /\
  (bits_removed item = 0 <->
   from_bytes Big (fst item) = from_bytes Big untouched_key).
Proof.
  intros Hlen. unfold bits_removed.
  pose proof (fits32_from_bytes Big (fst item) Hlen) as Ha.
  pose proof (fits32_from_bytes Big untouched_key
                ltac:(rewrite length_untouched_key; lia)) as Hb.
  revert Ha Hb.
  generalize (from_bytes Big (fst item)) (from_bytes Big untouched_key).
  intros a b Ha Hb.
  assert (Hx : fits32 (Z.lxor a b)).
  { apply fits32_bits.
    - apply Z.lxor_nonneg. unfold fits32 in *. lia.
    - intros i Hi. rewrite Z.lxor_spec, !fits32_testbit by assumption.
      reflexivity. }
  split.
  - rewrite (count_ones_spec 256 _ Hx). unfold range.
    change (Z.of_nat 256) with (256 - 0). f_equal. f_equal.
    apply filter_ext. intros i. apply Z.lxor_spec.
  - rewrite <- (Z.lxor_eq_0_iff a b). unfold fits32 in Hx.
    destruct (Z.lxor a b) as [|p|p]; [split; reflexivity| |lia].
    cbn [count_ones]. pose proof (count_ones_pos_positive p).
    split; [lia | discriminate].
Qed.

Lemma bits_removed_hamming_witness :
  bits_removed (first_effective_key, ∅)
    = Z.of_nat
        (length
           (List.filter
              (fun i => xorb (Z.testbit (from_bytes Big first_effective_key) i)
                             (Z.testbit (from_bytes Big untouched_key) i))
              (range 0 256))).
Proof.
  apply (proj1 (bits_removed_hamming (first_effective_key, ∅)
                  ltac:(vm_compute; lia))).
Defined.
